(** * fcitx-utils D-Bus marshalling: [Message], [Variant] and the type registry

    A shallow embedding of [src/lib/fcitx-utils/dbus/message.h].

    The header defines the operator templates of [Message] for composite
    values (pair, tuple, [DBusStruct], [DictEntry], [std::vector]), the
    recursive [TupleMarshaller], the type-erased [Variant] with its
    [VariantHelper] operations table, and the registration side of
    [VariantTypeRegistry].  These are embedded from the code.

    The operators of [Message] on basic values, on [Container] and
    [ContainerEnd] markers and on [Variant], as well as [operator bool],
    [end()], [lookupType] and the signature traits, are only declared in the
    header.  They are modelled from the specification; every such definition
    says so in its comment. *)

From stdpp Require Import base list strings gmap pretty.
From Stdlib Require Import ZArith Lia.

Local Open Scope string_scope.
Local Open Scope Z_scope.
Local Open Scope list_scope.

(** ** Results of running a piece of the code

    [OutOfFuel]: the bounded model ran out of steps.
    [Undefined]: the C++ code has undefined behaviour there (a null or
    dangling pointer is dereferenced, a pointer is cast to the wrong type,
    an [assert] fails). *)

Inductive res (A : Type) : Type :=
| Ok (a : A)
| OutOfFuel
| Undefined.

Arguments Ok {A} a.
Arguments OutOfFuel {A}.
Arguments Undefined {A}.

Global Instance res_bind : MBind res := fun A B k c =>
  match c with
  | Ok a => k a
  | OutOfFuel => OutOfFuel
  | Undefined => Undefined
  end.

Global Instance res_ret : MRet res := fun A a => Ok a.

(** ** Basic wire kinds and values *)

(** The thirteen basic kinds that have an [operator<<] and an [operator>>]
    of their own (message.h, lines 344-358 and 437-449). *)
Inductive basic : Type :=
| KUInt8 | KBool | KInt16 | KUInt16 | KInt32 | KUInt32 | KInt64 | KUInt64
| KDouble | KString | KObjectPath | KSignature | KUnixFD.

Global Instance basic_eq_dec : EqDecision basic.
Proof. solve_decision. Defined.

(** A value of a basic kind.  Integers are [Z]; a [double] is its 64-bit
    pattern, so equality is identity of bits; [ObjectPath] and [Signature]
    wrap a string (message.h, lines 240-258); [UnixFD] is the opaque handle
    index. *)
Inductive basic_value : Type :=
| BUInt8 (i : Z)
| BBool (b : bool)
| BInt16 (i : Z)
| BUInt16 (i : Z)
| BInt32 (i : Z)
| BUInt32 (i : Z)
| BInt64 (i : Z)
| BUInt64 (i : Z)
| BDouble (bits : Z)
| BString (s : string)
| BObjectPath (path_ : string)
| BSignature (sig_ : string)
| BUnixFD (fd : Z).

Definition kind_of (p : basic_value) : basic :=
  match p with
  | BUInt8 _ => KUInt8
  | BBool _ => KBool
  | BInt16 _ => KInt16
  | BUInt16 _ => KUInt16
  | BInt32 _ => KInt32
  | BUInt32 _ => KUInt32
  | BInt64 _ => KInt64
  | BUInt64 _ => KUInt64
  | BDouble _ => KDouble
  | BString _ => KString
  | BObjectPath _ => KObjectPath
  | BSignature _ => KSignature
  | BUnixFD _ => KUnixFD
  end.

(** What a default-constructed object of the kind holds.  For the scalar
    kinds C++ leaves the object uninitialised; zero stands for it.
    [ObjectPath] and [Signature] default to the empty string (lines 242 and
    252). *)
Definition default_basic (k : basic) : basic_value :=
  match k with
  | KUInt8 => BUInt8 0
  | KBool => BBool false
  | KInt16 => BInt16 0
  | KUInt16 => BUInt16 0
  | KInt32 => BInt32 0
  | KUInt32 => BUInt32 0
  | KInt64 => BInt64 0
  | KUInt64 => BUInt64 0
  | KDouble => BDouble 0
  | KString => BString ""
  | KObjectPath => BObjectPath ""
  | KSignature => BSignature ""
  | KUnixFD => BUnixFD 0
  end.

(** ** The static types the templates are instantiated at *)

#[warnings="-register-all"]
Inductive dtype : Type :=
| TBasic (k : basic)
| TVariant
| TArray (elem : dtype)                (* std::vector<T> *)
| TStruct (fields : list dtype)        (* DBusStruct<Args...> *)
| TDictEntry (key val : dtype)         (* DictEntry<Key, Value> *)
| TPair (fst_ snd_ : dtype)            (* std::pair<K, V> *)
| TTuple (fields : list dtype).        (* std::tuple<Args...> *)

(** Induction over the types, through the field lists. *)
Section dtype_induction.
Variable P : dtype -> Prop.
Hypothesis Hbasic : forall k, P (TBasic k).
Hypothesis Hvariant : P TVariant.
Hypothesis Harray : forall e, P e -> P (TArray e).
Hypothesis Hstruct : forall fs, Forall P fs -> P (TStruct fs).
Hypothesis Hdict : forall k v, P k -> P v -> P (TDictEntry k v).
Hypothesis Hpair : forall a b, P a -> P b -> P (TPair a b).
Hypothesis Htuple : forall fs, Forall P fs -> P (TTuple fs).

Fixpoint dtype_ind' (T : dtype) : P T :=
  match T with
  | TBasic k => Hbasic k
  | TVariant => Hvariant
  | TArray e => Harray e (dtype_ind' e)
  | TStruct fs =>
      Hstruct fs
        ((fix go (l : list dtype) : Forall P l :=
            match l with
            | [] => @List.Forall_nil _ P
            | x :: l' => @List.Forall_cons _ P x l' (dtype_ind' x) (go l')
            end) fs)
  | TDictEntry k v => Hdict k v (dtype_ind' k) (dtype_ind' v)
  | TPair a b => Hpair a b (dtype_ind' a) (dtype_ind' b)
  | TTuple fs =>
      Htuple fs
        ((fix go (l : list dtype) : Forall P l :=
            match l with
            | [] => @List.Forall_nil _ P
            | x :: l' => @List.Forall_cons _ P x l' (dtype_ind' x) (go l')
            end) fs)
  end.
End dtype_induction.

Fixpoint dtype_eq_dec (a b : dtype) : {a = b} + {a <> b}.
Proof.
  decide equality.
  - apply basic_eq_dec.
  - apply (List.list_eq_dec dtype_eq_dec).
  - apply (List.list_eq_dec dtype_eq_dec).
Defined.

Global Instance dtype_eqdec : EqDecision dtype := dtype_eq_dec.

(** ** Containers and the wire stream *)

(** [class Container] (lines 260-273): a kind and the signature of the
    content it brackets.  [class ContainerEnd] (line 275) has no fields. *)
Module Container.
Inductive Type_ : Type := Array | DictEntry | Struct | Variant.

Record t : Type := mk { type : Type_; content : string }.

Global Instance Type_eq_dec : EqDecision Type_.
Proof. solve_decision. Defined.

Global Instance eq_dec : EqDecision t.
Proof. solve_decision. Defined.
End Container.

(** One item of the typed stream a [Message] carries: a basic value with its
    type code, the open marker of a container, or a close marker. *)
Inductive wire : Type :=
| WBasic (p : basic_value)
| WOpen (c : Container.t)
| WClose.

(** ** Variant and the values of the static types *)

(** A [std::shared_ptr<void>] is null ([None]) or the address of a payload
    object in the store. *)
Abbreviation loc := nat (only parsing).

(** [class Variant] (lines 139-205).  [helper_] points to a
    [VariantHelper<Value>]; the helper has no state, so it is identified by
    the type [Value] it was instantiated at. *)
Record Variant : Type := mkVariant {
  signature_ : string;
  data_ : option loc;
  helper_ : option dtype;
}.

(** The values of the static types.  A vector carries its element type,
    which it has even when it is empty. *)
#[warnings="-register-all"]
Inductive value : Type :=
| VBasic (p : basic_value)
| VVariant (v : Variant)
| VArray (elem : dtype) (xs : list value)
| VStruct (fs : list value)
| VDictEntry (k v : value)
| VPair (a b : value)
| VTuple (fs : list value).

(** Induction over the values, through the element and field lists. *)
Section value_induction.
Variable P : value -> Prop.
Hypothesis Hbasic : forall p, P (VBasic p).
Hypothesis Hvariant : forall v, P (VVariant v).
Hypothesis Harray : forall e xs, Forall P xs -> P (VArray e xs).
Hypothesis Hstruct : forall fs, Forall P fs -> P (VStruct fs).
Hypothesis Hdict : forall k v, P k -> P v -> P (VDictEntry k v).
Hypothesis Hpair : forall a b, P a -> P b -> P (VPair a b).
Hypothesis Htuple : forall fs, Forall P fs -> P (VTuple fs).

Fixpoint value_ind' (x : value) : P x :=
  let fix go (l : list value) : Forall P l :=
    match l with
    | [] => @List.Forall_nil _ P
    | y :: l' => @List.Forall_cons _ P y l' (value_ind' y) (go l')
    end in
  match x with
  | VBasic p => Hbasic p
  | VVariant v => Hvariant v
  | VArray e xs => Harray e xs (go xs)
  | VStruct fs => Hstruct fs (go fs)
  | VDictEntry k v => Hdict k v (value_ind' k) (value_ind' v)
  | VPair a b => Hpair a b (value_ind' a) (value_ind' b)
  | VTuple fs => Htuple fs (go fs)
  end.
End value_induction.

(** The store of payload objects owned through [shared_ptr]s.  An object is
    never freed in the model; [make_shared] takes the next free address. *)
Abbreviation heap := (list value) (only parsing).

Definition make_shared (h : heap) (v : value) : heap * loc :=
  (h ++ [v], length h).

(** The static type of a value. *)
Fixpoint type_of (v : value) : dtype :=
  match v with
  | VBasic p => TBasic (kind_of p)
  | VVariant _ => TVariant
  | VArray e _ => TArray e
  | VStruct fs => TStruct (map type_of fs)
  | VDictEntry k v => TDictEntry (type_of k) (type_of v)
  | VPair a b => TPair (type_of a) (type_of b)
  | VTuple fs => TTuple (map type_of fs)
  end.

(** [Variant() = default] (line 141): empty signature, null payload, no
    helper. *)
Definition Variant_default : Variant :=
  {| signature_ := ""; data_ := None; helper_ := None |}.

(** A default-constructed object of a type ([T temp;], [make_shared<T>()]). *)
Fixpoint default_value (T : dtype) : value :=
  match T with
  | TBasic k => VBasic (default_basic k)
  | TVariant => VVariant Variant_default
  | TArray e => VArray e []
  | TStruct fs => VStruct (map default_value fs)
  | TDictEntry k v => VDictEntry (default_value k) (default_value v)
  | TPair a b => VPair (default_value a) (default_value b)
  | TTuple fs => VTuple (map default_value fs)
  end.

(** ** Signature grammar *)

(** Modelled from the spec: [DBusSignatureTraits] lives in
    [message_details.h], which message.h only includes.  The type codes are
    those of the wire signature table. *)
Definition basic_code (k : basic) : string :=
  match k with
  | KUInt8 => "y"
  | KBool => "b"
  | KInt16 => "n"
  | KUInt16 => "q"
  | KInt32 => "i"
  | KUInt32 => "u"
  | KInt64 => "x"
  | KUInt64 => "t"
  | KDouble => "d"
  | KString => "s"
  | KObjectPath => "o"
  | KSignature => "g"
  | KUnixFD => "h"
  end.

Definition concat_sig (l : list string) : string := foldr String.append "" l.

(** Modelled from the spec: [DBusSignatureTraits<T>::signature].  An array is
    [a] and the element signature, a struct its field signatures between
    parentheses, a dict entry key and value signature between braces, a
    variant [v].  A bare pair or tuple is written field after field with no
    container of its own (lines 363-380), so its signature is the
    concatenation of its field signatures. *)
Fixpoint signature (T : dtype) : string :=
  match T with
  | TBasic k => basic_code k
  | TVariant => "v"
  | TArray e => "a" +:+ signature e
  | TStruct fs => "(" +:+ concat_sig (map signature fs) +:+ ")"
  | TDictEntry k v => "{" +:+ signature k +:+ signature v +:+ "}"
  | TPair a b => signature a +:+ signature b
  | TTuple fs => concat_sig (map signature fs)
  end.

(** Modelled from the spec: [DBusContainerSignatureTraits<T>::signature], the
    content signature a container of type [T] is opened with: the element
    signature for an array, the concatenated field signatures for a struct,
    key then value signature for a dict entry. *)
Definition container_signature (T : dtype) : string :=
  match T with
  | TArray e => signature e
  | TStruct fs => concat_sig (map signature fs)
  | TDictEntry k v => signature k +:+ signature v
  | _ => signature T
  end.

(** ** Message: the stream and its validity flag *)

(** Modelled from the spec: [class Message] keeps its state behind
    [MessagePrivate], which is not in the header.  A message is an ordered
    stream of wire items, of which [consumed_] lie before the read cursor
    and [pending_] after it, and a sticky validity flag.  Writing appends at
    the end of the stream. *)
Record Message : Type := mkMessage {
  consumed_ : list wire;
  pending_ : list wire;
  ok_ : bool;
}.

(** Modelled from the spec: [Message()] (declared at line 309) gives an empty
    stream in the initial state, [Valid]. *)
Definition Message_new : Message :=
  {| consumed_ := []; pending_ := []; ok_ := true |}.

(** Modelled from the spec: [operator bool] reports the validity flag. *)
Definition Message_bool (m : Message) : bool := ok_ m.

Arguments Message_bool : simpl never.

(** Modelled from the spec: the transition [Valid -> Invalid] of a failing
    operator; the stream and the cursor stay. *)
Definition Message_fail (m : Message) : Message :=
  {| consumed_ := consumed_ m; pending_ := pending_ m; ok_ := false |}.

(** Modelled from the spec: items are appended at the write position, the
    end of the stream. *)
Definition Message_append (m : Message) (ws : list wire) : Message :=
  {| consumed_ := consumed_ m; pending_ := pending_ m ++ ws; ok_ := ok_ m |}.

(** Modelled from the spec: consuming the item [w] moves the cursor over it;
    [rest] is what follows it. *)
Definition Message_advance (m : Message) (w : wire) (rest : list wire)
  : Message :=
  {| consumed_ := consumed_ m ++ [w]; pending_ := rest; ok_ := ok_ m |}.

(** Modelled from the spec: open and close markers pair last-in-first-out;
    the number of containers open after the items [ws], starting from [d]
    open ones. *)
Fixpoint open_depth (d : nat) (ws : list wire) : nat :=
  match ws with
  | [] => d
  | WBasic _ :: ws' => open_depth d ws'
  | WOpen _ :: ws' => open_depth (S d) ws'
  | WClose :: ws' => open_depth (pred d) ws'
  end.

(** Modelled from the spec: [end()] holds when the cursor has reached the
    close of the innermost open container, or the end of the stream. *)
Definition Message_end (m : Message) : bool :=
  match pending_ m with
  | [] => true
  | WClose :: _ => true
  | _ => false
  end.

(** Modelled from the spec: [rewind()] puts the read cursor back to the start
    and leaves the validity flag alone. *)
Definition Message_rewind (m : Message) : Message :=
  {| consumed_ := []; pending_ := consumed_ m ++ pending_ m; ok_ := ok_ m |}.

(** Modelled from the spec: the write operator of a basic kind appends exactly
    one wire value of that kind; it fails only if the message is already
    invalid, and then does nothing. *)
Definition Message_write_basic (m : Message) (p : basic_value) : Message :=
  if Message_bool m then Message_append m [WBasic p] else m.

(** Modelled from the spec: the read operator of a basic kind consumes exactly
    one wire value; it fails, making the message invalid, when the stream
    has ended or the type code of the next item is another one.  On an
    invalid message it does nothing.  The value read is returned apart; the
    typed operators store it into their target. *)
Definition Message_read_basic (m : Message) (k : basic)
  : Message * option basic_value :=
  if Message_bool m then
    match pending_ m with
    | WBasic p :: rest =>
        if decide (kind_of p = k) then (Message_advance m (WBasic p) rest, Some p)
        else (Message_fail m, None)
    | _ => (Message_fail m, None)
    end
  else (m, None).

(** Modelled from the spec: writing a [Container] appends an open marker with
    its kind and content signature. *)
Definition Message_write_Container (m : Message) (c : Container.t) : Message :=
  if Message_bool m then Message_append m [WOpen c] else m.

(** Modelled from the spec: reading a [Container] consumes an open marker and
    checks that kind and content signature are the expected ones; a
    mismatch or a premature end makes the message invalid. *)
Definition Message_read_Container (m : Message) (c : Container.t) : Message :=
  if Message_bool m then
    match pending_ m with
    | WOpen c' :: rest =>
        if decide (c' = c) then Message_advance m (WOpen c') rest
        else Message_fail m
    | _ => Message_fail m
    end
  else m.

(** Modelled from the spec: writing a [ContainerEnd] appends the close marker
    of the innermost open container; with no container open the behaviour is
    undefined. *)
Definition Message_write_ContainerEnd (m : Message) : res Message :=
  if Message_bool m then
    match open_depth 0 (consumed_ m ++ pending_ m) with
    | O => Undefined
    | S _ => Ok (Message_append m [WClose])
    end
  else Ok m.

(** Modelled from the spec: reading a [ContainerEnd] consumes the close marker
    of the innermost open container; the message becomes invalid if the
    cursor is not at that marker; with no container open the behaviour is
    undefined. *)
Definition Message_read_ContainerEnd (m : Message) : res Message :=
  if Message_bool m then
    match open_depth 0 (consumed_ m) with
    | O => Undefined
    | S _ =>
        match pending_ m with
        | WClose :: rest => Ok (Message_advance m WClose rest)
        | _ => Ok (Message_fail m)
        end
    end
  else Ok m.

(** ** The operator templates of [Message], writing side

    The templates call [*this << x] at the type of each element; overload
    resolution picks the operator.  [wr] stands for that call. *)

(** [std::get<i>(t)]: the index is checked at compile time, so the lookup
    never fails in code that compiles. *)
Definition std_get (i : nat) (t : list value) : res value :=
  match t !! i with
  | Some x => Ok x
  | None => Undefined
  end.

Section WriteTemplates.
Variable wr : Message -> value -> res Message.

(** [TupleMarshaller<Tuple, N>::marshall] (lines 279-303), with its
    specialisations for [N = 1] and [N = 0]. *)
Fixpoint TupleMarshaller_marshall (N : nat) (msg : Message) (t : list value)
  : res Message :=
  match N with
  | O => Ok msg
  | S O => x ← std_get 0 t; wr msg x
  | S N' =>
      msg' ← TupleMarshaller_marshall N' msg t;
      x ← std_get N' t;
      wr msg' x
  end.

(** [operator<<(const std::pair<K, V> &)] (lines 363-374). *)
Definition Message_write_pair (m : Message) (a b : value) : res Message :=
  if negb (Message_bool m) then Ok m
  else
    m1 ← wr m a;
    if negb (Message_bool m1) then Ok m1
    else wr m1 b.

(** [operator<<(const std::tuple<Args...> &)] (lines 376-380). *)
Definition Message_write_tuple (m : Message) (t : list value) : res Message :=
  TupleMarshaller_marshall (length t) m t.

(** [operator<<(const DBusStruct<Args...> &)] (lines 382-397). *)
Definition Message_write_DBusStruct (m : Message) (t : list value)
  : res Message :=
  let sig := container_signature (TStruct (map type_of t)) in
  let m1 := Message_write_Container m (Container.mk Container.Struct sig) in
  if Message_bool m1 then
    m2 ← TupleMarshaller_marshall (length t) m1 t;
    if Message_bool m2 then Message_write_ContainerEnd m2 else Ok m2
  else Ok m1.

(** [operator<<(const DictEntry<Key, Value> &)] (lines 399-419). *)
Definition Message_write_DictEntry (m : Message) (key val : value)
  : res Message :=
  let sig := container_signature (TDictEntry (type_of key) (type_of val)) in
  let m1 := Message_write_Container m (Container.mk Container.DictEntry sig) in
  if Message_bool m1 then
    m2 ← wr m1 key;
    if negb (Message_bool m2) then Ok m2
    else
      m3 ← wr m2 val;
      if negb (Message_bool m3) then Ok m3
      else if Message_bool m3 then Message_write_ContainerEnd m3
      else Ok m3
  else Ok m1.

(** The loop [for (auto &v : t) { *this << v; }]. *)
Fixpoint write_each (m : Message) (t : list value) : res Message :=
  match t with
  | [] => Ok m
  | v :: t' => m' ← wr m v; write_each m' t'
  end.

(** [operator<<(const std::vector<T> &)] (lines 421-435). *)
Definition Message_write_vector (m : Message) (T : dtype) (t : list value)
  : res Message :=
  let sig := container_signature (TArray T) in
  let m1 := Message_write_Container m (Container.mk Container.Array sig) in
  if Message_bool m1 then
    m2 ← write_each m1 t;
    Message_write_ContainerEnd m2
  else Ok m1.
End WriteTemplates.

(** ** The operator templates of [Message], reading side

    Reading a [Variant] creates its payload object, so the reading operators
    thread the store along with the message.  [rd] stands for the call
    [*this >> x] at the type of an element; it returns the new contents of
    the target [x]. *)

Definition rstate : Type := Message * heap.

Definition on_message (f : Message -> Message) (s : rstate) : rstate :=
  (f s.1, s.2).

Section ReadTemplates.
Variable rd : rstate -> value -> res (rstate * value).

(** [TupleMarshaller<Tuple, N>::unmarshall] (lines 285-302). *)
Fixpoint TupleMarshaller_unmarshall (N : nat) (s : rstate) (t : list value)
  : res (rstate * list value) :=
  match N with
  | O => Ok (s, t)
  | S O =>
      x ← std_get 0 t;
      '(s1, x') ← rd s x;
      Ok (s1, <[0%nat := x']> t)
  | S N' =>
      '(s1, t1) ← TupleMarshaller_unmarshall N' s t;
      x ← std_get N' t1;
      '(s2, x') ← rd s1 x;
      Ok (s2, <[N' := x']> t1)
  end.

(** [operator>>(std::pair<K, V> &)] (lines 454-465). *)
Definition Message_read_pair (s : rstate) (a b : value)
  : res (rstate * value) :=
  if negb (Message_bool s.1) then Ok (s, VPair a b)
  else
    '(s1, a') ← rd s a;
    if negb (Message_bool s1.1) then Ok (s1, VPair a' b)
    else
      '(s2, b') ← rd s1 b;
      Ok (s2, VPair a' b').

(** [operator>>(std::tuple<Args...> &)] (lines 467-471). *)
Definition Message_read_tuple (s : rstate) (t : list value)
  : res (rstate * value) :=
  '(s1, t1) ← TupleMarshaller_unmarshall (length t) s t;
  Ok (s1, VTuple t1).

(** [operator>>(DBusStruct<Args...> &)] (lines 473-488). *)
Definition Message_read_DBusStruct (s : rstate) (t : list value)
  : res (rstate * value) :=
  let sig := container_signature (TStruct (map type_of t)) in
  let s1 :=
    on_message (fun m => Message_read_Container m
                           (Container.mk Container.Struct sig)) s in
  if Message_bool s1.1 then
    '(s2, t2) ← TupleMarshaller_unmarshall (length t) s1 t;
    if Message_bool s2.1 then
      m3 ← Message_read_ContainerEnd s2.1;
      Ok ((m3, s2.2), VStruct t2)
    else Ok (s2, VStruct t2)
  else Ok (s1, VStruct t).

(** [operator>>(DictEntry<Key, Value> &)] (lines 490-510). *)
Definition Message_read_DictEntry (s : rstate) (key val : value)
  : res (rstate * value) :=
  let sig := container_signature (TDictEntry (type_of key) (type_of val)) in
  let s1 :=
    on_message (fun m => Message_read_Container m
                           (Container.mk Container.DictEntry sig)) s in
  if Message_bool s1.1 then
    '(s2, key') ← rd s1 key;
    if negb (Message_bool s2.1) then Ok (s2, VDictEntry key' val)
    else
      '(s3, val') ← rd s2 val;
      if negb (Message_bool s3.1) then Ok (s3, VDictEntry key' val')
      else if Message_bool s3.1 then
        m4 ← Message_read_ContainerEnd s3.1;
        Ok ((m4, s3.2), VDictEntry key' val')
      else Ok (s3, VDictEntry key' val')
  else Ok (s1, VDictEntry key val).

(** The loop [while (!end() && *this >> temp) { t.push_back(temp); }] of
    the vector operator.  [temp] is declared once, before the loop, and is
    read into again at every round.  [n] bounds the number of rounds. *)
Fixpoint read_while (n : nat) (s : rstate) (temp : value) (t : list value)
  : res (rstate * list value) :=
  match n with
  | O => OutOfFuel
  | S n' =>
      if negb (Message_end s.1) then
        '(s1, temp1) ← rd s temp;
        if Message_bool s1.1 then read_while n' s1 temp1 (t ++ [temp1])
        else Ok (s1, t)
      else Ok (s, t)
  end.

(** [operator>>(std::vector<T> &)] (lines 512-527).  The elements read are
    pushed onto [t] as it stands; the operator does not clear it. *)
Definition Message_read_vector (n : nat) (s : rstate) (T : dtype)
    (t : list value) : res (rstate * value) :=
  let sig := container_signature (TArray T) in
  let s1 :=
    on_message (fun m => Message_read_Container m
                           (Container.mk Container.Array sig)) s in
  if Message_bool s1.1 then
    '(s2, t2) ← read_while n s1 (default_value T) t;
    m3 ← Message_read_ContainerEnd s2.1;
    Ok ((m3, s2.2), VArray T t2)
  else Ok (s1, VArray T t).
End ReadTemplates.

(** ** VariantHelper: the operations table of a payload type *)

(** [static_cast<Value *>(p)] followed by [*p]: the object at [p], which has
    to be a [Value]. *)
Definition deref (T : dtype) (h : heap) (l : loc) : res value :=
  match h !! l with
  | Some v => if decide (type_of v = T) then Ok v else Undefined
  | None => Undefined
  end.

Section VariantHelper.
(** The copy constructor of [Value], [msg << x], [msg >> x] and
    [builder << x] at the type [Value]. *)
Variable cp : heap -> value -> res (heap * value).
Variable wr : Message -> value -> res Message.
Variable rd : rstate -> value -> res (rstate * value).
Variable pr : value -> res string.

(** [VariantHelper<Value>::copy] with a null source (line 91):
    [std::make_shared<Value>()]. *)
Definition VariantHelper_copy_null (T : dtype) (h : heap) : heap * loc :=
  make_shared h (default_value T).

(** [VariantHelper<Value>::copy] (lines 86-92). *)
Definition VariantHelper_copy (T : dtype) (h : heap) (src : option loc)
  : res (heap * loc) :=
  match src with
  | Some l =>
      s ← deref T h l;
      '(h1, s') ← cp h s;
      Ok (make_shared h1 s')
  | None => Ok (VariantHelper_copy_null T h)
  end.

(** [VariantHelper<Value>::serialize] (lines 93-96). *)
Definition VariantHelper_serialize (T : dtype) (h : heap) (msg : Message)
    (data : option loc) : res Message :=
  match data with
  | Some l => s ← deref T h l; wr msg s
  | None => Undefined
  end.

(** [VariantHelper<Value>::deserialize] (lines 97-100): reads into the
    object [data] points to. *)
Definition VariantHelper_deserialize (T : dtype) (st : rstate)
    (data : option loc) : res rstate :=
  match data with
  | Some l =>
      s ← deref T st.2 l;
      '(st1, s') ← rd st s;
      Ok (st1.1, <[l := s']> st1.2)
  | None => Undefined
  end.

(** [VariantHelper<Value>::print] (lines 101-104); the result is the text
    appended to the builder. *)
Definition VariantHelper_print (T : dtype) (h : heap) (data : option loc)
  : res string :=
  match data with
  | Some l => s ← deref T h l; pr s
  | None => Undefined
  end.

(** [VariantHelper<Value>::signature] (lines 105-107). *)
Definition VariantHelper_signature (T : dtype) : string := signature T.

(** ** Variant *)

(** [Variant(const Variant &v)] (lines 147-151). *)
Definition Variant_copy (h : heap) (v : Variant) : res (heap * Variant) :=
  match helper_ v with
  | Some T =>
      '(h1, l) ← VariantHelper_copy T h (data_ v);
      Ok (h1, {| signature_ := signature_ v;
                 data_ := Some l;
                 helper_ := Some T |})
  | None =>
      Ok (h, {| signature_ := signature_ v;
                data_ := None;
                helper_ := None |})
  end.

(** [Variant &operator=(const Variant &v)] (lines 154-161), assigning to
    [self]. *)
Definition Variant_assign (h : heap) (self v : Variant)
  : res (heap * Variant) :=
  match helper_ v with
  | Some T =>
      '(h1, l) ← VariantHelper_copy T h (data_ v);
      Ok (h1, {| signature_ := signature_ v;
                 data_ := Some l;
                 helper_ := Some T |})
  | None =>
      Ok (h, {| signature_ := signature_ v;
                data_ := data_ self;
                helper_ := None |})
  end.


(** [Variant::setData(Value &&value)] (lines 534-540).  [by_copy] tells
    whether [value] was passed as an lvalue, and so is copied into the
    new payload object, or as an rvalue, and so is moved there. *)
Definition Variant_setData (by_copy : bool) (h : heap) (val : value)
  : res (heap * Variant) :=
  '(h1, val') ← (if by_copy then cp h val else Ok (h, val));
  let '(h2, l) := make_shared h1 val' in
  Ok (h2, {| signature_ := signature (type_of val);
             data_ := Some l;
             helper_ := Some (type_of val) |}).

(** [Variant::setRawData] (lines 176-183). *)
Definition Variant_setRawData (self : Variant) (data : option loc)
    (helper : option dtype) : Variant :=
  {| signature_ :=
       match helper with
       | Some T => VariantHelper_signature T
       | None => signature_ self
       end;
     data_ := data;
     helper_ := helper |}.

(** [Variant::dataAs<Value>] (lines 185-189). *)
Definition Variant_dataAs (T : dtype) (h : heap) (v : Variant) : res value :=
  if decide (signature_ v = signature T) then
    match data_ v with
    | Some l => deref T h l
    | None => Undefined
    end
  else Undefined.

(** [Variant::printData] (lines 195-199). *)
Definition Variant_printData (h : heap) (v : Variant) : res string :=
  match helper_ v with
  | Some T => VariantHelper_print T h (data_ v)
  | None => Ok ""
  end.

(** [operator<<(LogMessageBuilder &, const Variant &)] (lines 568-574). *)
Definition log_Variant (h : heap) (var : Variant) : res string :=
  content ← Variant_printData h var;
  Ok ("Variant(sig=" +:+ signature_ var +:+ ", content=" +:+ content +:+ ")").

(** Modelled from the spec: [Variant::writeToMessage] is declared at line
    191 and defined elsewhere.  Serialization delegates to the bound
    operations table, and does nothing for an empty [Variant]. *)
Definition Variant_writeToMessage (h : heap) (msg : Message) (v : Variant)
  : res Message :=
  match helper_ v with
  | Some T => VariantHelper_serialize T h msg (data_ v)
  | None => Ok msg
  end.

(** Modelled from the spec: [Message::operator<<(const Variant &)] is
    declared at line 361.  It writes the signature of the payload as a
    signature value and then delegates to the encode capability of the
    operations table. *)
Definition Message_write_Variant (h : heap) (m : Message) (v : Variant)
  : res Message :=
  if negb (Message_bool m) then Ok m
  else
    let m1 := Message_write_basic m (BSignature (signature_ v)) in
    Variant_writeToMessage h m1 v.
End VariantHelper.

(** ** The type registry *)

(** Modelled from the spec: [VariantTypeRegistry] keeps its table behind
    [VariantTypeRegistryPrivate], which is not in the header; the table maps
    a signature to the operations table registered for it. *)
Abbreviation VariantTypeRegistry := (gmap string dtype) (only parsing).

(** Modelled from the spec: [registerTypeImpl] (declared at line 132) stores
    the operations table under the signature. *)
Definition registerTypeImpl (sig : string) (helper : dtype)
    (reg : VariantTypeRegistry) : VariantTypeRegistry :=
  <[sig := helper]> reg.

(** Modelled from the spec: [lookupType] (declared at line 128) returns the
    table registered for the signature, or an empty result. *)
Definition lookupType (reg : VariantTypeRegistry) (sig : string)
  : option dtype :=
  reg !! sig.

Section registerType.
(** The macro [FCITX_STRING_TO_DBUS_TYPE], which gives the type a
    signature string stands for, comes from a header that message.h only
    includes.  It is a parameter. *)
Variable string_to_dbus_type : string -> dtype.

(** [VariantTypeRegistry::registerType<TypeName>] (lines 117-126).  The
    [static_assert] rejects the instantiation at compile time: [None]. *)
Definition registerType (T : dtype) (reg : VariantTypeRegistry)
  : option VariantTypeRegistry :=
  if decide (T = string_to_dbus_type (signature T)) then
    Some (registerTypeImpl (signature T) T reg)
  else None.
End registerType.

(** Every table of the registry sits under its own signature. *)
Definition registry_wf (reg : VariantTypeRegistry) : Prop :=
  forall sig T, reg !! sig = Some T -> signature T = sig.

(** Modelled from the spec: [Message::operator>>(Variant &)] is declared at
    line 452.  It reads a signature value and looks the signature up in the
    registry.  Without a table the decode fails.  With a table it delegates
    to the decode capability, which reads into a payload object made by
    [copy] with a null source, and stores payload and table into the target
    with [setRawData]. *)
Definition Message_read_Variant (rd : rstate -> value -> res (rstate * value))
    (reg : VariantTypeRegistry) (s : rstate) (target : Variant)
  : res (rstate * Variant) :=
  if negb (Message_bool s.1) then Ok (s, target)
  else
    match Message_read_basic s.1 KSignature with
    | (m1, Some (BSignature sig)) =>
        match lookupType reg sig with
        | Some T =>
            let '(h1, l) := VariantHelper_copy_null T s.2 in
            s2 ← VariantHelper_deserialize rd T (m1, h1) (Some l);
            Ok (s2, Variant_setRawData target (Some l) (Some T))
        | None => Ok ((Message_fail m1, s.2), target)
        end
    | (m1, _) => Ok ((m1, s.2), target)
    end.

(** ** Formatting for the log *)

(** [LogMessageBuilder] comes from [log.h], which message.h only includes.
    Its operators for [uint8_t], [bool], [double] and [UnixFD], for
    [std::vector] and for [std::tuple] and [std::pair] are parameters: how
    they render a scalar, and how they frame the rendered elements. *)
Record LogStyle : Type := mkLogStyle {
  log_scalar : basic_value -> string;
  log_vector : list string -> string;
  log_tuple : list string -> string;
}.

(** Modelled from the spec: the operators of [LogMessageBuilder] for the
    integers of 16 bits and more and for strings are in [log.h]; an integer
    is appended as its decimal digits and a string as it is, as in the
    display [Variant(sig=u, content=7)]. *)
Definition log_integer (i : Z) : string := pretty i.

Definition log_string (s : string) : string := s.

(** What [builder << x] appends for a basic value.  [Signature] and
    [ObjectPath] have their operators at lines 556-566. *)
Definition log_basic_value (style : LogStyle) (p : basic_value) : string :=
  match p with
  | BInt16 i | BUInt16 i | BInt32 i | BUInt32 i | BInt64 i | BUInt64 i =>
      log_integer i
  | BString s => log_string s
  | BSignature sig =>
      log_string "Signature(" +:+ log_string sig +:+ log_string ")"
  | BObjectPath path =>
      log_string "ObjectPath(" +:+ log_string path +:+ log_string ")"
  | BUInt8 _ | BBool _ | BDouble _ | BUnixFD _ => log_scalar style p
  end.

(** [builder << x] at every type: the operators of lines 542-574 for
    [DictEntry], [DBusStruct] (which prints its tuple) and [Variant]. *)
Fixpoint log_value (fuel : nat) (style : LogStyle) (h : heap) (v : value)
  : res string :=
  match fuel with
  | O => OutOfFuel
  | S f =>
      match v with
      | VBasic p => Ok (log_basic_value style p)
      | VVariant var => log_Variant (log_value f style h) h var
      | VArray _ xs =>
          ss ← mapM (log_value f style h) xs; Ok (log_vector style ss)
      | VStruct fs | VTuple fs =>
          ss ← mapM (log_value f style h) fs; Ok (log_tuple style ss)
      | VPair a b =>
          sa ← log_value f style h a;
          sb ← log_value f style h b;
          Ok (log_tuple style [sa; sb])
      | VDictEntry k v =>
          sk ← log_value f style h k;
          sv ← log_value f style h v;
          Ok ("(" +:+ sk +:+ ", " +:+ sv +:+ ")")
      end
  end.

(** ** The operators at every type *)

(** The member-wise copy of the elements of a container, in order. *)
Fixpoint copy_each (cp : heap -> value -> res (heap * value)) (h : heap)
    (xs : list value) : res (heap * list value) :=
  match xs with
  | [] => Ok (h, [])
  | x :: xs' =>
      '(h1, x') ← cp h x;
      '(h2, xs'') ← copy_each cp h1 xs';
      Ok (h2, x' :: xs'')
  end.

(** The copy constructor of a value: that of [Variant] for a variant, the
    implicit member-wise one for the standard containers, [DBusStruct] (line
    57) and [DictEntry] (line 211). *)
Fixpoint copy_value (fuel : nat) (h : heap) (v : value)
  : res (heap * value) :=
  match fuel with
  | O => OutOfFuel
  | S f =>
      match v with
      | VBasic p => Ok (h, VBasic p)
      | VVariant var =>
          '(h1, var') ← Variant_copy (copy_value f) h var;
          Ok (h1, VVariant var')
      | VArray T xs =>
          '(h1, xs') ← copy_each (copy_value f) h xs; Ok (h1, VArray T xs')
      | VStruct fs =>
          '(h1, fs') ← copy_each (copy_value f) h fs; Ok (h1, VStruct fs')
      | VTuple fs =>
          '(h1, fs') ← copy_each (copy_value f) h fs; Ok (h1, VTuple fs')
      | VDictEntry k v =>
          '(h1, k') ← copy_value f h k;
          '(h2, v') ← copy_value f h1 v;
          Ok (h2, VDictEntry k' v')
      | VPair a b =>
          '(h1, a') ← copy_value f h a;
          '(h2, b') ← copy_value f h1 b;
          Ok (h2, VPair a' b')
      end
  end.

(** [msg << v], resolved by the type of [v]. *)
Fixpoint write (fuel : nat) (h : heap) (m : Message) (v : value)
  : res Message :=
  match fuel with
  | O => OutOfFuel
  | S f =>
      match v with
      | VBasic p => Ok (Message_write_basic m p)
      | VVariant var => Message_write_Variant (write f h) h m var
      | VArray T xs => Message_write_vector (write f h) m T xs
      | VStruct fs => Message_write_DBusStruct (write f h) m fs
      | VDictEntry k v => Message_write_DictEntry (write f h) m k v
      | VPair a b => Message_write_pair (write f h) m a b
      | VTuple fs => Message_write_tuple (write f h) m fs
      end
  end.

(** Modelled from the spec: the read operator of a basic kind stores the value
    it consumed into its target and leaves the target alone when it fails. *)
Definition Message_read_basic_into (s : rstate) (target : basic_value)
  : rstate * value :=
  match Message_read_basic s.1 (kind_of target) with
  | (m1, Some p) => ((m1, s.2), VBasic p)
  | (m1, None) => ((m1, s.2), VBasic target)
  end.

(** [msg >> v], resolved by the type of the target [v]; the result carries
    the new contents of the target. *)
Fixpoint read (fuel : nat) (reg : VariantTypeRegistry) (s : rstate) (v : value)
  : res (rstate * value) :=
  match fuel with
  | O => OutOfFuel
  | S f =>
      match v with
      | VBasic p => Ok (Message_read_basic_into s p)
      | VVariant var =>
          '(s1, var') ← Message_read_Variant (read f reg) reg s var;
          Ok (s1, VVariant var')
      | VArray T xs => Message_read_vector (read f reg) f s T xs
      | VStruct fs => Message_read_DBusStruct (read f reg) s fs
      | VDictEntry k v => Message_read_DictEntry (read f reg) s k v
      | VPair a b => Message_read_pair (read f reg) s a b
      | VTuple fs => Message_read_tuple (read f reg) s fs
      end
  end.

(** The items a value puts on the wire: what writing it into a new message
    leaves there. *)
Definition encode (fuel : nat) (h : heap) (v : value) : res (list wire) :=
  m ← write fuel h Message_new v; Ok (pending_ m).


(** Modelled from the spec: [Message::signature()] (declared at line 326) is
    the signature of the values at the top level of the stream; what a
    container brackets is covered by the content signature of its open
    marker, written after the code of the container kind. *)
Definition container_code (c : Container.t) : string :=
  match Container.type c with
  | Container.Array => "a" +:+ Container.content c
  | Container.Struct => "(" +:+ Container.content c +:+ ")"
  | Container.DictEntry => "{" +:+ Container.content c +:+ "}"
  | Container.Variant => "v"
  end.

(** Modelled from the spec: the signature of a stream, [d] containers being
    open at its start. *)
Fixpoint stream_signature (d : nat) (ws : list wire) : string :=
  match ws with
  | [] => ""
  | WBasic p :: ws' =>
      match d with
      | O => basic_code (kind_of p) +:+ stream_signature d ws'
      | S _ => stream_signature d ws'
      end
  | WOpen c :: ws' =>
      match d with
      | O => container_code c +:+ stream_signature (S d) ws'
      | S _ => stream_signature (S d) ws'
      end
  | WClose :: ws' => stream_signature (pred d) ws'
  end.

(** Modelled from the spec: [Message::signature()], over the whole stream. *)
Definition Message_signature (m : Message) : string :=
  stream_signature 0 (consumed_ m ++ pending_ m).

(** ** Notions the properties are stated with *)

(** The nesting height of a value: the number of operator calls stacked on
    one another when it is traversed without following a payload pointer. *)
Fixpoint vheight (v : value) : nat :=
  match v with
  | VBasic _ | VVariant _ => 1
  | VArray _ xs => S (foldr Nat.max 0%nat (map vheight xs))
  | VStruct fs | VTuple fs => S (foldr Nat.max 0%nat (map vheight fs))
  | VDictEntry k v | VPair k v => S (Nat.max (vheight k) (vheight v))
  end.

(** A stream segment that closes every container it opens and no other. *)
Definition balanced (ws : list wire) : Prop :=
  forall d, open_depth d ws = d.

(** The rounds of the vector loop that push an element: starting at [s]
    with [temp], the elements [vs] are read one after the other, each round
    finding the end-of-container test false and its read successful, and
    the cursor is at [s_end] after the last one. *)
Fixpoint reads_elements (rd : rstate -> value -> res (rstate * value))
    (s : rstate) (temp : value) (vs : list value) (s_end : rstate) : Prop :=
  match vs with
  | [] => s_end = s
  | v :: vs' =>
      Message_end s.1 = false
      /\ exists s1, rd s temp = Ok (s1, v)
           /\ Message_bool s1.1 = true
           /\ reads_elements rd s1 v vs' s_end
  end.

(** Reading the fields [fs] one after the other, first to last, gives the
    fields [fs'] and leaves the cursor at [s_end]. *)
Fixpoint reads_fields (rd : rstate -> value -> res (rstate * value))
    (s : rstate) (fs fs' : list value) (s_end : rstate) : Prop :=
  match fs, fs' with
  | [], [] => s_end = s
  | x :: fs0, x' :: fs0' =>
      exists s1, rd s x = Ok (s1, x') /\ reads_fields rd s1 fs0 fs0' s_end
  | _, _ => False
  end.

(** A [Variant] inside a value can be copied in the store [h]: if it has a
    helper and a payload, the payload is an object of the helper's type, at
    an address whose rank is below [bound]. *)
Definition variant_okb (rank : nat -> nat) (bound : nat) (h : heap)
    (v : Variant) : bool :=
  match helper_ v, data_ v with
  | Some T, Some l =>
      bool_decide (rank l < bound)%nat
      && match h !! l with
         | Some pv => bool_decide (type_of pv = T)
         | None => false
         end
  | _, _ => true
  end.

Fixpoint value_okb (rank : nat -> nat) (bound : nat) (h : heap) (v : value)
  : bool :=
  match v with
  | VBasic _ => true
  | VVariant var => variant_okb rank bound h var
  | VArray _ xs => forallb (value_okb rank bound h) xs
  | VStruct fs | VTuple fs => forallb (value_okb rank bound h) fs
  | VDictEntry k v | VPair k v =>
      value_okb rank bound h k && value_okb rank bound h v
  end.

(** The store is well formed: the variants inside the object at an address
    point to objects of lower rank, so no object reaches itself.  Any
    ranking of the addresses will do; in a store filled by copies alone the
    address itself is one. *)
Fixpoint heap_okb_from (rank : nat -> nat) (l : nat) (h : heap)
    (cells : list value) : bool :=
  match cells with
  | [] => true
  | pv :: cells' =>
      value_okb rank (rank l) h pv && heap_okb_from rank (S l) h cells'
  end.

Definition heap_okb (rank : nat -> nat) (h : heap) : bool :=
  heap_okb_from rank 0 h h.

(** The addresses held by the variants inside a value. *)
Fixpoint pointers (v : value) : list loc :=
  match v with
  | VBasic _ => []
  | VVariant var => match data_ var with Some l => [l] | None => [] end
  | VArray _ xs => concat (map pointers xs)
  | VStruct fs | VTuple fs => concat (map pointers fs)
  | VDictEntry k v | VPair k v => pointers k ++ pointers v
  end.

(** The invariant of [Variant] as the claim words it: the payload, if there
    is one, is an object whose type has the stored signature. *)
Definition payload_matches (h : heap) (v : Variant) : Prop :=
  match data_ v with
  | Some l => exists pv, h !! l = Some pv /\ signature (type_of pv) = signature_ v
  | None => True
  end.

(** The invariant the code keeps: with a helper bound, the signature is the
    helper's and the payload, if there is one, is an object of the helper's
    type; with no helper there is no payload. *)
Definition Variant_consistent (h : heap) (v : Variant) : Prop :=
  match helper_ v with
  | Some T =>
      signature_ v = signature T
      /\ match data_ v with
         | Some l => exists pv, h !! l = Some pv /\ type_of pv = T
         | None => True
         end
  | None => data_ v = None
  end.

(** Writing [x] with [wr] appends the items [t], whatever valid message it
    is written to, and [t] closes every container it opens. *)
Definition writes_as (wr : Message -> value -> res Message) (x : value)
    (t : list wire) : Prop :=
  balanced t
  /\ forall m, Message_bool m = true -> wr m x = Ok (Message_append m t).

(** Whenever [wr] writes a value into a valid message, it writes the same
    items into every valid message. *)
Definition uniform (wr : Message -> value -> res Message) : Prop :=
  forall x m m', Message_bool m = true -> wr m x = Ok m' ->
    exists t, writes_as wr x t.

(** A successful [rd] keeps the number of open containers before the cursor,
    and a message that is valid after it was valid before. *)
Definition keeps_depth (rd : rstate -> value -> res (rstate * value)) : Prop :=
  forall s x s' x', rd s x = Ok (s', x') -> Message_bool s'.1 = true ->
    Message_bool s.1 = true
    /\ open_depth 0 (consumed_ s'.1) = open_depth 0 (consumed_ s.1).

(** [rd] leaves the payload objects that were in the store where they are;
    what it adds comes behind them. *)
Definition grows (rd : rstate -> value -> res (rstate * value)) : Prop :=
  forall s x s' x', rd s x = Ok (s', x') -> s.2 `prefix_of` s'.2.

(** No variant inside the value points below the address [n]. *)
Definition fresh_from (n : nat) (v : value) : Prop :=
  Forall (fun l => (n <= l)%nat) (pointers v).


(** What value-initialisation ([Value()], as in [make_shared<Value>()])
    leaves in an object, read off the object alone: zero in a number,
    [false] in a boolean, no character in a string, an object path or a
    signature (lines 242 and 252), no element in a vector, a [Variant] as
    its defaulted constructor leaves it (line 141: empty signature, null
    payload, no helper), and the same in every member of a struct, a dict
    entry, a pair or a tuple (lines 46 and 210).  The handle of a
    default-constructed [UnixFD] is the one numbered zero, as in
    [default_basic]. *)
Definition basic_initialized (p : basic_value) : bool :=
  match p with
  | BUInt8 i | BInt16 i | BUInt16 i | BInt32 i | BUInt32 i | BInt64 i
  | BUInt64 i | BDouble i | BUnixFD i => bool_decide (i = 0)
  | BBool b => negb b
  | BString s | BObjectPath s | BSignature s => bool_decide (s = "")
  end.

Fixpoint value_initialized (v : value) : bool :=
  match v with
  | VBasic p => basic_initialized p
  | VVariant var =>
      bool_decide (signature_ var = "")
      && match data_ var, helper_ var with
         | None, None => true
         | _, _ => false
         end
  | VArray _ xs => match xs with [] => true | _ :: _ => false end
  | VStruct fs | VTuple fs => forallb value_initialized fs
  | VDictEntry k v | VPair k v => value_initialized k && value_initialized v
  end.

(** What a copy constructor has to deliver: the objects of the store stay
    where they are, the copy has the type of the original, points only to
    objects made during the copy, and so do those objects. *)
Definition copies_deeply (cp : heap -> value -> res (heap * value)) : Prop :=
  forall h v h' v', cp h v = Ok (h', v') ->
    h `prefix_of` h'
    /\ type_of v' = type_of v
    /\ fresh_from (length h) v'
    /\ (forall a cell, h' !! a = Some cell -> (length h <= a)%nat ->
          fresh_from (length h) cell).




(** Enough fuel copies the value, in the store [h] and in every store that
    [h] has grown into. *)
Definition copyable (h : heap) (v : value) : Prop :=
  exists f0, forall f, (f0 <= f)%nat -> forall hc, h `prefix_of` hc ->
    exists h' v', copy_value f hc v = Ok (h', v').


(** ** Notions for the properties of the templates as a whole *)

(** A pair seen as the tuple of its two components. *)
Definition pair_as_tuple (v : value) : value :=
  match v with
  | VPair a b => VTuple [a; b]
  | _ => v
  end.

(** The message [m'] is [m] with the read cursor moved over the items [t];
    the stream itself is the same. *)
Definition advances_by (m m' : Message) (t : list wire) : Prop :=
  consumed_ m' = consumed_ m ++ t /\ pending_ m = t ++ pending_ m'.

Definition advances (m m' : Message) : Prop :=
  exists t, advances_by m m' t.

(** Whatever [rd] does to the message, it only moves the cursor forward. *)
Definition only_advances (rd : rstate -> value -> res (rstate * value))
  : Prop :=
  forall s x s' x', rd s x = Ok (s', x') -> advances s.1 s'.1.

(** The value holds no vector and no variant, at any depth: its type fixes
    how many items it puts on the wire. *)
Fixpoint fixed_shape (v : value) : bool :=
  match v with
  | VBasic _ => true
  | VVariant _ | VArray _ _ => false
  | VStruct fs | VTuple fs => forallb fixed_shape fs
  | VDictEntry k v | VPair k v => fixed_shape k && fixed_shape v
  end.

(** The value puts at least one item on the wire.  A bare tuple or pair has
    no marker of its own, so one without fields, or with fields that write
    nothing, leaves no trace in the stream. *)
Fixpoint has_items (v : value) : bool :=
  match v with
  | VBasic _ | VVariant _ | VArray _ _ | VStruct _ | VDictEntry _ _ => true
  | VPair a b => has_items a || has_items b
  | VTuple fs => existsb has_items fs
  end.

(** What can stand as an element of a vector of [T] and be read back: a
    value of type [T] that is of fixed shape and writes at least one
    item. *)
Definition flat_element (T : dtype) (x : value) : bool :=
  fixed_shape x && has_items x && bool_decide (type_of x = T).

(** The value holds no variant, and the elements of every vector in it are
    flat elements of its element type. *)
Fixpoint vectors_flat (v : value) : bool :=
  match v with
  | VBasic _ => true
  | VVariant _ => false
  | VArray T xs => forallb (flat_element T) xs
  | VStruct fs | VTuple fs => forallb vectors_flat fs
  | VDictEntry k v | VPair k v => vectors_flat k && vectors_flat v
  end.

(** The items [tk] are read back as [x] into the target [tg]: started in a
    valid message with the cursor right before [tk], whatever comes before
    and behind, and in the store [hs], the read [rd] ends with the cursor
    right behind [tk], the message valid, the store as it was, and [x] in
    the target. *)
Definition reads_back (rd : rstate -> value -> res (rstate * value))
    (hs : heap) (tg : value) (tk : list wire) (x : value) : Prop :=
  forall cons rest,
    rd (mkMessage cons (tk ++ rest) true, hs) tg
    = Ok ((mkMessage (cons ++ tk) rest true, hs), x).

(** The items [toks] are the wire form of the fixed-shape value [v]: with
    enough fuel [v] is written as [toks] and [toks] are read back as [v]
    into any target of the type of [v].  The items do not start with a
    close marker, and there is at least one if [v] has items. *)
Definition wire_of_fixed (v : value) (toks : list wire) : Prop :=
  head toks <> Some WClose
  /\ (has_items v = true -> toks <> [])
  /\ forall f, (vheight v <= f)%nat ->
       (forall h, writes_as (write f h) v toks)
       /\ (forall reg hs tg, type_of tg = type_of v ->
             reads_back (read f reg) hs tg toks v).

(** Fuel that is enough to read a value back: its nesting height, and for
    every vector one round of the loop per element and one to find the
    end. *)
Fixpoint read_fuel (v : value) : nat :=
  match v with
  | VBasic _ | VVariant _ => 1
  | VArray _ xs =>
      S (Nat.max (S (length xs)) (foldr Nat.max 0%nat (map read_fuel xs)))
  | VStruct fs | VTuple fs => S (foldr Nat.max 0%nat (map read_fuel fs))
  | VDictEntry k v | VPair k v => S (Nat.max (read_fuel k) (read_fuel v))
  end.

(** The items [toks] are the wire form of the value [v], whose vectors are
    flat: with enough fuel [v] is written as [toks] and [toks] are read
    back as [v] into a default-constructed target. *)
Definition wire_of_flat (v : value) (toks : list wire) : Prop :=
  forall f, (read_fuel v <= f)%nat ->
    (forall h, writes_as (write f h) v toks)
    /\ (forall reg hs,
          reads_back (read f reg) hs (default_value (type_of v)) toks v).

(** What a copy constructor also delivers: the variants inside the copy, and
    inside every object made during the copy, point to objects of the type
    of their helper that were made earlier during the copy. *)
Definition copies_in_order (cp : heap -> value -> res (heap * value))
  : Prop :=
  forall h v h' v', cp h v = Ok (h', v') ->
    value_okb (fun a => a) (length h') h' v' = true
    /\ (forall a cell, h' !! a = Some cell -> (length h <= a)%nat ->
          value_okb (fun a => a) a h' cell = true).

(** The nesting height of a type. *)
Fixpoint theight (T : dtype) : nat :=
  match T with
  | TBasic _ | TVariant => 1
  | TArray e => S (theight e)
  | TStruct fs | TTuple fs => S (foldr Nat.max 0%nat (map theight fs))
  | TDictEntry k v | TPair k v => S (Nat.max (theight k) (theight v))
  end.

(** A value of the type puts at least one item on the wire: the type is not
    a bare tuple or pair of nothing. *)
Fixpoint titems (T : dtype) : bool :=
  match T with
  | TBasic _ | TVariant | TArray _ | TStruct _ | TDictEntry _ _ => true
  | TPair a b => titems a || titems b
  | TTuple fs => existsb titems fs
  end.

(** Every vector type inside the type has elements that put at least one
    item on the wire, so that every successful round of the loop of the
    vector operator moves the cursor. *)
Fixpoint loops_end (T : dtype) : bool :=
  match T with
  | TBasic _ | TVariant => true
  | TArray e => titems e && loops_end e
  | TStruct fs | TTuple fs => forallb loops_end fs
  | TDictEntry k v | TPair k v => loops_end k && loops_end v
  end.

(** Two facts about a read [rd] that returns: the target keeps its type,
    and if the message is valid afterwards and the type of the target has
    items, fewer items are pending than before. *)
Definition read_facts (rd : rstate -> value -> res (rstate * value)) : Prop :=
  forall s x s' x', rd s x = Ok (s', x') ->
    type_of x' = type_of x
    /\ (Message_bool s'.1 = true -> titems (type_of x) = true ->
        (length (pending_ s'.1) < length (pending_ s.1))%nat).

(** Fuel that is enough to read into a target of type [T] when [n] items
    are pending and no registered type is higher than [H]. *)
Definition enough_fuel (H n : nat) (T : dtype) : nat :=
  (S n * (H + 2) + theight T)%nat.

(** The registry holds types of height at most [H] whose vector loops
    end. *)
Definition registry_bounded (reg : VariantTypeRegistry) (H : nat) : Prop :=
  forall sig T, reg !! sig = Some T ->
    (theight T <= H)%nat /\ loops_end T = true.

(** No variant inside the value has a helper bound and a null payload. *)
Fixpoint has_payloads (v : value) : bool :=
  match v with
  | VBasic _ => true
  | VVariant var =>
      match helper_ var, data_ var with
      | Some _, None => false
      | _, _ => true
      end
  | VArray _ xs => forallb has_payloads xs
  | VStruct fs | VTuple fs => forallb has_payloads fs
  | VDictEntry k v | VPair k v => has_payloads k && has_payloads v
  end.

(** What a copy constructor delivers besides: no variant in the copy, nor
    in an object made during the copy, has a helper bound and a null
    payload. *)
Definition copies_payloads (cp : heap -> value -> res (heap * value)) : Prop :=
  forall h v h' v', cp h v = Ok (h', v') ->
    has_payloads v' = true
    /\ (forall a cell, h' !! a = Some cell -> (length h <= a)%nat ->
          has_payloads cell = true).

(** A variant that has a helper bound and a null payload is met when the
    value is walked the way [operator<<] and the log operator walk it:
    through the elements and fields of the containers, and from a variant
    to the payload object its helper is handed (lines 93-96 and
    101-104). *)
Inductive lacks_payload (h : heap) : value -> Prop :=
| lacks_here (var : Variant) (T : dtype) :
    helper_ var = Some T -> data_ var = None ->
    lacks_payload h (VVariant var)
| lacks_behind (var : Variant) (T : dtype) (l : loc) (pv : value) :
    helper_ var = Some T -> data_ var = Some l -> h !! l = Some pv ->
    lacks_payload h pv -> lacks_payload h (VVariant var)
| lacks_element (T : dtype) (xs : list value) (x : value) :
    x ∈ xs -> lacks_payload h x -> lacks_payload h (VArray T xs)
| lacks_struct_field (fs : list value) (x : value) :
    x ∈ fs -> lacks_payload h x -> lacks_payload h (VStruct fs)
| lacks_tuple_field (fs : list value) (x : value) :
    x ∈ fs -> lacks_payload h x -> lacks_payload h (VTuple fs)
| lacks_key (k v : value) :
    lacks_payload h k -> lacks_payload h (VDictEntry k v)
| lacks_value (k v : value) :
    lacks_payload h v -> lacks_payload h (VDictEntry k v)
| lacks_first (a b : value) :
    lacks_payload h a -> lacks_payload h (VPair a b)
| lacks_second (a b : value) :
    lacks_payload h b -> lacks_payload h (VPair a b).

(** Enough fuel writes the value, as the same items into every valid
    message, and displays it. *)
Definition presentable (h : heap) (style : LogStyle) (v : value) : Prop :=
  exists f0, forall f, (f0 <= f)%nat ->
    (exists t, writes_as (write f h) v t)
    /\ (exists s, log_value f style h v = Ok s).

(** The ranking of a store that a read has grown from [n0] objects to at
    most [B]: the objects that were there keep their rank; an object made
    by the read ranks the higher the earlier it was made, since a payload
    object is made before the payloads of the variants it holds. *)
Definition rank_after (rank : nat -> nat) (n0 B : nat) (a : nat) : nat :=
  if decide (a < n0)%nat then rank a else (B - a)%nat.

(** The objects of the store at the addresses from [lo] on are well formed
    and miss no payload. *)
Definition new_cells_ok (rk : nat -> nat) (lo : nat) (h : heap) : Prop :=
  forall a cell, h !! a = Some cell -> (lo <= a)%nat ->
    value_okb rk (rk a) h cell = true /\ has_payloads cell = true.

(** What a read that takes the store from [h] to [h'] and the target from
    [x] to [x'] has to deliver, the store having at most [B] objects:
    the target stays well formed, below the old bound or the rank of what
    the read made; it misses no payload if it missed none before; and the
    objects the read made are well formed. *)
Definition ranked_step (rk : nat -> nat) (B : nat) (h : heap) (x : value)
    (h' : heap) (x' : value) : Prop :=
  (forall b, value_okb rk b h x = true ->
     value_okb rk (Nat.max b (S (B - length h))) h' x' = true)
  /\ (has_payloads x = true -> has_payloads x' = true)
  /\ new_cells_ok rk (length h) h'.

Definition decodes_in_order (rk : nat -> nat) (n0 B : nat)
    (rd : rstate -> value -> res (rstate * value)) : Prop :=
  forall s x s' x', rd s x = Ok (s', x') ->
    (n0 <= length s.2)%nat -> (length s'.2 <= B)%nat ->
    ranked_step rk B s.2 x s'.2 x'.

(** The running concatenations of a list of lists, starting from [acc]:
    [acc ++ l1], [acc ++ l1 ++ l2], and so on. *)
Fixpoint accumulate {A : Type} (acc : list A) (ls : list (list A))
  : list (list A) :=
  match ls with
  | [] => []
  | l :: ls' => (acc ++ l) :: accumulate (acc ++ l) ls'
  end.

(** * Properties *)

(** ** Basic facts *)

Lemma type_of_default (T : dtype) : type_of (default_value T) = T.
Proof.
  induction T as [k| |e IH|fs IH|k v IHk IHv|a b IHa IHb|fs IH]
    using dtype_ind'; simpl.
  - by destruct k.
  - done.
  - done.
  - f_equal. induction IH as [|x l Hx _ IHl]; simpl; [done|]. by rewrite Hx, IHl.
  - by rewrite IHk, IHv.
  - by rewrite IHa, IHb.
  - f_equal. induction IH as [|x l Hx _ IHl]; simpl; [done|]. by rewrite Hx, IHl.
Qed.

Lemma make_shared_lookup (h : heap) (v : value) :
  (make_shared h v).1 !! (make_shared h v).2 = Some v.
Proof.
  unfold make_shared; simpl.
  rewrite lookup_app_r by lia. by rewrite Nat.sub_diag.
Qed.

Lemma snoc_lookup (h : heap) (v : value) : (h ++ [v]) !! length h = Some v.
Proof. apply (make_shared_lookup h v). Qed.

Lemma open_depth_app (d : nat) (ws ws' : list wire) :
  open_depth d (ws ++ ws') = open_depth (open_depth d ws) ws'.
Proof.
  revert d. induction ws as [|w ws IH]; intros d; simpl; [done|].
  destruct w; apply IH.
Qed.

Lemma vheight_pos (v : value) : (1 <= vheight v)%nat.
Proof. destruct v; simpl; lia. Qed.

Lemma vheight_elem (x : value) (xs : list value) :
  x ∈ xs -> (vheight x <= foldr Nat.max 0%nat (map vheight xs))%nat.
Proof.
  induction 1 as [x xs|x y xs _ IH]; simpl; lia.
Qed.

(** ** Operators on an invalid message *)

Section Noop.
Variable wr : Message -> value -> res Message.
Variable rd : rstate -> value -> res (rstate * value).

Lemma marshall_noop (m : Message) (t : list value) (N : nat) :
  (forall x, x ∈ t -> wr m x = Ok m) ->
  (N <= length t)%nat ->
  TupleMarshaller_marshall wr N m t = Ok m.
Proof.
  intros Hwr. induction N as [|N IH]; intros HN; [done|].
  assert (Hget : exists x, t !! N = Some x /\ x ∈ t).
  { destruct (lookup_lt_is_Some_2 t N) as [x Hx]; [lia|].
    exists x. split; [done|]. by eapply list_elem_of_lookup_2. }
  destruct Hget as (x & Hx & Hin).
  destruct N as [|N'].
  - simpl. unfold std_get. rewrite Hx. simpl. by apply Hwr.
  - change (TupleMarshaller_marshall wr (S (S N')) m t)
      with (TupleMarshaller_marshall wr (S N') m t ≫= fun msg' =>
            std_get (S N') t ≫= fun x => wr msg' x).
    rewrite IH by lia. simpl. unfold std_get. rewrite Hx. simpl.
    by apply Hwr.
Qed.

Lemma unmarshall_noop (s : rstate) (t : list value) (N : nat) :
  (forall x, x ∈ t -> rd s x = Ok (s, x)) ->
  (N <= length t)%nat ->
  TupleMarshaller_unmarshall rd N s t = Ok (s, t).
Proof.
  intros Hrd. induction N as [|N IH]; intros HN; [done|].
  assert (Hget : exists x, t !! N = Some x /\ x ∈ t).
  { destruct (lookup_lt_is_Some_2 t N) as [x Hx]; [lia|].
    exists x. split; [done|]. by eapply list_elem_of_lookup_2. }
  destruct Hget as (x & Hx & Hin).
  destruct N as [|N'].
  - simpl. unfold std_get. rewrite Hx. simpl. rewrite (Hrd x Hin). simpl.
    by rewrite list_insert_id.
  - change (TupleMarshaller_unmarshall rd (S (S N')) s t)
      with (TupleMarshaller_unmarshall rd (S N') s t ≫= fun r =>
            match r with
            | (s1, t1) =>
                std_get (S N') t1 ≫= fun x =>
                rd s1 x ≫= fun r' =>
                match r' with
                | (s2, x') => Ok (s2, <[S N' := x']> t1)
                end
            end).
    rewrite IH by lia. simpl. unfold std_get. rewrite Hx. simpl.
    rewrite (Hrd x Hin). simpl. by rewrite list_insert_id.
Qed.
End Noop.

Lemma write_invalid (fuel : nat) (h : heap) (m : Message) (v : value) :
  Message_bool m = false ->
  (vheight v <= fuel)%nat ->
  write fuel h m v = Ok m.
Proof.
  unfold Message_bool. intros Hm. revert v.
  induction fuel as [|f IH]; intros v Hv.
  { pose proof (vheight_pos v). lia. }
  destruct v as [p|var|T xs|fs|k v|a b|fs]; simpl.
  - unfold Message_write_basic, Message_bool. by rewrite Hm.
  - unfold Message_write_Variant, Message_bool. by rewrite Hm.
  - unfold Message_write_vector, Message_write_Container, Message_bool.
    by rewrite Hm; simpl; rewrite Hm.
  - unfold Message_write_DBusStruct, Message_write_Container, Message_bool.
    by rewrite Hm; simpl; rewrite Hm.
  - unfold Message_write_DictEntry, Message_write_Container, Message_bool.
    by rewrite Hm; simpl; rewrite Hm.
  - unfold Message_write_pair, Message_bool. by rewrite Hm.
  - unfold Message_write_tuple. apply marshall_noop; [|done].
    intros x Hx. apply IH. simpl in Hv.
    pose proof (vheight_elem x fs Hx). lia.
Qed.

Lemma read_invalid (fuel : nat) (reg : VariantTypeRegistry) (h : heap)
    (m : Message) (v : value) :
  Message_bool m = false ->
  (vheight v <= fuel)%nat ->
  read fuel reg (m, h) v = Ok ((m, h), v).
Proof.
  unfold Message_bool. intros Hm. revert v.
  induction fuel as [|f IH]; intros v Hv.
  { pose proof (vheight_pos v). lia. }
  destruct v as [p|var|T xs|fs|k v|a b|fs]; simpl.
  - unfold Message_read_basic_into, Message_read_basic, Message_bool; simpl.
    by rewrite Hm.
  - unfold Message_read_Variant, Message_bool; simpl. by rewrite Hm.
  - unfold Message_read_vector, on_message, Message_read_Container,
      Message_bool; simpl.
    by rewrite Hm; simpl; rewrite Hm.
  - unfold Message_read_DBusStruct, on_message, Message_read_Container,
      Message_bool; simpl.
    by rewrite Hm; simpl; rewrite Hm.
  - unfold Message_read_DictEntry, on_message, Message_read_Container,
      Message_bool; simpl.
    by rewrite Hm; simpl; rewrite Hm.
  - unfold Message_read_pair, Message_bool; simpl. by rewrite Hm.
  - unfold Message_read_tuple.
    rewrite unmarshall_noop; [done| |done].
    intros x Hx. apply IH. simpl in Hv.
    pose proof (vheight_elem x fs Hx). lia.
Qed.

(** C1. Once a message is invalid, every operator invoked on it, for a basic
    value, a container marker, a pair, a tuple, a struct, a dict entry, an
    array or a variant, returns the message as it is: it stays invalid,
    nothing is appended to the stream and the cursor does not move.  A
    reading operator also leaves its target and the payload store alone. *)
Theorem C1_invalid_message_sticky (fuel : nat) (reg : VariantTypeRegistry)
    (h : heap) (m : Message) (v : value) :
  Message_bool m = false ->
  (vheight v <= fuel)%nat ->
  write fuel h m v = Ok m
  /\ read fuel reg (m, h) v = Ok ((m, h), v)
  /\ (forall c, Message_write_Container m c = m
                /\ Message_read_Container m c = m)
  /\ Message_write_ContainerEnd m = Ok m
  /\ Message_read_ContainerEnd m = Ok m
  /\ Message_bool (Message_fail m) = false
  /\ consumed_ (Message_fail m) = consumed_ m
  /\ pending_ (Message_fail m) = pending_ m.
Proof.
  intros Hm Hv. split; [by apply write_invalid|].
  split; [by apply read_invalid|].
  unfold Message_write_Container, Message_read_Container,
    Message_write_ContainerEnd, Message_read_ContainerEnd.
  rewrite Hm. repeat split.
Qed.

(** C1 at a struct of a string, a variant and an array of dict entries,
    written to and read from a message that failed after one item. *)
Lemma C1_invalid_message_sticky_witness :
  let m := mkMessage [WBasic (BInt32 1)] [WBasic (BBool true)] false in
  let v := VStruct [VBasic (BString "a"); VVariant Variant_default;
                    VArray (TDictEntry (TBasic KString) TVariant) []] in
  write 2 [] m v = Ok m /\ read 2 ∅ (m, []) v = Ok ((m, []), v).
Proof.
  intros m v.
  pose proof (C1_invalid_message_sticky 2 ∅ [] m v eq_refl) as H.
  split; apply H; vm_compute; lia.
Defined.

(** ** Basic values *)

(** C2. For every basic kind (the eight integer kinds, boolean, double,
    string, object path, signature value, file-descriptor handle) and every
    value [p] of it: writing [p] into a valid message whose cursor is at the
    write position appends the one item [p], reading at that kind then
    gives [p] back with the message still valid and the cursor behind the
    item, and the signature of a message that holds just [p] is the
    canonical signature of the kind. *)
Theorem C2_basic_round_trip (p target : basic_value) (m : Message) (h : heap)
    (reg : VariantTypeRegistry) (f : nat) :
  Message_bool m = true ->
  pending_ m = [] ->
  kind_of target = kind_of p ->
  write (S f) h m (VBasic p) = Ok (Message_append m [WBasic p])
  /\ read (S f) reg (Message_append m [WBasic p], h) (VBasic target)
     = Ok ((mkMessage (consumed_ m ++ [WBasic p]) [] true, h), VBasic p)
  /\ Message_signature (Message_write_basic Message_new p)
     = signature (TBasic (kind_of p)).
Proof.
  unfold Message_bool. intros Hok Hpend Hk. repeat split.
  - simpl. unfold Message_write_basic, Message_bool. by rewrite Hok.
  - simpl. unfold Message_read_basic_into, Message_read_basic, Message_bool,
      Message_advance. simpl. rewrite Hok, Hpend. simpl. rewrite Hk.
    by rewrite decide_True.
  - by destruct p.
Qed.

(** C2 at the unsigned 64-bit value [2^64 - 1], after an earlier item of the
    message has been read. *)
Lemma C2_basic_round_trip_witness :
  let m := mkMessage [WBasic (BString "x")] [] true in
  write 1 [] m (VBasic (BUInt64 18446744073709551615))
  = Ok (Message_append m [WBasic (BUInt64 18446744073709551615)])
  /\ read 1 ∅ (Message_append m [WBasic (BUInt64 18446744073709551615)], [])
       (VBasic (BUInt64 0))
     = Ok ((mkMessage [WBasic (BString "x");
                       WBasic (BUInt64 18446744073709551615)] [] true, []),
           VBasic (BUInt64 18446744073709551615))
  /\ Message_signature
       (Message_write_basic Message_new (BUInt64 18446744073709551615))
     = "t".
Proof.
  intros m.
  apply (C2_basic_round_trip (BUInt64 18446744073709551615) (BUInt64 0) m []
           ∅ 0); reflexivity.
Defined.

(** ** Formatting a Variant *)

(** C9. A default-constructed [Variant] has the empty signature and a null
    payload; [printData] appends nothing for it and its display is the bare
    frame.  A [Variant] set to the uint32 value 7, whose type is registered,
    is displayed as [Variant(sig=u, content=7)]. *)
Theorem C9_variant_display (style : LogStyle) (h : heap) (f : nat) :
  signature_ Variant_default = ""
  /\ data_ Variant_default = None
  /\ Variant_printData (log_value f style h) h Variant_default = Ok ""
  /\ log_value (S f) style h (VVariant Variant_default)
     = Ok "Variant(sig=, content=)"
  /\ (forall string_to_dbus_type reg reg' h' var,
        registerType string_to_dbus_type (TBasic KUInt32) reg = Some reg' ->
        Variant_setData (copy_value f) false h (VBasic (BUInt32 7))
        = Ok (h', var) ->
        lookupType reg' (signature_ var) = Some (TBasic KUInt32)
        /\ signature_ var = "u"
        /\ log_value (S (S f)) style h' (VVariant var)
           = Ok "Variant(sig=u, content=7)").
Proof.
  do 4 (split; [done|]).
  intros s2t reg reg' h' var Hreg Hset.
  unfold registerType in Hreg.
  destruct (decide _) in Hreg; [|done]. inversion Hreg; subst reg'.
  unfold Variant_setData in Hset. simpl in Hset. inversion Hset; subst.
  simpl. split; [|split; [done|]].
  - unfold lookupType, registerTypeImpl. apply lookup_insert_eq.
  - unfold log_Variant, Variant_printData, VariantHelper_print, deref.
    simpl. rewrite snoc_lookup. done.
Qed.

(** C9 with [uint32] registered in an empty registry and an empty store. *)
Lemma C9_variant_display_witness :
  let style := mkLogStyle (fun _ => "?") (fun _ => "[]") (fun _ => "()") in
  let var := mkVariant "u" (Some 0%nat) (Some (TBasic KUInt32)) in
  log_value 2 style [VBasic (BUInt32 7)] (VVariant var)
  = Ok "Variant(sig=u, content=7)".
Proof.
  intros style var.
  pose proof (C9_variant_display style [] 0) as (_ & _ & _ & _ & H).
  apply (H (fun _ => TBasic KUInt32) ∅
           (registerTypeImpl "u" (TBasic KUInt32) ∅)
           [VBasic (BUInt32 7)] var); reflexivity.
Defined.

(** ** Copying a payload that is not there *)

(** The default-constructed object of a type is value-initialised, and it
    is the only value-initialised object of that type. *)
Lemma default_value_initialized (T : dtype) :
  value_initialized (default_value T) = true.
Proof.
  induction T as [k| |e IH|fs IH|k v IHk IHv|a b IHa IHb|fs IH]
    using dtype_ind'; simpl.
  - by destruct k.
  - done.
  - done.
  - induction IH as [|x l Hx _ IHl]; simpl; [done|]. by rewrite Hx, IHl.
  - by rewrite IHk, IHv.
  - by rewrite IHa, IHb.
  - induction IH as [|x l Hx _ IHl]; simpl; [done|]. by rewrite Hx, IHl.
Qed.

Lemma value_initialized_unique (x : value) :
  value_initialized x = true -> x = default_value (type_of x).
Proof.
  assert (Hlist : forall fs,
            Forall (fun x => value_initialized x = true ->
                      x = default_value (type_of x)) fs ->
            forallb value_initialized fs = true ->
            fs = map default_value (map type_of fs)).
  { induction 1 as [|y fs Hy _ IH]; simpl; intros H; [done|].
    apply andb_true_iff in H as [H1 H2].
    by rewrite <- (Hy H1), <- (IH H2). }
  induction x as [p|var|T xs IH|fs IH|k v IHk IHv|a b IHa IHb|fs IH]
    using value_ind'; simpl; intros H.
  - destruct p; simpl in H;
      try (apply bool_decide_eq_true in H; by subst);
      by destruct b.
  - destruct var as [sig [l|] [T|]]; simpl in H;
      apply andb_true_iff in H as [Hs H]; try done.
    apply bool_decide_eq_true in Hs. simpl in Hs. by subst.
  - by destruct xs.
  - f_equal. by apply Hlist.
  - apply andb_true_iff in H as [Hk Hv]. by rewrite <- (IHk Hk), <- (IHv Hv).
  - apply andb_true_iff in H as [Ha Hb]. by rewrite <- (IHa Ha), <- (IHb Hb).
  - f_equal. by apply Hlist.
Qed.

(** C10. [VariantHelper<T>::copy] with a null source returns a new object,
    default-constructed at [T]; so the copy, by construction or by
    assignment, of a [Variant] that has a helper bound and a null payload
    has a payload.  The payload is an object of type [T], so the cast of
    the helper's other operations to [T *] is right for it, and it is
    value-initialised, which no other object of type [T] is: zero in every
    number, no character in a string, no element in a vector, an empty
    [Variant], in every member. *)
Theorem C10_copy_of_null_payload
    (cp : heap -> value -> res (heap * value)) (T : dtype) (h : heap)
    (sig : string) (self : Variant) :
  let v := {| signature_ := sig; data_ := None; helper_ := Some T |} in
  let copy := {| signature_ := sig; data_ := Some (length h);
                 helper_ := Some T |} in
  VariantHelper_copy cp T h None = Ok (h ++ [default_value T], length h)
  /\ Variant_copy cp h v = Ok (h ++ [default_value T], copy)
  /\ Variant_assign cp h self v = Ok (h ++ [default_value T], copy)
  /\ (h ++ [default_value T]) !! length h = Some (default_value T)
  /\ data_ copy <> None
  /\ (exists payload,
        deref T (h ++ [default_value T]) (length h) = Ok payload
        /\ type_of payload = T
        /\ value_initialized payload = true
        /\ forall x, type_of x = T -> value_initialized x = true ->
             x = payload).
Proof.
  intros v copy. split; [done|]. split; [done|]. split; [done|].
  split; [apply snoc_lookup|]. split; [done|].
  exists (default_value T). split; [|split; [|split]].
  - unfold deref. rewrite snoc_lookup.
    by rewrite decide_True by apply type_of_default.
  - apply type_of_default.
  - apply default_value_initialized.
  - intros x <- Hx. by apply value_initialized_unique.
Qed.

(** C10 at the type [DBusStruct<int32_t, std::vector<std::string>, Variant,
    DictEntry<std::string, bool>>], in a store that holds one object: the
    copy of a variant with that helper and no payload points to a new
    object, the struct of zero, the empty vector, the empty variant and the
    entry of the empty string and [false]. *)
Lemma C10_copy_of_null_payload_witness :
  let T := TStruct [TBasic KInt32; TArray (TBasic KString); TVariant;
                    TDictEntry (TBasic KString) (TBasic KBool)] in
  let payload := VStruct [VBasic (BInt32 0); VArray (TBasic KString) [];
                          VVariant (mkVariant "" None None);
                          VDictEntry (VBasic (BString ""))
                            (VBasic (BBool false))] in
  let h := [VBasic (BUInt32 7)] in
  let v := mkVariant "(iasv{sb})" None (Some T) in
  Variant_copy (copy_value 1) h v
  = Ok ([VBasic (BUInt32 7); payload],
        mkVariant "(iasv{sb})" (Some 1%nat) (Some T))
  /\ Variant_dataAs T [VBasic (BUInt32 7); payload]
       (mkVariant "(iasv{sb})" (Some 1%nat) (Some T)) = Ok payload.
Proof.
  intros T payload h v. split.
  - exact (proj1 (proj2 (C10_copy_of_null_payload (copy_value 1) T h
                           "(iasv{sb})" Variant_default))).
  - reflexivity.
Defined.

(** ** Writing: what the templates append *)

Lemma bind_Ok {A B : Type} (c : res A) (k : A -> res B) (r : B) :
  c ≫= k = Ok r -> exists a, c = Ok a /\ k a = Ok r.
Proof. destruct c as [a| |]; simpl; [eauto|done|done]. Qed.

Lemma Message_append_append (m : Message) (t t' : list wire) :
  Message_append (Message_append m t) t' = Message_append m (t ++ t').
Proof. unfold Message_append; simpl. by rewrite <- app_assoc. Qed.

Lemma Message_append_nil (m : Message) : Message_append m [] = m.
Proof. destruct m. unfold Message_append; simpl. by rewrite app_nil_r. Qed.

Lemma Message_append_ok (m : Message) (t : list wire) :
  Message_bool (Message_append m t) = Message_bool m.
Proof. done. Qed.

Lemma balanced_nil : balanced [].
Proof. by intros d. Qed.

Lemma balanced_app (t t' : list wire) :
  balanced t -> balanced t' -> balanced (t ++ t').
Proof. intros H H' d. by rewrite open_depth_app, H, H'. Qed.

Lemma balanced_basic (p : basic_value) : balanced [WBasic p].
Proof. by intros d. Qed.

Lemma balanced_bracket (c : Container.t) (t : list wire) :
  balanced t -> balanced (WOpen c :: t ++ [WClose]).
Proof. intros H d. simpl. by rewrite open_depth_app, H. Qed.

Lemma balanced_concat (ts : list (list wire)) :
  Forall balanced ts -> balanced (concat ts).
Proof.
  induction 1 as [|t ts Ht _ IH]; simpl; [apply balanced_nil|].
  by apply balanced_app.
Qed.

(** The close marker can be written after an open marker and a balanced
    segment. *)
Lemma write_ContainerEnd_after (m : Message) (c : Container.t)
    (t : list wire) :
  Message_bool m = true ->
  balanced t ->
  Message_write_ContainerEnd (Message_append m (WOpen c :: t))
  = Ok (Message_append m (WOpen c :: t ++ [WClose])).
Proof.
  intros Hm Ht. unfold Message_write_ContainerEnd.
  rewrite Message_append_ok, Hm. simpl.
  rewrite !open_depth_app. simpl. rewrite Ht.
  by rewrite Message_append_append.
Qed.

Section WriteLemmas.
Variable wr : Message -> value -> res Message.

Lemma marshall_S (N : nat) (m : Message) (t : list value) :
  TupleMarshaller_marshall wr (S N) m t
  = TupleMarshaller_marshall wr N m t ≫= fun m' =>
    std_get N t ≫= fun x => wr m' x.
Proof. by destruct N. Qed.

Lemma writes_as_ok (x : value) (t : list wire) (m : Message) :
  writes_as wr x t -> Message_bool m = true ->
  wr m x = Ok (Message_append m t).
Proof. intros [_ H]. apply H. Qed.

Lemma Forall2_writes_as_balanced (fs : list value) (toks : list (list wire)) :
  Forall2 (writes_as wr) fs toks -> balanced (concat toks).
Proof.
  intros H. apply balanced_concat.
  induction H as [|x t fs toks [Hb _] _ IH]; by constructor.
Qed.

(** The marshaller writes the first [N] fields, field 0 first. *)
Lemma marshall_prefix_writes (fs : list value) (N : nat)
    (toks : list (list wire)) (m : Message) :
  Forall2 (writes_as wr) (take N fs) toks ->
  Message_bool m = true ->
  (N <= length fs)%nat ->
  TupleMarshaller_marshall wr N m fs = Ok (Message_append m (concat toks)).
Proof.
  intros Hall Hm. revert toks Hall. induction N as [|N IH]; intros toks Hall HN.
  { simpl in *. apply Forall2_nil_inv_l in Hall. subst toks.
    by rewrite Message_append_nil. }
  destruct (lookup_lt_is_Some_2 fs N) as [x Hx]; [lia|].
  rewrite (take_S_r _ _ _ Hx) in Hall.
  apply Forall2_app_inv_l in Hall as (toks0 & tl & Hall0 & Hx1 & ->).
  apply Forall2_cons_inv_l in Hx1 as (t & tl' & Hxt & Hnil & ->).
  apply Forall2_nil_inv_l in Hnil. subst tl'.
  rewrite marshall_S, (IH toks0) by (done || lia). simpl.
  unfold std_get. rewrite Hx. simpl.
  rewrite (writes_as_ok x t) by done.
  rewrite Message_append_append.
  by rewrite concat_app; simpl; rewrite app_nil_r.
Qed.

Lemma marshall_writes (fs : list value) (toks : list (list wire))
    (m : Message) :
  Forall2 (writes_as wr) fs toks ->
  Message_bool m = true ->
  TupleMarshaller_marshall wr (length fs) m fs
  = Ok (Message_append m (concat toks)).
Proof.
  intros Hall Hm. apply marshall_prefix_writes; [|done|done].
  by rewrite firstn_all.
Qed.

Lemma write_each_writes (fs : list value) (toks : list (list wire))
    (m : Message) :
  Forall2 (writes_as wr) fs toks ->
  Message_bool m = true ->
  write_each wr m fs = Ok (Message_append m (concat toks)).
Proof.
  intros Hall. revert m.
  induction Hall as [|x t fs toks Hxt _ IH]; intros m Hm; simpl.
  { by rewrite Message_append_nil. }
  rewrite (writes_as_ok x t) by done. simpl.
  rewrite IH by done. by rewrite Message_append_append.
Qed.

Lemma tuple_writes (fs : list value) (toks : list (list wire)) :
  Forall2 (writes_as wr) fs toks ->
  writes_as (fun m x => Message_write_tuple wr m fs) (VTuple fs)
    (concat toks).
Proof.
  intros Hall. split; [by eapply Forall2_writes_as_balanced|].
  intros m Hm. unfold Message_write_tuple.
  by rewrite (marshall_writes fs toks).
Qed.

Lemma DBusStruct_writes (fs : list value) (toks : list (list wire)) :
  Forall2 (writes_as wr) fs toks ->
  writes_as (fun m x => Message_write_DBusStruct wr m fs) (VStruct fs)
    (WOpen (Container.mk Container.Struct
              (container_signature (TStruct (map type_of fs))))
       :: concat toks ++ [WClose]).
Proof.
  intros Hall.
  pose proof (Forall2_writes_as_balanced fs toks Hall) as Hbal.
  split; [by apply balanced_bracket|].
  intros m Hm. unfold Message_write_DBusStruct, Message_write_Container.
  rewrite Hm. cbv zeta. rewrite Message_append_ok, Hm.
  rewrite (marshall_writes fs toks) by done. simpl.
  rewrite !Message_append_ok, Hm.
  rewrite Message_append_append. simpl.
  by apply write_ContainerEnd_after.
Qed.

Lemma vector_writes (T : dtype) (xs : list value)
    (toks : list (list wire)) :
  Forall2 (writes_as wr) xs toks ->
  writes_as (fun m x => Message_write_vector wr m T xs) (VArray T xs)
    (WOpen (Container.mk Container.Array (container_signature (TArray T)))
       :: concat toks ++ [WClose]).
Proof.
  intros Hall.
  pose proof (Forall2_writes_as_balanced xs toks Hall) as Hbal.
  split; [by apply balanced_bracket|].
  intros m Hm. unfold Message_write_vector, Message_write_Container.
  rewrite Hm. cbv zeta. rewrite Message_append_ok, Hm.
  rewrite (write_each_writes xs toks) by done. simpl.
  rewrite Message_append_append. simpl.
  by apply write_ContainerEnd_after.
Qed.

Lemma DictEntry_writes (k v : value) (tk tv : list wire) :
  writes_as wr k tk -> writes_as wr v tv ->
  writes_as (fun m x => Message_write_DictEntry wr m k v) (VDictEntry k v)
    (WOpen (Container.mk Container.DictEntry
              (container_signature (TDictEntry (type_of k) (type_of v))))
       :: (tk ++ tv) ++ [WClose]).
Proof.
  intros Hk Hv.
  split; [apply balanced_bracket, balanced_app; [apply Hk|apply Hv]|].
  intros m Hm. unfold Message_write_DictEntry, Message_write_Container.
  rewrite Hm. cbv zeta. rewrite Message_append_ok, Hm.
  rewrite (writes_as_ok k tk) by done. simpl.
  rewrite !Message_append_ok, Hm. simpl.
  rewrite (writes_as_ok v tv) by done. simpl.
  rewrite !Message_append_ok, Hm. simpl.
  rewrite !Message_append_append. simpl.
  apply write_ContainerEnd_after; [done|].
  apply balanced_app; [apply Hk|apply Hv].
Qed.

Lemma pair_writes (a b : value) (ta tb : list wire) :
  writes_as wr a ta -> writes_as wr b tb ->
  writes_as (fun m x => Message_write_pair wr m a b) (VPair a b) (ta ++ tb).
Proof.
  intros Ha Hb. split; [apply balanced_app; [apply Ha|apply Hb]|].
  intros m Hm. unfold Message_write_pair. rewrite Hm. simpl.
  rewrite (writes_as_ok a ta) by done. simpl.
  rewrite !Message_append_ok, Hm. simpl.
  rewrite (writes_as_ok b tb) by done.
  by rewrite Message_append_append.
Qed.
End WriteLemmas.

(** ** Writing: every operator appends the same items to every message *)

Section WriteInversion.
Variable wr : Message -> value -> res Message.
Hypothesis wr_uniform : uniform wr.

Lemma append_valid (m : Message) (t : list wire) :
  Message_bool m = true -> Message_bool (Message_append m t) = true.
Proof. done. Qed.

Lemma marshall_inv (fs : list value) (N : nat) (m m' : Message) :
  Message_bool m = true ->
  (N <= length fs)%nat ->
  TupleMarshaller_marshall wr N m fs = Ok m' ->
  exists toks, Forall2 (writes_as wr) (take N fs) toks.
Proof.
  intros Hm. revert m'. induction N as [|N IH]; intros m' HN Hw.
  { exists []. simpl. constructor. }
  rewrite marshall_S in Hw.
  apply bind_Ok in Hw as (m1 & Hw1 & Hw).
  apply bind_Ok in Hw as (x & Hx & Hw).
  destruct (IH m1) as [toks0 Hall0]; [lia|done|].
  rewrite (marshall_prefix_writes wr fs N toks0 m) in Hw1 by (done || lia).
  inversion Hw1; subst m1.
  destruct (wr_uniform x _ _ (append_valid m _ Hm) Hw) as [t Ht].
  unfold std_get in Hx. destruct (fs !! N) as [y|] eqn:Hy; [|done].
  inversion Hx; subst y.
  exists (toks0 ++ [t]). rewrite (take_S_r _ _ _ Hy).
  apply Forall2_app; [done|]. constructor; [done|constructor].
Qed.

Lemma write_each_inv (fs : list value) (m m' : Message) :
  Message_bool m = true ->
  write_each wr m fs = Ok m' ->
  exists toks, Forall2 (writes_as wr) fs toks.
Proof.
  revert m. induction fs as [|x fs IH]; intros m Hm Hw.
  { exists []. constructor. }
  simpl in Hw. apply bind_Ok in Hw as (m1 & Hw1 & Hw).
  destruct (wr_uniform x _ _ Hm Hw1) as [t Ht].
  rewrite (writes_as_ok wr x t m Ht Hm) in Hw1. inversion Hw1; subst m1.
  destruct (IH _ (append_valid m t Hm) Hw) as [toks Hall].
  exists (t :: toks). by constructor.
Qed.
End WriteInversion.

Lemma write_uniform (f : nat) (h : heap) : uniform (write f h).
Proof.
  induction f as [|f IH]; intros x m m' Hm Hw; [done|].
  destruct x as [p|var|T xs|fs|k v|a b|fs]; simpl in Hw.
  - exists [WBasic p]. split; [apply balanced_basic|].
    intros m2 Hm2. simpl. unfold Message_write_basic. by rewrite Hm2.
  - unfold Message_write_Variant, Variant_writeToMessage,
      VariantHelper_serialize, Message_write_basic in Hw.
    rewrite Hm in Hw. simpl in Hw.
    destruct (helper_ var) as [T|] eqn:HT.
    + destruct (data_ var) as [l|] eqn:Hl; [|done].
      apply bind_Ok in Hw as (s & Hs & Hw).
      destruct (IH s _ _ (append_valid _ _ Hm) Hw) as [t [Hb Ht]].
      exists (WBasic (BSignature (signature_ var)) :: t). split.
      * apply (balanced_app [_]); [apply balanced_basic|done].
      * intros m2 Hm2. simpl.
        unfold Message_write_Variant, Variant_writeToMessage,
          VariantHelper_serialize, Message_write_basic.
        rewrite Hm2, HT, Hl, Hs. simpl.
        rewrite Ht by done. by rewrite Message_append_append.
    + exists [WBasic (BSignature (signature_ var))].
      split; [apply balanced_basic|].
      intros m2 Hm2. simpl.
      unfold Message_write_Variant, Variant_writeToMessage,
        Message_write_basic.
      by rewrite Hm2, HT.
  - unfold Message_write_vector, Message_write_Container in Hw.
    rewrite Hm in Hw. cbv zeta in Hw.
    rewrite Message_append_ok, Hm in Hw.
    apply bind_Ok in Hw as (m2 & Hw2 & _).
    destruct (write_each_inv _ IH _ _ _ (append_valid _ _ Hm) Hw2)
      as [toks Hall].
    eexists. exact (vector_writes _ T xs toks Hall).
  - unfold Message_write_DBusStruct, Message_write_Container in Hw.
    rewrite Hm in Hw. cbv zeta in Hw.
    rewrite Message_append_ok, Hm in Hw.
    apply bind_Ok in Hw as (m2 & Hw2 & _).
    destruct (marshall_inv _ IH fs _ _ _ (append_valid _ _ Hm)
                (Nat.le_refl _) Hw2) as [toks Hall].
    rewrite firstn_all in Hall.
    eexists. exact (DBusStruct_writes _ fs toks Hall).
  - unfold Message_write_DictEntry, Message_write_Container in Hw.
    rewrite Hm in Hw. cbv zeta in Hw.
    rewrite Message_append_ok, Hm in Hw.
    apply bind_Ok in Hw as (m2 & Hw2 & Hw).
    destruct (IH k _ _ (append_valid _ _ Hm) Hw2) as [tk Hk].
    rewrite (writes_as_ok _ k tk _ Hk (append_valid _ _ Hm)) in Hw2.
    inversion Hw2; subst m2.
    rewrite !Message_append_ok, Hm in Hw. simpl in Hw.
    apply bind_Ok in Hw as (m3 & Hw3 & _).
    destruct (IH v _ _ (append_valid _ _ (append_valid _ _ Hm)) Hw3)
      as [tv Hv].
    eexists. exact (DictEntry_writes _ k v tk tv Hk Hv).
  - unfold Message_write_pair in Hw. rewrite Hm in Hw. simpl in Hw.
    apply bind_Ok in Hw as (m1 & Hw1 & Hw).
    destruct (IH a _ _ Hm Hw1) as [ta Ha].
    rewrite (writes_as_ok _ a ta _ Ha Hm) in Hw1. inversion Hw1; subst m1.
    rewrite Message_append_ok, Hm in Hw. simpl in Hw.
    destruct (IH b _ _ (append_valid _ _ Hm) Hw) as [tb Hb].
    eexists. exact (pair_writes _ a b ta tb Ha Hb).
  - unfold Message_write_tuple in Hw.
    destruct (marshall_inv _ IH fs _ _ _ Hm (Nat.le_refl _) Hw)
      as [toks Hall].
    rewrite firstn_all in Hall.
    eexists. exact (tuple_writes _ fs toks Hall).
Qed.

Lemma encode_writes_as (f : nat) (h : heap) (x : value) (t : list wire) :
  encode f h x = Ok t -> writes_as (write f h) x t.
Proof.
  unfold encode. intros H. apply bind_Ok in H as (m0 & Hw & Ht).
  destruct (write_uniform f h x Message_new m0 eq_refl Hw) as [t0 Ht0].
  rewrite (writes_as_ok _ x t0 Message_new Ht0 eq_refl) in Hw.
  inversion Hw; subst m0. simpl in Ht. inversion Ht; by subst t.
Qed.

Lemma Forall2_encode_writes_as (f : nat) (h : heap) (xs : list value)
    (toks : list (list wire)) :
  Forall2 (fun x t => encode f h x = Ok t) xs toks ->
  Forall2 (writes_as (write f h)) xs toks.
Proof.
  induction 1; constructor; [by apply encode_writes_as|done].
Qed.

(** ** Reading: the basic operators *)

Lemma advance_depth (m : Message) (w : wire) (rest : list wire) :
  open_depth 0 (consumed_ (Message_advance m w rest))
  = open_depth (open_depth 0 (consumed_ m)) [w].
Proof. unfold Message_advance; simpl. apply open_depth_app. Qed.

Lemma read_basic_keeps (m m' : Message) (k : basic) (o : option basic_value) :
  Message_read_basic m k = (m', o) ->
  Message_bool m' = true ->
  Message_bool m = true
  /\ open_depth 0 (consumed_ m') = open_depth 0 (consumed_ m).
Proof.
  unfold Message_read_basic. intros H Hok.
  destruct (Message_bool m) eqn:Hm; [|inversion H; subst; congruence].
  split; [done|].
  destruct (pending_ m) as [|[p|c|] rest]; try (inversion H; by subst).
  destruct (decide _); inversion H; subst; [|done].
  by rewrite advance_depth.
Qed.

Lemma read_Container_ok (m : Message) (c : Container.t) :
  Message_bool (Message_read_Container m c) = true ->
  Message_bool m = true
  /\ exists rest, pending_ m = WOpen c :: rest
       /\ Message_read_Container m c = Message_advance m (WOpen c) rest.
Proof.
  unfold Message_read_Container. intros H.
  destruct (Message_bool m) eqn:Hm; [|congruence].
  split; [done|].
  destruct (pending_ m) as [|[p|c'|] rest]; try done.
  destruct (decide (c' = c)) as [->|]; [|done]. by exists rest.
Qed.

Lemma read_Container_at (m : Message) (c : Container.t) (rest : list wire) :
  Message_bool m = true ->
  pending_ m = WOpen c :: rest ->
  Message_read_Container m c = Message_advance m (WOpen c) rest.
Proof.
  intros Hm Hp. unfold Message_read_Container. rewrite Hm, Hp.
  by rewrite decide_True.
Qed.

Lemma read_ContainerEnd_ok (m m' : Message) :
  Message_read_ContainerEnd m = Ok m' ->
  Message_bool m' = true ->
  Message_bool m = true
  /\ S (open_depth 0 (consumed_ m')) = open_depth 0 (consumed_ m).
Proof.
  unfold Message_read_ContainerEnd. intros H Hok.
  destruct (Message_bool m) eqn:Hm; [|inversion H; subst; congruence].
  split; [done|].
  destruct (open_depth 0 (consumed_ m)) as [|d] eqn:Hd; [done|].
  destruct (pending_ m) as [|[p|c'|] rest]; inversion H; subst; try done.
  rewrite advance_depth, Hd. done.
Qed.

Lemma read_ContainerEnd_at (m : Message) (rest : list wire) :
  Message_bool m = true ->
  open_depth 0 (consumed_ m) <> 0%nat ->
  pending_ m = WClose :: rest ->
  Message_read_ContainerEnd m = Ok (Message_advance m WClose rest).
Proof.
  intros Hm Hd Hp. unfold Message_read_ContainerEnd. rewrite Hm, Hp.
  by destruct (open_depth 0 (consumed_ m)).
Qed.

(** ** Reading: the templates *)

Section ReadLemmas.
Variable rd : rstate -> value -> res (rstate * value).

Lemma unmarshall_S (N : nat) (s : rstate) (t : list value) :
  TupleMarshaller_unmarshall rd (S N) s t
  = TupleMarshaller_unmarshall rd N s t ≫= fun r =>
    std_get N r.2 ≫= fun x =>
    rd r.1 x ≫= fun r' => Ok (r'.1, <[N := r'.2]> r.2).
Proof.
  destruct N.
  - simpl. destruct (std_get 0 t); simpl; [|done|done].
    by destruct (rd s a) as [[??]| |].
  - change (TupleMarshaller_unmarshall rd (S (S N)) s t)
      with (TupleMarshaller_unmarshall rd (S N) s t ≫= fun r =>
            match r with
            | (s1, t1) =>
                std_get (S N) t1 ≫= fun x =>
                rd s1 x ≫= fun r' =>
                match r' with
                | (s2, x') => Ok (s2, <[S N := x']> t1)
                end
            end).
    destruct (TupleMarshaller_unmarshall rd (S N) s t) as [[s1 t1]| |];
      [|done|done].
    cbn [mbind res_bind fst snd].
    destruct (std_get (S N) t1); [|done|done].
    cbn [mbind res_bind fst snd].
    by destruct (rd s1 a) as [[??]| |].
Qed.

Lemma reads_fields_length (s s_end : rstate) (fs fs' : list value) :
  reads_fields rd s fs fs' s_end -> length fs = length fs'.
Proof.
  revert s fs'. induction fs as [|x fs IH]; intros s [|x' fs'] H;
    simpl in *; try done.
  destruct H as (s1 & _ & H). f_equal. by eapply IH.
Qed.

Lemma reads_fields_snoc_inv (s s_end : rstate) (fs fs'' : list value)
    (x : value) :
  reads_fields rd s (fs ++ [x]) fs'' s_end ->
  exists fs' x' s1,
    fs'' = fs' ++ [x'] /\ reads_fields rd s fs fs' s1
    /\ rd s1 x = Ok (s_end, x').
Proof.
  revert s fs''. induction fs as [|y fs IH]; intros s fs'' H; simpl in H.
  - destruct fs'' as [|x' [|??]]; try done.
    + destruct H as (s1 & Hrd & ->). by exists [], x', s.
    + by destruct H as (s1 & _ & H).
  - destruct fs'' as [|y' fs'']; [done|].
    destruct H as (s1 & Hrd & H).
    destruct (IH _ _ H) as (fs' & x' & s2 & -> & Hfs & Hx).
    exists (y' :: fs'), x', s2. simpl. eauto.
Qed.

(** The unmarshaller reads the fields first to last. *)
Lemma unmarshall_reads (fs : list value) :
  forall (s s_end : rstate) (fs' tail : list value),
    reads_fields rd s fs fs' s_end ->
    TupleMarshaller_unmarshall rd (length fs) s (fs ++ tail)
    = Ok (s_end, fs' ++ tail).
Proof.
  induction fs as [|x fs IH] using rev_ind; intros s s_end fs' tail H.
  { destruct fs'; [|done]. simpl in H. by subst. }
  apply reads_fields_snoc_inv in H as (fs0' & x' & s1 & -> & Hfs & Hx).
  pose proof (reads_fields_length _ _ _ _ Hfs) as Hlen.
  replace (length (fs ++ [x])) with (S (length fs))
    by (rewrite length_app; simpl; lia).
  rewrite unmarshall_S, <- app_assoc.
  change ([x] ++ tail) with (x :: tail).
  rewrite (IH _ _ _ (x :: tail) Hfs). cbn [mbind res_bind fst snd].
  unfold std_get. rewrite Hlen at 1.
  rewrite list_lookup_middle by done. simpl. rewrite Hx. simpl.
  rewrite Hlen. rewrite insert_app_r_alt by lia.
  rewrite Nat.sub_diag. simpl. by rewrite <- app_assoc.
Qed.

Lemma read_while_reads (vs : list value) :
  forall (n : nat) (s s_end : rstate) (temp : value) (t : list value),
    reads_elements rd s temp vs s_end ->
    Message_end s_end.1 = true ->
    (length vs < n)%nat ->
    read_while rd n s temp t = Ok (s_end, t ++ vs).
Proof.
  induction vs as [|v vs IH]; intros n s s_end temp t H Hend Hn.
  - simpl in H. subst s_end. destruct n; [simpl in Hn; lia|].
    simpl. rewrite Hend. simpl. by rewrite app_nil_r.
  - destruct H as (Hne & s1 & Hrd & Hok & H).
    destruct n; [simpl in Hn; lia|].
    simpl. rewrite Hne. simpl. rewrite Hrd. simpl. rewrite Hok.
    rewrite (IH n s1 s_end v (t ++ [v])); [|done|done|simpl in Hn; lia].
    by rewrite <- app_assoc.
Qed.

Hypothesis rd_keeps : keeps_depth rd.

Lemma reads_fields_keeps (fs : list value) :
  forall (s s_end : rstate) (fs' : list value),
    reads_fields rd s fs fs' s_end ->
    Message_bool s_end.1 = true ->
    Message_bool s.1 = true
    /\ open_depth 0 (consumed_ s_end.1) = open_depth 0 (consumed_ s.1).
Proof.
  induction fs as [|x fs IH]; intros s s_end [|x' fs'] H Hok;
    simpl in H; try done.
  - by subst.
  - destruct H as (s1 & Hrd & H).
    destruct (IH _ _ _ H Hok) as [Hok1 Hd].
    destruct (rd_keeps _ _ _ _ Hrd Hok1) as [Hok0 Hd0].
    split; [done|congruence].
Qed.

Lemma reads_elements_keeps (vs : list value) :
  forall (s s_end : rstate) (temp : value),
    reads_elements rd s temp vs s_end ->
    Message_bool s.1 = true ->
    Message_bool s_end.1 = true
    /\ open_depth 0 (consumed_ s_end.1) = open_depth 0 (consumed_ s.1).
Proof.
  induction vs as [|v vs IH]; intros s s_end temp H Hok; simpl in H.
  - by subst.
  - destruct H as (_ & s1 & Hrd & Hok1 & H).
    destruct (IH _ _ _ H Hok1) as [Hoke Hd].
    destruct (rd_keeps _ _ _ _ Hrd Hok1) as [_ Hd0].
    split; [done|congruence].
Qed.

Lemma unmarshall_keeps (N : nat) :
  forall (s s' : rstate) (t t' : list value),
    TupleMarshaller_unmarshall rd N s t = Ok (s', t') ->
    Message_bool s'.1 = true ->
    Message_bool s.1 = true
    /\ open_depth 0 (consumed_ s'.1) = open_depth 0 (consumed_ s.1).
Proof.
  induction N as [|N IH]; intros s s' t t' H Hok.
  { simpl in H. inversion H; by subst. }
  rewrite unmarshall_S in H.
  apply bind_Ok in H as ([s1 t1] & H1 & H).
  apply bind_Ok in H as (x & _ & H).
  apply bind_Ok in H as ([s2 x'] & Hrd & H).
  simpl in *. inversion H; subst s' t'.
  destruct (rd_keeps _ _ _ _ Hrd Hok) as [Hok1 Hd1].
  destruct (IH _ _ _ _ H1 Hok1) as [Hok0 Hd0].
  split; [done|congruence].
Qed.

Lemma read_while_keeps (n : nat) :
  forall (s s' : rstate) (temp : value) (t t' : list value),
    read_while rd n s temp t = Ok (s', t') ->
    Message_bool s'.1 = true ->
    Message_bool s.1 = true
    /\ open_depth 0 (consumed_ s'.1) = open_depth 0 (consumed_ s.1).
Proof.
  induction n as [|n IH]; intros s s' temp t t' H Hok; [done|].
  simpl in H. destruct (Message_end s.1); simpl in H.
  { inversion H; by subst. }
  apply bind_Ok in H as ([s1 temp1] & Hrd & H).
  destruct (Message_bool s1.1) eqn:Hok1.
  - destruct (IH _ _ _ _ _ H Hok) as [_ Hd].
    destruct (rd_keeps _ _ _ _ Hrd Hok1) as [Hok0 Hd0].
    split; [done|congruence].
  - inversion H; subst. congruence.
Qed.
End ReadLemmas.

Section ReadKeeps.
Variable rd : rstate -> value -> res (rstate * value).
Hypothesis rd_keeps : keeps_depth rd.

Lemma open_then_close (s s2 : rstate) (c : Container.t) (m3 : Message) :
  Message_bool (Message_read_Container s.1 c) = true ->
  open_depth 0 (consumed_ s2.1)
  = open_depth 0 (consumed_ (Message_read_Container s.1 c)) ->
  Message_read_ContainerEnd s2.1 = Ok m3 ->
  Message_bool m3 = true ->
  Message_bool s.1 = true
  /\ open_depth 0 (consumed_ m3) = open_depth 0 (consumed_ s.1).
Proof.
  intros Hok1 Hd2 He Hok3.
  destruct (read_Container_ok _ _ Hok1) as (Hm & rest & Hp & Heq).
  destruct (read_ContainerEnd_ok _ _ He Hok3) as [_ Hd3].
  rewrite Heq, advance_depth in Hd2. simpl in Hd2.
  split; [done|]. lia.
Qed.

Lemma pair_keeps (s s' : rstate) (a b x' : value) :
  Message_read_pair rd s a b = Ok (s', x') ->
  Message_bool s'.1 = true ->
  Message_bool s.1 = true
  /\ open_depth 0 (consumed_ s'.1) = open_depth 0 (consumed_ s.1).
Proof.
  unfold Message_read_pair. intros H Hok.
  destruct (Message_bool s.1) eqn:Hok0; simpl in H;
    [|inversion H; subst; congruence].
  apply bind_Ok in H as ([s1 a'] & Hrd1 & H).
  destruct (Message_bool s1.1) eqn:Hok1; simpl in H;
    [|inversion H; subst; congruence].
  apply bind_Ok in H as ([s2 b'] & Hrd2 & H). inversion H; subst.
  destruct (rd_keeps _ _ _ _ Hrd2 Hok) as [_ Hd2].
  destruct (rd_keeps _ _ _ _ Hrd1 Hok1) as [_ Hd1].
  split; [done|congruence].
Qed.

Lemma tuple_keeps (s s' : rstate) (t : list value) (x' : value) :
  Message_read_tuple rd s t = Ok (s', x') ->
  Message_bool s'.1 = true ->
  Message_bool s.1 = true
  /\ open_depth 0 (consumed_ s'.1) = open_depth 0 (consumed_ s.1).
Proof.
  unfold Message_read_tuple. intros H Hok.
  apply bind_Ok in H as ([s1 t1] & Hu & H). inversion H; subst.
  by eapply unmarshall_keeps.
Qed.

Lemma DBusStruct_keeps (s s' : rstate) (t : list value) (x' : value) :
  Message_read_DBusStruct rd s t = Ok (s', x') ->
  Message_bool s'.1 = true ->
  Message_bool s.1 = true
  /\ open_depth 0 (consumed_ s'.1) = open_depth 0 (consumed_ s.1).
Proof.
  unfold Message_read_DBusStruct, on_message. cbn [fst snd]. intros H Hok.
  destruct (Message_bool (Message_read_Container s.1 _)) eqn:Hok1;
    [|inversion H; subst; simpl in Hok; congruence].
  apply bind_Ok in H as ([s2 t2] & Hu & H).
  destruct (Message_bool s2.1) eqn:Hok2;
    [|inversion H; subst; congruence].
  apply bind_Ok in H as (m3 & He & H). inversion H; subst.
  destruct (unmarshall_keeps rd rd_keeps _ _ _ _ _ Hu Hok2) as [_ Hd2].
  by eapply open_then_close.
Qed.

Lemma DictEntry_keeps (s s' : rstate) (k v x' : value) :
  Message_read_DictEntry rd s k v = Ok (s', x') ->
  Message_bool s'.1 = true ->
  Message_bool s.1 = true
  /\ open_depth 0 (consumed_ s'.1) = open_depth 0 (consumed_ s.1).
Proof.
  unfold Message_read_DictEntry, on_message. cbn [fst snd]. intros H Hok.
  destruct (Message_bool (Message_read_Container s.1 _)) eqn:Hok1;
    [|inversion H; subst; simpl in Hok; congruence].
  apply bind_Ok in H as ([s2 k'] & Hrd2 & H).
  destruct (Message_bool s2.1) eqn:Hok2; simpl in H;
    [|inversion H; subst; congruence].
  apply bind_Ok in H as ([s3 v'] & Hrd3 & H).
  destruct (Message_bool s3.1) eqn:Hok3; simpl in H;
    [|inversion H; subst; congruence].
  apply bind_Ok in H as (m4 & He & H). inversion H; subst.
  destruct (rd_keeps _ _ _ _ Hrd3 Hok3) as [_ Hd3].
  destruct (rd_keeps _ _ _ _ Hrd2 Hok2) as [_ Hd2].
  eapply open_then_close; [done| |done|done].
  simpl in *. congruence.
Qed.

Lemma vector_keeps (n : nat) (s s' : rstate) (T : dtype) (t : list value)
    (x' : value) :
  Message_read_vector rd n s T t = Ok (s', x') ->
  Message_bool s'.1 = true ->
  Message_bool s.1 = true
  /\ open_depth 0 (consumed_ s'.1) = open_depth 0 (consumed_ s.1).
Proof.
  unfold Message_read_vector, on_message. cbn [fst snd]. intros H Hok.
  destruct (Message_bool (Message_read_Container s.1 _)) eqn:Hok1;
    [|inversion H; subst; simpl in Hok; congruence].
  apply bind_Ok in H as ([s2 t2] & Hu & H).
  apply bind_Ok in H as (m3 & He & H). inversion H; subst.
  simpl in Hok.
  destruct (read_ContainerEnd_ok _ _ He Hok) as [Hok2 _].
  destruct (read_while_keeps rd rd_keeps _ _ _ _ _ _ Hu Hok2) as [_ Hd2].
  by eapply open_then_close.
Qed.

Lemma Variant_keeps (reg : VariantTypeRegistry) (s s' : rstate)
    (target v' : Variant) :
  Message_read_Variant rd reg s target = Ok (s', v') ->
  Message_bool s'.1 = true ->
  Message_bool s.1 = true
  /\ open_depth 0 (consumed_ s'.1) = open_depth 0 (consumed_ s.1).
Proof.
  unfold Message_read_Variant. intros H Hok.
  destruct (Message_bool s.1) eqn:Hok0; simpl in H;
    [|inversion H; subst; congruence].
  split; [done|].
  destruct (Message_read_basic s.1 KSignature) as [m1 o] eqn:Hb.
  assert (Hm1 : Message_bool m1 = true ->
                open_depth 0 (consumed_ m1) = open_depth 0 (consumed_ s.1)).
  { intros Hok1. by destruct (read_basic_keeps _ _ _ _ Hb Hok1). }
  destruct o as [[| | | | | | | | | | |sig|]|];
    try (inversion H; subst; by apply Hm1).
  destruct (lookupType reg sig) as [T|];
    [|inversion H; subst; simpl in Hok; done].
  unfold VariantHelper_copy_null, make_shared, VariantHelper_deserialize
    in H.
  apply bind_Ok in H as (s2 & H2 & H). inversion H; subst.
  apply bind_Ok in H2 as (s0 & _ & H2).
  apply bind_Ok in H2 as ([st1 x'] & Hrd & H2). inversion H2; subst.
  simpl in Hok.
  destruct (rd_keeps _ _ _ _ Hrd Hok) as [Hok1 Hd1].
  simpl in *. rewrite Hd1. by apply Hm1.
Qed.
End ReadKeeps.

Lemma read_keeps (f : nat) (reg : VariantTypeRegistry) :
  keeps_depth (read f reg).
Proof.
  induction f as [|f IH]; intros s x s' x' H Hok; [done|].
  destruct x as [p|var|T xs|fs|k v|a b|fs]; simpl in H.
  - unfold Message_read_basic_into in H.
    destruct (Message_read_basic s.1 (kind_of p)) as [m1 o] eqn:Hb.
    destruct o; inversion H; subst; by eapply read_basic_keeps.
  - apply bind_Ok in H as ([s1 var'] & Hv & H). inversion H; subst.
    by eapply Variant_keeps.
  - by eapply vector_keeps.
  - by eapply DBusStruct_keeps.
  - by eapply DictEntry_keeps.
  - by eapply pair_keeps.
  - by eapply tuple_keeps.
Qed.

(** ** Reading: the store only grows *)

Lemma prefix_insert_above (h h2 : list value) (l : nat) (v : value) :
  h `prefix_of` h2 -> (length h <= l)%nat -> h `prefix_of` <[l := v]> h2.
Proof.
  intros [k ->] Hl. exists (<[(l - length h)%nat := v]> k).
  by rewrite insert_app_r_alt.
Qed.

Section ReadGrows.
Variable rd : rstate -> value -> res (rstate * value).
Hypothesis rd_grows : grows rd.

Lemma unmarshall_grows (N : nat) :
  forall (s s' : rstate) (t t' : list value),
    TupleMarshaller_unmarshall rd N s t = Ok (s', t') ->
    s.2 `prefix_of` s'.2.
Proof.
  induction N as [|N IH]; intros s s' t t' H.
  { simpl in H. inversion H; by subst. }
  rewrite unmarshall_S in H.
  apply bind_Ok in H as ([s1 t1] & H1 & H).
  apply bind_Ok in H as (x & _ & H).
  apply bind_Ok in H as ([s2 x'] & Hrd & H).
  simpl in *. inversion H; subst s' t'.
  etrans; [by eapply IH|]. by apply (rd_grows _ _ _ _ Hrd).
Qed.

Lemma read_while_grows (n : nat) :
  forall (s s' : rstate) (temp : value) (t t' : list value),
    read_while rd n s temp t = Ok (s', t') -> s.2 `prefix_of` s'.2.
Proof.
  induction n as [|n IH]; intros s s' temp t t' H; [done|].
  simpl in H. destruct (Message_end s.1); simpl in H.
  { inversion H; by subst. }
  apply bind_Ok in H as ([s1 temp1] & Hrd & H).
  pose proof (rd_grows _ _ _ _ Hrd) as H1. simpl in H1.
  destruct (Message_bool s1.1).
  - etrans; [done|]. by eapply IH.
  - inversion H; by subst.
Qed.

Lemma pair_grows (s s' : rstate) (a b x' : value) :
  Message_read_pair rd s a b = Ok (s', x') -> s.2 `prefix_of` s'.2.
Proof.
  unfold Message_read_pair. intros H.
  destruct (Message_bool s.1); simpl in H; [|inversion H; by subst].
  apply bind_Ok in H as ([s1 a'] & Hrd1 & H).
  pose proof (rd_grows _ _ _ _ Hrd1) as H1. simpl in H1.
  destruct (Message_bool s1.1); simpl in H; [|inversion H; by subst].
  apply bind_Ok in H as ([s2 b'] & Hrd2 & H). inversion H; subst.
  etrans; [done|]. by apply (rd_grows _ _ _ _ Hrd2).
Qed.

Lemma tuple_grows (s s' : rstate) (t : list value) (x' : value) :
  Message_read_tuple rd s t = Ok (s', x') -> s.2 `prefix_of` s'.2.
Proof.
  unfold Message_read_tuple. intros H.
  apply bind_Ok in H as ([s1 t1] & Hu & H). inversion H; subst.
  by eapply unmarshall_grows.
Qed.

Lemma DBusStruct_grows (s s' : rstate) (t : list value) (x' : value) :
  Message_read_DBusStruct rd s t = Ok (s', x') -> s.2 `prefix_of` s'.2.
Proof.
  unfold Message_read_DBusStruct, on_message. cbn [fst snd]. intros H.
  destruct (Message_bool (Message_read_Container s.1 _));
    [|inversion H; by subst].
  apply bind_Ok in H as ([s2 t2] & Hu & H).
  pose proof (unmarshall_grows _ _ _ _ _ Hu) as H2. simpl in H2.
  destruct (Message_bool s2.1); [|inversion H; by subst].
  apply bind_Ok in H as (m3 & _ & H). inversion H; by subst.
Qed.

Lemma DictEntry_grows (s s' : rstate) (k v x' : value) :
  Message_read_DictEntry rd s k v = Ok (s', x') -> s.2 `prefix_of` s'.2.
Proof.
  unfold Message_read_DictEntry, on_message. cbn [fst snd]. intros H.
  destruct (Message_bool (Message_read_Container s.1 _));
    [|inversion H; by subst].
  apply bind_Ok in H as ([s2 k'] & Hrd2 & H).
  pose proof (rd_grows _ _ _ _ Hrd2) as H2. simpl in H2.
  destruct (Message_bool s2.1); simpl in H; [|inversion H; by subst].
  apply bind_Ok in H as ([s3 v'] & Hrd3 & H).
  pose proof (rd_grows _ _ _ _ Hrd3) as H3. simpl in H3.
  assert (s.2 `prefix_of` s3.2) by (by etrans).
  destruct (Message_bool s3.1); simpl in H; [|inversion H; by subst].
  apply bind_Ok in H as (m4 & _ & H). inversion H; by subst.
Qed.

Lemma vector_grows (n : nat) (s s' : rstate) (T : dtype) (t : list value)
    (x' : value) :
  Message_read_vector rd n s T t = Ok (s', x') -> s.2 `prefix_of` s'.2.
Proof.
  unfold Message_read_vector, on_message. cbn [fst snd]. intros H.
  destruct (Message_bool (Message_read_Container s.1 _));
    [|inversion H; by subst].
  apply bind_Ok in H as ([s2 t2] & Hu & H).
  pose proof (read_while_grows _ _ _ _ _ _ Hu) as H2. simpl in H2.
  apply bind_Ok in H as (m3 & _ & H). inversion H; by subst.
Qed.

Lemma Variant_grows (reg : VariantTypeRegistry) (s s' : rstate)
    (target v' : Variant) :
  Message_read_Variant rd reg s target = Ok (s', v') ->
  s.2 `prefix_of` s'.2.
Proof.
  unfold Message_read_Variant. intros H.
  destruct (Message_bool s.1); simpl in H; [|inversion H; by subst].
  destruct (Message_read_basic s.1 KSignature) as [m1 o].
  destruct o as [[| | | | | | | | | | |sig|]|];
    try (inversion H; by subst).
  destruct (lookupType reg sig) as [T|]; [|inversion H; by subst].
  unfold VariantHelper_copy_null, make_shared, VariantHelper_deserialize
    in H.
  apply bind_Ok in H as (s2 & H2 & H). inversion H; subst.
  apply bind_Ok in H2 as (s0 & _ & H2).
  apply bind_Ok in H2 as ([st1 x'] & Hrd & H2). inversion H2; subst.
  pose proof (rd_grows _ _ _ _ Hrd) as H1. simpl in *.
  apply prefix_insert_above; [|done].
  etrans; [|done]. by apply prefix_app_r.
Qed.
End ReadGrows.

Lemma read_grows (f : nat) (reg : VariantTypeRegistry) : grows (read f reg).
Proof.
  induction f as [|f IH]; intros s x s' x' H; [done|].
  destruct x as [p|var|T xs|fs|k v|a b|fs]; simpl in H.
  - unfold Message_read_basic_into in H.
    destruct (Message_read_basic s.1 (kind_of p)) as [m1 [o|]];
      inversion H; by subst.
  - apply bind_Ok in H as ([s1 var'] & Hv & H). inversion H; subst.
    by eapply Variant_grows.
  - by eapply vector_grows.
  - by eapply DBusStruct_grows.
  - by eapply DictEntry_grows.
  - by eapply pair_grows.
  - by eapply tuple_grows.
Qed.

(** ** Reading: what the container templates consume *)

Section ReadForward.
Variable rd : rstate -> value -> res (rstate * value).
Hypothesis rd_keeps : keeps_depth rd.

Lemma after_open_depth (m : Message) (c : Container.t) (rest0 : list wire)
    (s : rstate) :
  open_depth 0 (consumed_ s.1)
  = open_depth 0 (consumed_ (Message_advance m (WOpen c) rest0)) ->
  open_depth 0 (consumed_ s.1) <> 0%nat.
Proof. rewrite advance_depth. simpl. lia. Qed.

Lemma vector_reads (n : nat) (m : Message) (h : heap) (T : dtype)
    (t vs : list value) (rest0 rest : list wire) (s_end : rstate) :
  let c := Container.mk Container.Array (container_signature (TArray T)) in
  Message_bool m = true ->
  pending_ m = WOpen c :: rest0 ->
  reads_elements rd (Message_advance m (WOpen c) rest0, h)
    (default_value T) vs s_end ->
  pending_ s_end.1 = WClose :: rest ->
  (length vs < n)%nat ->
  Message_read_vector rd n (m, h) T t
  = Ok ((Message_advance s_end.1 WClose rest, s_end.2), VArray T (t ++ vs)).
Proof.
  intros c Hm Hp Hvs Hpe Hn.
  unfold Message_read_vector, on_message. cbn [fst snd].
  fold c. rewrite (read_Container_at m c rest0 Hm Hp).
  change (Message_bool (Message_advance m (WOpen c) rest0))
    with (Message_bool m). rewrite Hm.
  rewrite (read_while_reads rd vs n _ s_end _ t Hvs); [|by unfold
    Message_end; rewrite Hpe|done].
  cbn [mbind res_bind fst snd].
  destruct (reads_elements_keeps rd rd_keeps vs _ _ _ Hvs Hm) as [Hok Hd].
  rewrite (read_ContainerEnd_at s_end.1 rest Hok); [done| |done].
  by eapply after_open_depth.
Qed.

Lemma DBusStruct_reads (m : Message) (h : heap) (fs fs' : list value)
    (rest0 rest : list wire) (s_end : rstate) :
  let c := Container.mk Container.Struct
             (container_signature (TStruct (map type_of fs))) in
  Message_bool m = true ->
  pending_ m = WOpen c :: rest0 ->
  reads_fields rd (Message_advance m (WOpen c) rest0, h) fs fs' s_end ->
  Message_bool s_end.1 = true ->
  pending_ s_end.1 = WClose :: rest ->
  Message_read_DBusStruct rd (m, h) fs
  = Ok ((Message_advance s_end.1 WClose rest, s_end.2), VStruct fs').
Proof.
  intros c Hm Hp Hfs Hok Hpe.
  unfold Message_read_DBusStruct, on_message. cbn [fst snd].
  fold c. rewrite (read_Container_at m c rest0 Hm Hp).
  change (Message_bool (Message_advance m (WOpen c) rest0))
    with (Message_bool m). rewrite Hm.
  pose proof (unmarshall_reads rd fs _ _ _ [] Hfs) as Hu.
  rewrite !app_nil_r in Hu. rewrite Hu.
  cbn [mbind res_bind fst snd]. rewrite Hok.
  destruct (reads_fields_keeps rd rd_keeps fs _ _ _ Hfs Hok) as [_ Hd].
  rewrite (read_ContainerEnd_at s_end.1 rest Hok); [done| |done].
  by eapply after_open_depth.
Qed.

Lemma tuple_reads (s s_end : rstate) (fs fs' : list value) :
  reads_fields rd s fs fs' s_end ->
  Message_read_tuple rd s fs = Ok (s_end, VTuple fs').
Proof.
  intros Hfs. unfold Message_read_tuple.
  pose proof (unmarshall_reads rd fs _ _ _ [] Hfs) as Hu.
  rewrite !app_nil_r in Hu. by rewrite Hu.
Qed.

Lemma DictEntry_reads (m : Message) (h : heap) (k v k' v' : value)
    (rest0 rest : list wire) (s2 s3 : rstate) :
  let c := Container.mk Container.DictEntry
             (container_signature (TDictEntry (type_of k) (type_of v))) in
  Message_bool m = true ->
  pending_ m = WOpen c :: rest0 ->
  rd (Message_advance m (WOpen c) rest0, h) k = Ok (s2, k') ->
  Message_bool s2.1 = true ->
  rd s2 v = Ok (s3, v') ->
  Message_bool s3.1 = true ->
  pending_ s3.1 = WClose :: rest ->
  Message_read_DictEntry rd (m, h) k v
  = Ok ((Message_advance s3.1 WClose rest, s3.2), VDictEntry k' v').
Proof.
  intros c Hm Hp Hk Hok2 Hv Hok3 Hpe.
  unfold Message_read_DictEntry, on_message. cbn [fst snd].
  fold c. rewrite (read_Container_at m c rest0 Hm Hp).
  change (Message_bool (Message_advance m (WOpen c) rest0))
    with (Message_bool m). rewrite Hm.
  rewrite Hk. cbn [mbind res_bind fst snd negb]. rewrite Hok2.
  cbn [negb]. rewrite Hv. cbn [mbind res_bind fst snd negb]. rewrite Hok3.
  cbn [negb].
  destruct (rd_keeps _ _ _ _ Hv Hok3) as [_ Hd3].
  destruct (rd_keeps _ _ _ _ Hk Hok2) as [_ Hd2].
  rewrite (read_ContainerEnd_at s3.1 rest Hok3); [done| |done].
  eapply after_open_depth. etrans; [exact Hd3|exact Hd2].
Qed.
End ReadForward.

(** ** Arrays *)

Lemma encode_basic (f : nat) (h : heap) (p : basic_value) :
  encode (S f) h (VBasic p) = Ok [WBasic p].
Proof. done. Qed.

Lemma concat_singletons (ps : list basic_value) :
  concat (map (fun p => [WBasic p]) ps) = map WBasic ps.
Proof. induction ps as [|p ps IH]; simpl; [done|]. by rewrite IH. Qed.

(** Reading basic elements of one kind, one per round, up to the close
    marker. *)
Lemma reads_basic_elements (f : nat) (reg : VariantTypeRegistry) (h : heap)
    (k : basic) (ps : list basic_value) :
  Forall (fun p => kind_of p = k) ps ->
  forall (cons : list wire) (temp : basic_value) (rest : list wire),
    kind_of temp = k ->
    reads_elements (read (S f) reg)
      (mkMessage cons (map WBasic ps ++ WClose :: rest) true, h)
      (VBasic temp) (map VBasic ps)
      (mkMessage (cons ++ map WBasic ps) (WClose :: rest) true, h).
Proof.
  induction 1 as [|p ps Hp _ IH]; intros cons temp rest Ht; simpl.
  { by rewrite app_nil_r. }
  split; [done|].
  exists (mkMessage (cons ++ [WBasic p]) (map WBasic ps ++ WClose :: rest) true,
          h).
  split.
  - unfold Message_read_basic_into, Message_read_basic. simpl.
    rewrite Ht. rewrite decide_True by done. done.
  - split; [done|].
    specialize (IH (cons ++ [WBasic p]) p rest Hp).
    by rewrite <- app_assoc in IH.
Qed.

(** What the vector operators do, at every element type.  Writing a vector
    into a valid message appends the open marker of an Array container that
    carries the element signature, then the items of every element in
    sequence order, then the close marker.  Reading a vector consumes the
    open marker, then reads into [temp] once per round as long as the
    end-of-container test is false, pushing what [temp] holds after the
    read at the back of the target; when the rounds stop at the close
    marker, that marker is consumed and the cursor stands right behind it,
    nothing after it having been read.  For elements of a basic kind,
    whose read replaces what [temp] held, reading what was written gives
    the elements back, in order, behind those the target held. *)
Theorem vector_order (f : nat) (reg : VariantTypeRegistry) (h : heap) :
  (forall (T : dtype) (m : Message) (xs : list value)
      (toks : list (list wire)),
     Message_bool m = true ->
     Forall2 (fun x tk => encode f h x = Ok tk) xs toks ->
     write (S f) h m (VArray T xs)
     = Ok (Message_append m
             (WOpen (Container.mk Container.Array (signature T))
                :: concat toks ++ [WClose])))
  /\ (forall (T : dtype) (m : Message) (t vs : list value)
        (rest0 rest : list wire) (s_end : rstate),
        let opening := WOpen (Container.mk Container.Array (signature T)) in
        Message_bool m = true ->
        pending_ m = opening :: rest0 ->
        reads_elements (read f reg) (Message_advance m opening rest0, h)
          (default_value T) vs s_end ->
        pending_ s_end.1 = WClose :: rest ->
        (length vs < f)%nat ->
        read (S f) reg (m, h) (VArray T t)
        = Ok ((Message_advance s_end.1 WClose rest, s_end.2),
              VArray T (t ++ vs)))
  /\ (forall (k : basic) (ps : list basic_value) (m : Message)
        (t : list value) (rest : list wire),
        let items := WOpen (Container.mk Container.Array (basic_code k))
                       :: map WBasic ps ++ [WClose] in
        Message_bool m = true ->
        pending_ m = [] ->
        Forall (fun p => kind_of p = k) ps ->
        (length ps < f)%nat ->
        write (S f) h m (VArray (TBasic k) (map VBasic ps))
        = Ok (Message_append m items)
        /\ read (S f) reg (mkMessage (consumed_ m) (items ++ rest) true, h)
             (VArray (TBasic k) t)
           = Ok ((mkMessage (consumed_ m ++ items) rest true, h),
                 VArray (TBasic k) (t ++ map VBasic ps))).
Proof.
  assert (Hwrite : forall (T : dtype) (m : Message) (xs : list value)
            (toks : list (list wire)),
            Message_bool m = true ->
            Forall2 (fun x tk => encode f h x = Ok tk) xs toks ->
            write (S f) h m (VArray T xs)
            = Ok (Message_append m
                    (WOpen (Container.mk Container.Array (signature T))
                       :: concat toks ++ [WClose]))).
  { intros T m xs toks Hm Hall.
    apply Forall2_encode_writes_as in Hall.
    by apply (vector_writes (write f h) T xs toks Hall). }
  assert (Hread : forall (T : dtype) (m : Message) (t vs : list value)
            (rest0 rest : list wire) (s_end : rstate),
            let opening :=
              WOpen (Container.mk Container.Array (signature T)) in
            Message_bool m = true ->
            pending_ m = opening :: rest0 ->
            reads_elements (read f reg) (Message_advance m opening rest0, h)
              (default_value T) vs s_end ->
            pending_ s_end.1 = WClose :: rest ->
            (length vs < f)%nat ->
            read (S f) reg (m, h) (VArray T t)
            = Ok ((Message_advance s_end.1 WClose rest, s_end.2),
                  VArray T (t ++ vs))).
  { intros T m t vs rest0 rest s_end opening Hm Hp Hvs Hpe Hn. simpl.
    by apply (vector_reads (read f reg) (read_keeps f reg) f m h T t vs
                rest0 rest s_end). }
  split; [exact Hwrite|]. split; [exact Hread|].
  intros k ps m t rest items Hm Hp Hkind Hlen.
  destruct f as [|f']; [lia|]. split.
  - rewrite (Hwrite (TBasic k) m (map VBasic ps)
               (map (fun p => [WBasic p]) ps) Hm).
    + by rewrite concat_singletons.
    + clear. induction ps as [|p ps IH]; simpl; constructor; [done|exact IH].
  - pose proof (reads_basic_elements f' reg h k ps Hkind
                  (consumed_ m
                   ++ [WOpen (Container.mk Container.Array (basic_code k))])
                  (default_basic k) rest) as Hchain.
    rewrite (Hread (TBasic k) (mkMessage (consumed_ m) (items ++ rest) true)
               t (map VBasic ps) (map WBasic ps ++ WClose :: rest) rest
               (mkMessage
                  ((consumed_ m
                    ++ [WOpen (Container.mk Container.Array (basic_code k))])
                   ++ map WBasic ps) (WClose :: rest) true, h)).
    + unfold Message_advance, items. simpl. by rewrite <- !app_assoc.
    + done.
    + unfold items. simpl. by rewrite <- app_assoc.
    + apply Hchain. by destruct k.
    + done.
    + by rewrite length_map.
Qed.

(** The list of strings ["a"; "b"], written, then read into a vector that
    already holds "z" from a stream with one more item behind the array;
    and the list of int32 values [3; 1; 3], written and read back. *)
Example vector_order_example :
  let a := VBasic (BString "a") in
  let b := VBasic (BString "b") in
  let z := VBasic (BString "z") in
  let opening := WOpen (Container.mk Container.Array "s") in
  let stream := [opening; WBasic (BString "a"); WBasic (BString "b"); WClose;
                 WBasic (BInt32 9)] in
  let ints := [WOpen (Container.mk Container.Array "i"); WBasic (BInt32 3);
               WBasic (BInt32 1); WBasic (BInt32 3); WClose] in
  let v := VArray (TBasic KInt32)
             [VBasic (BInt32 3); VBasic (BInt32 1); VBasic (BInt32 3)] in
  write 2 [] Message_new (VArray (TBasic KString) [a; b])
  = Ok (mkMessage [] [opening; WBasic (BString "a"); WBasic (BString "b");
                      WClose] true)
  /\ read 4 ∅ (mkMessage [] stream true, []) (VArray (TBasic KString) [z])
     = Ok ((mkMessage [opening; WBasic (BString "a"); WBasic (BString "b");
                       WClose] [WBasic (BInt32 9)] true, []),
           VArray (TBasic KString) [z; a; b])
  /\ write 5 [] Message_new v = Ok (mkMessage [] ints true)
  /\ read 5 ∅ (mkMessage [] ints true, []) (VArray (TBasic KInt32) [])
     = Ok ((mkMessage ints [] true, []), v).
Proof.
  intros a b z opening stream ints v. split; [|split].
  - apply (proj1 (vector_order 1 ∅ []) (TBasic KString) Message_new [a; b]
             [[WBasic (BString "a")]; [WBasic (BString "b")]]);
      [reflexivity|].
    repeat (constructor; [reflexivity|]). constructor.
  - apply (proj1 (proj2 (vector_order 3 ∅ [])) (TBasic KString)
             (mkMessage [] stream true) [z] [a; b]
             [WBasic (BString "a"); WBasic (BString "b"); WClose;
              WBasic (BInt32 9)]
             [WBasic (BInt32 9)]
             (mkMessage [opening; WBasic (BString "a"); WBasic (BString "b")]
                [WClose; WBasic (BInt32 9)] true, []));
      [reflexivity|reflexivity| |reflexivity|simpl; lia].
    simpl. split; [reflexivity|]. eexists. split; [reflexivity|].
    split; [reflexivity|]. split; [reflexivity|].
    eexists. split; [reflexivity|]. split; reflexivity.
  - apply (proj2 (proj2 (vector_order 4 ∅ [])) KInt32
             [BInt32 3; BInt32 1; BInt32 3] Message_new [] []);
      [reflexivity|reflexivity| |simpl; lia].
    repeat (constructor; [reflexivity|]). constructor.
Qed.

(** C4, at an input where the code departs from it.  The vector operator
    declares [temp] once, before its loop, and the operator that reads an
    element appends to its target without clearing it.  With vectors as
    elements, [temp] still holds the elements of the rounds before: the
    array of arrays [[1]; [2]], as the vector operator itself writes it, is
    read back as [[1]; [1; 2]], the message staying valid and the whole
    array being consumed. *)
Theorem C4_nested_vector_decode :
  let inner xs := VArray (TBasic KInt32) (map (fun x => VBasic (BInt32 x)) xs) in
  let v := VArray (TArray (TBasic KInt32)) [inner [1]; inner [2]] in
  let items :=
    [WOpen (Container.mk Container.Array "ai");
     WOpen (Container.mk Container.Array "i"); WBasic (BInt32 1); WClose;
     WOpen (Container.mk Container.Array "i"); WBasic (BInt32 2); WClose;
     WClose] in
  write 3 [] Message_new v = Ok (mkMessage [] items true)
  /\ read 5 ∅ (mkMessage [] items true, [])
       (VArray (TArray (TBasic KInt32)) [])
     = Ok ((mkMessage items [] true, []),
           VArray (TArray (TBasic KInt32)) [inner [1]; inner [1; 2]])
  /\ inner [1; 2] <> inner [2].
Proof. repeat split. discriminate. Qed.

(** ** Structs and tuples *)

Lemma struct_signature_of_basic (ps : list basic_value) :
  map signature (map type_of (map VBasic ps))
  = map (fun p => basic_code (kind_of p)) ps.
Proof. induction ps as [|p ps IH]; simpl; [done|]. by rewrite IH. Qed.

Lemma same_kinds_signature (ts ps : list basic_value) :
  Forall2 (fun t p => kind_of t = kind_of p) ts ps ->
  map (fun p => basic_code (kind_of p)) ts
  = map (fun p => basic_code (kind_of p)) ps.
Proof. induction 1 as [|t p ts ps Hk _ IH]; simpl; [done|]. by rewrite Hk, IH. Qed.

(** Reading basic fields, each into a target of its kind. *)
Lemma reads_basic_fields (f : nat) (reg : VariantTypeRegistry) (h : heap)
    (ts ps : list basic_value) :
  Forall2 (fun t p => kind_of t = kind_of p) ts ps ->
  forall (cons rest : list wire),
    reads_fields (read (S f) reg)
      (mkMessage cons (map WBasic ps ++ rest) true, h)
      (map VBasic ts) (map VBasic ps)
      (mkMessage (cons ++ map WBasic ps) rest true, h).
Proof.
  induction 1 as [|t p ts ps Hk _ IH]; intros cons rest; simpl.
  { by rewrite app_nil_r. }
  exists (mkMessage (cons ++ [WBasic p]) (map WBasic ps ++ rest) true, h).
  split.
  - unfold Message_read_basic_into, Message_read_basic. simpl.
    rewrite Hk. rewrite decide_True by done. done.
  - specialize (IH (cons ++ [WBasic p]) rest).
    by rewrite <- app_assoc in IH.
Qed.

(** C5, as the code has it.  Writing a [DBusStruct] into a valid message
    appends the open marker of a Struct container whose content signature
    is the concatenation of the field signatures, then the items of field
    0, of field 1, and so on up to the last field, then the close marker.
    Reading a [DBusStruct] consumes the open marker, reads the fields in
    the same order, first to last, each from where the one before stopped,
    and consumes the close marker.  A bare [std::tuple] is written and read
    field by field in the same order, through the same [TupleMarshaller],
    with no marker written or consumed around the fields.  For fields of
    basic kinds, reading the [DBusStruct] that was written gives every
    field back in its place. *)
Theorem C5_struct_field_order (f : nat) (reg : VariantTypeRegistry) (h : heap) :
  (forall (fs : list value) (m : Message) (toks : list (list wire)),
     Message_bool m = true ->
     Forall2 (fun x tk => encode f h x = Ok tk) fs toks ->
     write (S f) h m (VStruct fs)
     = Ok (Message_append m
             (WOpen (Container.mk Container.Struct
                       (concat_sig (map signature (map type_of fs))))
                :: concat toks ++ [WClose]))
     /\ write (S f) h m (VTuple fs) = Ok (Message_append m (concat toks)))
  /\ (forall (fs fs' : list value) (m : Message) (rest0 rest : list wire)
        (s_end : rstate),
        let opening :=
          WOpen (Container.mk Container.Struct
                   (concat_sig (map signature (map type_of fs)))) in
        Message_bool m = true ->
        pending_ m = opening :: rest0 ->
        reads_fields (read f reg) (Message_advance m opening rest0, h)
          fs fs' s_end ->
        Message_bool s_end.1 = true ->
        pending_ s_end.1 = WClose :: rest ->
        read (S f) reg (m, h) (VStruct fs)
        = Ok ((Message_advance s_end.1 WClose rest, s_end.2), VStruct fs'))
  /\ (forall (fs fs' : list value) (s s_end : rstate),
        reads_fields (read f reg) s fs fs' s_end ->
        read (S f) reg s (VTuple fs) = Ok (s_end, VTuple fs'))
  /\ (forall (ts ps : list basic_value) (m : Message) (rest : list wire),
        let items :=
          WOpen (Container.mk Container.Struct
                   (concat_sig (map (fun p => basic_code (kind_of p)) ps)))
            :: map WBasic ps ++ [WClose] in
        Message_bool m = true ->
        pending_ m = [] ->
        Forall2 (fun t p => kind_of t = kind_of p) ts ps ->
        (1 <= f)%nat ->
        write (S f) h m (VStruct (map VBasic ps))
        = Ok (Message_append m items)
        /\ read (S f) reg (mkMessage (consumed_ m) (items ++ rest) true, h)
             (VStruct (map VBasic ts))
           = Ok ((mkMessage (consumed_ m ++ items) rest true, h),
                 VStruct (map VBasic ps))).
Proof.
  assert (Hwrite : forall (fs : list value) (m : Message)
            (toks : list (list wire)),
            Message_bool m = true ->
            Forall2 (fun x tk => encode f h x = Ok tk) fs toks ->
            write (S f) h m (VStruct fs)
            = Ok (Message_append m
                    (WOpen (Container.mk Container.Struct
                              (concat_sig (map signature (map type_of fs))))
                       :: concat toks ++ [WClose]))
            /\ write (S f) h m (VTuple fs)
               = Ok (Message_append m (concat toks))).
  { intros fs m toks Hm Hall.
    apply Forall2_encode_writes_as in Hall. split.
    - by apply (DBusStruct_writes (write f h) fs toks Hall).
    - by apply (tuple_writes (write f h) fs toks Hall). }
  assert (Hread : forall (fs fs' : list value) (m : Message)
            (rest0 rest : list wire) (s_end : rstate),
            let opening :=
              WOpen (Container.mk Container.Struct
                       (concat_sig (map signature (map type_of fs)))) in
            Message_bool m = true ->
            pending_ m = opening :: rest0 ->
            reads_fields (read f reg) (Message_advance m opening rest0, h)
              fs fs' s_end ->
            Message_bool s_end.1 = true ->
            pending_ s_end.1 = WClose :: rest ->
            read (S f) reg (m, h) (VStruct fs)
            = Ok ((Message_advance s_end.1 WClose rest, s_end.2),
                  VStruct fs')).
  { intros fs fs' m rest0 rest s_end opening Hm Hp Hfs Hok Hpe. simpl.
    by apply (DBusStruct_reads (read f reg) (read_keeps f reg) m h fs fs'
                rest0 rest s_end). }
  split; [exact Hwrite|]. split; [exact Hread|]. split.
  { intros fs fs' s s_end Hfs. simpl. by apply tuple_reads. }
  intros ts ps m rest items Hm Hp Hkinds Hf.
  destruct f as [|f']; [lia|]. split.
  - destruct (Hwrite (map VBasic ps) m (map (fun p => [WBasic p]) ps) Hm)
      as [Hw _].
    + clear. induction ps as [|p ps IH]; simpl; constructor; [done|exact IH].
    + rewrite Hw. unfold items.
      by rewrite concat_singletons, struct_signature_of_basic.
  - pose (opening :=
            WOpen (Container.mk Container.Struct
                     (concat_sig (map (fun p => basic_code (kind_of p)) ps)))).
    pose proof (reads_basic_fields f' reg h ts ps Hkinds
                  (consumed_ m ++ [opening]) (WClose :: rest)) as Hchain.
    rewrite (Hread (map VBasic ts) (map VBasic ps)
               (mkMessage (consumed_ m) (items ++ rest) true)
               (map WBasic ps ++ WClose :: rest) rest
               (mkMessage ((consumed_ m ++ [opening]) ++ map WBasic ps)
                  (WClose :: rest) true, h)).
    + unfold Message_advance, items. simpl. by rewrite <- !app_assoc.
    + done.
    + unfold items. simpl.
      rewrite struct_signature_of_basic, (same_kinds_signature ts ps Hkinds).
      by rewrite <- app_assoc.
    + rewrite struct_signature_of_basic, (same_kinds_signature ts ps Hkinds).
      exact Hchain.
    + done.
    + done.
Qed.

(** C5 at the struct (true, 2.5) of a boolean and a double: written, then
    read into a default-constructed struct. *)
Lemma C5_struct_field_order_witness :
  let b := VBasic (BBool true) in
  let d := VBasic (BDouble 4612811918334230528) in
  let opening := WOpen (Container.mk Container.Struct "bd") in
  let items := [opening; WBasic (BBool true);
                WBasic (BDouble 4612811918334230528); WClose] in
  write 2 [] Message_new (VStruct [b; d]) = Ok (mkMessage [] items true)
  /\ read 2 ∅ (mkMessage [] items true, [])
       (VStruct [VBasic (BBool false); VBasic (BDouble 0)])
     = Ok ((mkMessage items [] true, []), VStruct [b; d]).
Proof.
  intros b d opening items. split.
  - apply (proj1 (C5_struct_field_order 1 ∅ []) [b; d] Message_new
             [[WBasic (BBool true)]; [WBasic (BDouble 4612811918334230528)]]);
      [reflexivity|].
    repeat (constructor; [reflexivity|]). constructor.
  - apply (proj1 (proj2 (C5_struct_field_order 1 ∅ []))
             [VBasic (BBool false); VBasic (BDouble 0)] [b; d]
             (mkMessage [] items true)
             [WBasic (BBool true); WBasic (BDouble 4612811918334230528);
              WClose]
             []
             (mkMessage [opening; WBasic (BBool true);
                         WBasic (BDouble 4612811918334230528)]
                [WClose] true, []));
      [reflexivity|reflexivity| |reflexivity|reflexivity].
    simpl. eexists. split; [reflexivity|].
    eexists. split; reflexivity.
Defined.

(** The claim C5 as it is worded fails on the code for a bare tuple.  The
    operators for [std::tuple] (lines 376-380 and 467-471) call
    [TupleMarshaller] and nothing else: whenever writing the tuple (1, "a")
    into a new message returns, the message holds the two fields and no
    marker, while the [DBusStruct] of the same fields is written with the
    Struct container around them.  The tuple is read back from its two
    fields; on what the [DBusStruct] operator wrote, the tuple operator
    fails at the open marker and reads nothing. *)
Lemma C5_counterexample :
  let t := VTuple [VBasic (BInt32 1); VBasic (BString "a")] in
  let target := VTuple [VBasic (BInt32 0); VBasic (BString "")] in
  let fields := [WBasic (BInt32 1); WBasic (BString "a")] in
  let opening := WOpen (Container.mk Container.Struct "is") in
  let framed := opening :: fields ++ [WClose] in
  write 2 [] Message_new t = Ok (mkMessage [] fields true)
  /\ (forall f m', write f [] Message_new t = Ok m' ->
        pending_ m' = fields
        /\ (opening ∉ pending_ m') /\ (WClose ∉ pending_ m'))
  /\ write 2 [] Message_new (VStruct [VBasic (BInt32 1); VBasic (BString "a")])
     = Ok (mkMessage [] framed true)
  /\ read 2 ∅ (mkMessage [] fields true, []) target
     = Ok ((mkMessage fields [] true, []), t)
  /\ read 2 ∅ (mkMessage [] framed true, []) target
     = Ok ((mkMessage [] framed false, []), target).
Proof.
  intros t target fields opening framed.
  split; [reflexivity|]. split; [|repeat split].
  intros [|[|f]] m' H; try done. inversion H; subst m'. simpl.
  split; [done|]. split.
  - intros Hin. repeat (apply elem_of_cons in Hin as [Hin|Hin]; [done|]).
    by apply elem_of_nil in Hin.
  - intros Hin. repeat (apply elem_of_cons in Hin as [Hin|Hin]; [done|]).
    by apply elem_of_nil in Hin.
Qed.

(** ** Dict entries *)

(** C6. Writing a [DictEntry] into a valid message appends the open marker
    of a DictEntry container, then the items of the key, then the items of
    the value, then the close marker.  Reading consumes the open marker,
    reads the key, then reads the value from where the key stopped, then
    consumes the close marker.  For a key and a value of basic kinds,
    reading what was written gives the key and the value back. *)
Theorem C6_dict_entry_order (f : nat) (reg : VariantTypeRegistry) (h : heap) :
  (forall (k v : value) (m : Message) (tk tv : list wire),
     Message_bool m = true ->
     encode f h k = Ok tk ->
     encode f h v = Ok tv ->
     write (S f) h m (VDictEntry k v)
     = Ok (Message_append m
             (WOpen (Container.mk Container.DictEntry
                       (signature (type_of k) +:+ signature (type_of v)))
                :: (tk ++ tv) ++ [WClose])))
  /\ (forall (k v k' v' : value) (m : Message) (rest0 rest : list wire)
        (s2 s3 : rstate),
        let opening :=
          WOpen (Container.mk Container.DictEntry
                   (signature (type_of k) +:+ signature (type_of v))) in
        Message_bool m = true ->
        pending_ m = opening :: rest0 ->
        read f reg (Message_advance m opening rest0, h) k = Ok (s2, k') ->
        Message_bool s2.1 = true ->
        read f reg s2 v = Ok (s3, v') ->
        Message_bool s3.1 = true ->
        pending_ s3.1 = WClose :: rest ->
        read (S f) reg (m, h) (VDictEntry k v)
        = Ok ((Message_advance s3.1 WClose rest, s3.2), VDictEntry k' v'))
  /\ (forall (pk pv tk tv : basic_value) (m : Message) (rest : list wire),
        let items :=
          [WOpen (Container.mk Container.DictEntry
                    (basic_code (kind_of pk) +:+ basic_code (kind_of pv)));
           WBasic pk; WBasic pv; WClose] in
        Message_bool m = true ->
        pending_ m = [] ->
        kind_of tk = kind_of pk ->
        kind_of tv = kind_of pv ->
        (1 <= f)%nat ->
        write (S f) h m (VDictEntry (VBasic pk) (VBasic pv))
        = Ok (Message_append m items)
        /\ read (S f) reg (mkMessage (consumed_ m) (items ++ rest) true, h)
             (VDictEntry (VBasic tk) (VBasic tv))
           = Ok ((mkMessage (consumed_ m ++ items) rest true, h),
                 VDictEntry (VBasic pk) (VBasic pv))).
Proof.
  assert (Hwrite : forall (k v : value) (m : Message) (tk tv : list wire),
            Message_bool m = true ->
            encode f h k = Ok tk ->
            encode f h v = Ok tv ->
            write (S f) h m (VDictEntry k v)
            = Ok (Message_append m
                    (WOpen (Container.mk Container.DictEntry
                              (signature (type_of k)
                               +:+ signature (type_of v)))
                       :: (tk ++ tv) ++ [WClose]))).
  { intros k v m tk tv Hm Hk Hv.
    apply encode_writes_as in Hk. apply encode_writes_as in Hv.
    by apply (DictEntry_writes (write f h) k v tk tv Hk Hv). }
  assert (Hread : forall (k v k' v' : value) (m : Message)
            (rest0 rest : list wire) (s2 s3 : rstate),
            let opening :=
              WOpen (Container.mk Container.DictEntry
                       (signature (type_of k) +:+ signature (type_of v))) in
            Message_bool m = true ->
            pending_ m = opening :: rest0 ->
            read f reg (Message_advance m opening rest0, h) k = Ok (s2, k') ->
            Message_bool s2.1 = true ->
            read f reg s2 v = Ok (s3, v') ->
            Message_bool s3.1 = true ->
            pending_ s3.1 = WClose :: rest ->
            read (S f) reg (m, h) (VDictEntry k v)
            = Ok ((Message_advance s3.1 WClose rest, s3.2),
                  VDictEntry k' v')).
  { intros k v k' v' m rest0 rest s2 s3 opening Hm Hp Hk Hok2 Hv Hok3 Hpe.
    simpl.
    by apply (DictEntry_reads (read f reg) (read_keeps f reg) m h k v k' v'
                rest0 rest s2 s3). }
  split; [exact Hwrite|]. split; [exact Hread|].
  intros pk pv tk tv m rest items Hm Hp Hkk Hkv Hf.
  destruct f as [|f']; [lia|]. split.
  - by rewrite (Hwrite (VBasic pk) (VBasic pv) m [WBasic pk] [WBasic pv]).
  - pose (opening :=
            WOpen (Container.mk Container.DictEntry
                     (basic_code (kind_of pk) +:+ basic_code (kind_of pv)))).
    rewrite (Hread (VBasic tk) (VBasic tv) (VBasic pk) (VBasic pv)
               (mkMessage (consumed_ m) (items ++ rest) true)
               (WBasic pk :: WBasic pv :: WClose :: rest) rest
               (mkMessage ((consumed_ m ++ [opening]) ++ [WBasic pk])
                  (WBasic pv :: WClose :: rest) true, h)
               (mkMessage (((consumed_ m ++ [opening]) ++ [WBasic pk])
                           ++ [WBasic pv])
                  (WClose :: rest) true, h)).
    + unfold Message_advance, items. simpl. by rewrite <- !app_assoc.
    + done.
    + unfold items. simpl. by rewrite Hkk, Hkv.
    + simpl. unfold Message_read_basic_into, Message_read_basic,
        Message_advance. simpl. rewrite Hkk, Hkv.
      by rewrite decide_True.
    + done.
    + simpl. unfold Message_read_basic_into, Message_read_basic,
        Message_advance. simpl. rewrite Hkv.
      by rewrite decide_True.
    + done.
    + done.
Qed.

(** C6 at the entry ("k", 5) of a string key and an int32 value. *)
Lemma C6_dict_entry_order_witness :
  let k := VBasic (BString "k") in
  let v := VBasic (BInt32 5) in
  let opening := WOpen (Container.mk Container.DictEntry "si") in
  let items := [opening; WBasic (BString "k"); WBasic (BInt32 5); WClose] in
  write 2 [] Message_new (VDictEntry k v) = Ok (mkMessage [] items true)
  /\ read 2 ∅ (mkMessage [] items true, [])
       (VDictEntry (VBasic (BString "")) (VBasic (BInt32 0)))
     = Ok ((mkMessage items [] true, []), VDictEntry k v).
Proof.
  intros k v opening items. split.
  - by apply (proj1 (C6_dict_entry_order 1 ∅ []) k v Message_new
                [WBasic (BString "k")] [WBasic (BInt32 5)]).
  - by apply (proj1 (proj2 (C6_dict_entry_order 1 ∅ []))
                (VBasic (BString "")) (VBasic (BInt32 0)) k v
                (mkMessage [] items true)
                [WBasic (BString "k"); WBasic (BInt32 5); WClose] []
                (mkMessage [opening; WBasic (BString "k")]
                   [WBasic (BInt32 5); WClose] true, [])
                (mkMessage [opening; WBasic (BString "k"); WBasic (BInt32 5)]
                   [WClose] true, [])).
Defined.

(** ** Decoding a Variant *)

Lemma read_basic_signature_fails (m : Message) :
  Message_bool m = true ->
  (forall sig rest, pending_ m <> WBasic (BSignature sig) :: rest) ->
  Message_read_basic m KSignature = (Message_fail m, None).
Proof.
  intros Hm Hno. unfold Message_read_basic. rewrite Hm.
  destruct (pending_ m) as [|[p|c|] rest] eqn:Hp; try done.
  destruct (decide (kind_of p = KSignature)) as [Hk|]; [|done].
  destruct p; try done. by destruct (Hno sig_ rest).
Qed.

(** Registration keeps every table under its own signature. *)
Lemma registry_wf_empty : registry_wf ∅.
Proof. intros sig T H. by rewrite lookup_empty in H. Qed.

Lemma registerType_wf (string_to_dbus_type : string -> dtype) (T : dtype)
    (reg reg' : VariantTypeRegistry) :
  registry_wf reg ->
  registerType string_to_dbus_type T reg = Some reg' ->
  registry_wf reg'.
Proof.
  unfold registerType, registerTypeImpl. intros Hwf H.
  destruct (decide _); [|done]. inversion H; subst reg'.
  intros sig T' Hl.
  destruct (decide (signature T = sig)) as [<-|Hne].
  - rewrite lookup_insert_eq in Hl. by inversion Hl; subst.
  - rewrite lookup_insert_ne in Hl by done. by apply Hwf.
Qed.

(** C3. Reading a [Variant] from a valid message first reads a signature
    value: if the cursor is not at one, the message becomes invalid and the
    target stays as it was.  The signature read is looked up in the
    registry.  With no table registered for it, the message becomes
    invalid, the target stays as it was and no payload object is created.
    With a table registered, the decode capability of the table reads the
    payload into a new object, and the target then holds that payload, the
    table, and the signature that was read. *)
Theorem C3_variant_decode (f : nat) (reg : VariantTypeRegistry) (m : Message)
    (h : heap) (target : Variant) :
  Message_bool m = true ->
  ((forall sig rest, pending_ m <> WBasic (BSignature sig) :: rest) ->
   read (S f) reg (m, h) (VVariant target)
   = Ok ((Message_fail m, h), VVariant target))
  /\ (forall sig rest,
        pending_ m = WBasic (BSignature sig) :: rest ->
        let m1 := Message_advance m (WBasic (BSignature sig)) rest in
        (lookupType reg sig = None ->
         read (S f) reg (m, h) (VVariant target)
         = Ok ((Message_fail m1, h), VVariant target))
        /\ (forall T s2 pv,
              lookupType reg sig = Some T ->
              registry_wf reg ->
              read f reg (m1, h ++ [default_value T]) (default_value T)
              = Ok (s2, pv) ->
              let h' := <[length h := pv]> s2.2 in
              read (S f) reg (m, h) (VVariant target)
              = Ok ((s2.1, h'),
                    VVariant {| signature_ := sig;
                                data_ := Some (length h);
                                helper_ := Some T |})
              /\ h' !! length h = Some pv
              /\ h `prefix_of` h')).
Proof.
  intros Hm. split.
  - intros Hno. simpl. unfold Message_read_Variant. cbn [fst snd].
    rewrite Hm. cbn [negb].
    by rewrite (read_basic_signature_fails m Hm Hno).
  - intros sig rest Hp m1.
    assert (Hrb : Message_read_basic m KSignature = (m1, Some (BSignature sig))).
    { unfold Message_read_basic. rewrite Hm, Hp. by rewrite decide_True. }
    split.
    + intros Hreg. simpl. unfold Message_read_Variant. cbn [fst snd].
      rewrite Hm. cbn [negb]. by rewrite Hrb, Hreg.
    + intros T s2 pv Hreg Hwf Hrd h'.
      pose proof (read_grows f reg _ _ _ _ Hrd) as Hgrow. simpl in Hgrow.
      split; [|split].
      * simpl. unfold Message_read_Variant. cbn [fst snd].
        rewrite Hm. cbn [negb]. rewrite Hrb, Hreg.
        unfold VariantHelper_copy_null, make_shared,
          VariantHelper_deserialize, deref. cbn [fst snd].
        rewrite snoc_lookup, type_of_default.
        rewrite decide_True by done. cbn [mbind res_bind].
        rewrite Hrd. cbn [mbind res_bind fst snd].
        unfold Variant_setRawData, VariantHelper_signature.
        by rewrite (Hwf sig T Hreg).
      * apply list_lookup_insert_eq.
        apply prefix_length in Hgrow. rewrite length_app in Hgrow.
        simpl in Hgrow. lia.
      * apply prefix_insert_above; [|done].
        etrans; [|exact Hgrow]. by apply prefix_app_r.
Qed.

(** C3 with [uint32] as the only registered type: a variant that carries a
    string cannot be decoded, one that carries the uint32 value 7 can. *)
Lemma C3_variant_decode_witness :
  let reg : gmap string dtype := {[ "u" := TBasic KUInt32 ]} in
  let unknown := mkMessage [] [WBasic (BSignature "s"); WBasic (BString "x")]
                   true in
  let known := mkMessage [] [WBasic (BSignature "u"); WBasic (BUInt32 7)]
                 true in
  read 2 reg (unknown, []) (VVariant Variant_default)
  = Ok ((mkMessage [WBasic (BSignature "s")] [WBasic (BString "x")] false, []),
        VVariant Variant_default)
  /\ read 2 reg (known, []) (VVariant Variant_default)
     = Ok ((mkMessage [WBasic (BSignature "u"); WBasic (BUInt32 7)] [] true,
            [VBasic (BUInt32 7)]),
           VVariant (mkVariant "u" (Some 0%nat) (Some (TBasic KUInt32)))).
Proof.
  intros reg unknown known. split.
  - apply (proj1 (proj2 (C3_variant_decode 1 reg unknown [] Variant_default
                           eq_refl) "s" [WBasic (BString "x")] eq_refl)).
    reflexivity.
  - apply (proj2 (proj2 (C3_variant_decode 1 reg known [] Variant_default
                           eq_refl) "u" [WBasic (BUInt32 7)] eq_refl)
             (TBasic KUInt32)
             (mkMessage [WBasic (BSignature "u"); WBasic (BUInt32 7)] [] true,
              [VBasic (BUInt32 0)])
             (VBasic (BUInt32 7))).
    + reflexivity.
    + intros sig T Hl. unfold reg in Hl.
      apply lookup_singleton_Some in Hl as [<- <-]. reflexivity.
    + reflexivity.
Defined.

(** ** Copying: the copy is deep *)

Lemma fresh_from_concat (n : nat) (xs : list value) :
  Forall (fresh_from n) xs ->
  Forall (fun l => (n <= l)%nat) (concat (map pointers xs)).
Proof.
  induction 1 as [|x xs Hx _ IH]; simpl; [constructor|].
  by apply Forall_app.
Qed.

Lemma fresh_from_mono (n n' : nat) (v : value) :
  (n <= n')%nat -> fresh_from n' v -> fresh_from n v.
Proof.
  unfold fresh_from. intros Hn H. eapply Forall_impl; [exact H|].
  intros l Hl. simpl in Hl. lia.
Qed.

Section CopyDeep.
Variable cp : heap -> value -> res (heap * value).
Hypothesis cp_deep : copies_deeply cp.

Lemma copy_each_deep (xs : list value) :
  forall h h' xs',
    copy_each cp h xs = Ok (h', xs') ->
    h `prefix_of` h'
    /\ map type_of xs' = map type_of xs
    /\ Forall (fresh_from (length h)) xs'
    /\ (forall a cell, h' !! a = Some cell -> (length h <= a)%nat ->
          fresh_from (length h) cell).
Proof.
  induction xs as [|x xs IH]; intros h h' xs' H; simpl in H.
  { inversion H; subst. repeat split; [done|constructor|].
    intros a cell Ha Hle. apply lookup_lt_Some in Ha. lia. }
  apply bind_Ok in H as ([h1 x'] & Hx & H).
  apply bind_Ok in H as ([h2 xs''] & Hxs & H). inversion H; subst.
  destruct (cp_deep _ _ _ _ Hx) as (Hp1 & Ht1 & Hf1 & Hc1).
  destruct (IH _ _ _ Hxs) as (Hp2 & Ht2 & Hf2 & Hc2).
  pose proof (prefix_length _ _ Hp1) as Hlen.
  split; [by etrans|]. split; [simpl; congruence|]. split.
  - constructor; [done|].
    eapply Forall_impl; [exact Hf2|]. intros v. by apply fresh_from_mono.
  - intros a cell Ha Hle.
    destruct (decide (length h1 <= a)%nat) as [Hge|Hlt].
    + eapply fresh_from_mono; [exact Hlen|]. by eapply Hc2.
    + eapply Hc1; [|done].
      destruct Hp2 as [k ->]. rewrite lookup_app_l in Ha by lia. done.
Qed.

Lemma Variant_copy_deep (h h' : heap) (v v' : Variant) :
  Variant_copy cp h v = Ok (h', v') ->
  h `prefix_of` h'
  /\ fresh_from (length h) (VVariant v')
  /\ (forall a cell, h' !! a = Some cell -> (length h <= a)%nat ->
        fresh_from (length h) cell).
Proof.
  unfold Variant_copy, VariantHelper_copy, VariantHelper_copy_null,
    make_shared.
  intros H. destruct (helper_ v) as [T|].
  - apply bind_Ok in H as ([h1 l] & Hc & H). inversion H; subst.
    destruct (data_ v) as [l0|].
    + apply bind_Ok in Hc as (s & _ & Hc).
      apply bind_Ok in Hc as ([h2 s'] & Hcp & Hc). inversion Hc; subst.
      destruct (cp_deep _ _ _ _ Hcp) as (Hp & _ & Hf & Hcell).
      pose proof (prefix_length _ _ Hp) as Hlen.
      split; [etrans; [done|by apply prefix_app_r]|]. split.
      * unfold fresh_from. simpl. by repeat constructor.
      * intros a cell Ha Hle.
        destruct (decide (a = length h2)) as [->|Hne].
        -- rewrite snoc_lookup in Ha. by inversion Ha; subst.
        -- eapply Hcell; [|done].
           apply lookup_lt_Some in Ha as Hlt. rewrite length_app in Hlt.
           simpl in Hlt. rewrite lookup_app_l in Ha by lia. done.
    + inversion Hc; subst.
      split; [by apply prefix_app_r|]. split.
      * unfold fresh_from. simpl. by repeat constructor.
      * intros a cell Ha Hle.
        apply lookup_lt_Some in Ha as Hlt. rewrite length_app in Hlt.
        simpl in Hlt. assert (a = length h) as -> by lia.
        rewrite snoc_lookup in Ha. inversion Ha; subst.
        unfold fresh_from. clear. generalize (length h).
        induction T as [k| |e IH|fs IH|k v IHk IHv|a b IHa IHb|fs IH]
          using dtype_ind'; intros n; simpl; try by constructor.
        -- induction IH as [|x l Hx _ IHl]; simpl; [constructor|].
           apply Forall_app. split; [apply Hx|apply IHl].
        -- apply Forall_app. split; [apply IHk|apply IHv].
        -- apply Forall_app. split; [apply IHa|apply IHb].
        -- induction IH as [|x l Hx _ IHl]; simpl; [constructor|].
           apply Forall_app. split; [apply Hx|apply IHl].
  - inversion H; subst. split; [done|]. split.
    + unfold fresh_from. simpl. constructor.
    + intros a cell Ha Hle. apply lookup_lt_Some in Ha. lia.
Qed.
End CopyDeep.

Lemma copy_value_deep (f : nat) : copies_deeply (copy_value f).
Proof.
  induction f as [|f IH]; intros h v h' v' H; [done|].
  destruct v as [p|var|T xs|fs|k v|a b|fs]; simpl in H.
  - inversion H; subst. repeat split; [done|constructor|].
    intros a cell Ha Hle. apply lookup_lt_Some in Ha. lia.
  - apply bind_Ok in H as ([h1 var'] & Hv & H). inversion H; subst.
    destruct (Variant_copy_deep _ IH _ _ _ _ Hv) as (Hp & Hf & Hc).
    done.
  - apply bind_Ok in H as ([h1 xs'] & Hxs & H). inversion H; subst.
    destruct (copy_each_deep _ IH _ _ _ _ Hxs) as (Hp & Ht & Hf & Hc).
    repeat split; [done| |done]. by apply fresh_from_concat.
  - apply bind_Ok in H as ([h1 fs'] & Hxs & H). inversion H; subst.
    destruct (copy_each_deep _ IH _ _ _ _ Hxs) as (Hp & Ht & Hf & Hc).
    repeat split; [done|simpl; by rewrite Ht| |done].
    by apply fresh_from_concat.
  - apply bind_Ok in H as ([h1 k'] & Hk & H).
    apply bind_Ok in H as ([h2 v''] & Hv & H). inversion H; subst.
    assert (Hxs : copy_each (copy_value f) h [k; v] = Ok (h', [k'; v''])).
    { simpl. rewrite Hk. simpl. by rewrite Hv. }
    destruct (copy_each_deep _ IH _ _ _ _ Hxs) as (Hp & Ht & Hf & Hc).
    inversion Ht. repeat split; [done|simpl; congruence| |done].
    apply (fresh_from_concat _ [k'; v'']) in Hf. simpl in Hf.
    by rewrite app_nil_r in Hf.
  - apply bind_Ok in H as ([h1 a'] & Ha & H).
    apply bind_Ok in H as ([h2 b'] & Hb & H). inversion H; subst.
    assert (Hxs : copy_each (copy_value f) h [a; b] = Ok (h', [a'; b'])).
    { simpl. rewrite Ha. simpl. by rewrite Hb. }
    destruct (copy_each_deep _ IH _ _ _ _ Hxs) as (Hp & Ht & Hf & Hc).
    inversion Ht. repeat split; [done|simpl; congruence| |done].
    apply (fresh_from_concat _ [a'; b']) in Hf. simpl in Hf.
    by rewrite app_nil_r in Hf.
  - apply bind_Ok in H as ([h1 fs'] & Hxs & H). inversion H; subst.
    destruct (copy_each_deep _ IH _ _ _ _ Hxs) as (Hp & Ht & Hf & Hc).
    repeat split; [done|simpl; by rewrite Ht| |done].
    by apply fresh_from_concat.
Qed.

(** ** Copying: enough fuel gives the copy *)

Lemma heap_okb_from_lookup (rank : nat -> nat) (h cells : list value)
    (start i : nat) (pv : value) :
  heap_okb_from rank start h cells = true ->
  cells !! i = Some pv ->
  value_okb rank (rank (start + i)%nat) h pv = true.
Proof.
  revert start i. induction cells as [|c cells IH]; intros start i H Hi;
    [done|].
  simpl in H. apply andb_prop in H as [Hc Hcells].
  destruct i as [|i]; simpl in Hi.
  - inversion Hi; subst. by rewrite Nat.add_0_r.
  - rewrite <- Nat.add_succ_comm. by apply IH.
Qed.

Lemma heap_okb_lookup (rank : nat -> nat) (h : heap) (l : nat) (pv : value) :
  heap_okb rank h = true -> h !! l = Some pv ->
  value_okb rank (rank l) h pv = true.
Proof. intros H Hl. by apply (heap_okb_from_lookup rank h h 0 l pv). Qed.

Lemma forallb_Forall {A : Type} (p : A -> bool) (xs : list A) :
  forallb p xs = true -> Forall (fun x => p x = true) xs.
Proof.
  induction xs as [|x xs IH]; simpl; [constructor|].
  intros H. apply andb_prop in H as [Hx Hxs]. constructor; auto.
Qed.

Lemma copy_each_copyable (h : heap) (xs : list value) :
  Forall (copyable h) xs ->
  exists f0, forall f, (f0 <= f)%nat -> forall hc, h `prefix_of` hc ->
    exists h' xs', copy_each (copy_value f) hc xs = Ok (h', xs').
Proof.
  induction 1 as [|x xs [fx Hx] _ [fxs Hxs]].
  { exists 0%nat. intros f _ hc _. simpl. eauto. }
  exists (Nat.max fx fxs). intros f Hf hc Hp. simpl.
  destruct (Hx f ltac:(lia) hc Hp) as (h1 & x' & Hcx). rewrite Hcx. simpl.
  destruct (copy_value_deep f _ _ _ _ Hcx) as (Hp1 & _).
  destruct (Hxs f ltac:(lia) h1 ltac:(by etrans)) as (h2 & xs' & Hcxs).
  rewrite Hcxs. simpl. eauto.
Qed.

Lemma value_copyable (rank : nat -> nat) (h : heap) :
  heap_okb rank h = true ->
  forall n v, value_okb rank n h v = true -> copyable h v.
Proof.
  intros Hh n. induction n as [n IHn] using lt_wf_ind.
  intros v. induction v as [p|var|T xs IH|fs IH|k v IHk IHv|a b IHa IHb|fs IH]
    using value_ind'; intros Hok; simpl in Hok.
  - exists 1%nat. intros [|f] Hf hc _; [lia|]. simpl. eauto.
  - destruct var as [sig [l|] [T|]]; unfold variant_okb in Hok; simpl in Hok.
    + apply andb_prop in Hok as [Hl Hcell].
      apply bool_decide_eq_true in Hl.
      destruct (h !! l) as [pv|] eqn:Hpv; [|done].
      apply bool_decide_eq_true in Hcell.
      destruct (IHn (rank l) Hl pv (heap_okb_lookup rank h l pv Hh Hpv))
        as [f1 Hf1].
      exists (S f1). intros [|f] Hf hc Hp; [lia|]. simpl.
      unfold Variant_copy, VariantHelper_copy, deref. simpl.
      rewrite (prefix_lookup_Some _ _ _ _ Hpv Hp).
      rewrite decide_True by done. simpl.
      destruct (Hf1 f ltac:(lia) hc Hp) as (h1 & pv' & Hc).
      rewrite Hc. simpl. eauto.
    + exists 1%nat. intros [|f] Hf hc _; [lia|]. simpl. eauto.
    + exists 1%nat. intros [|f] Hf hc _; [lia|]. simpl.
      unfold Variant_copy, VariantHelper_copy. simpl. eauto.
    + exists 1%nat. intros [|f] Hf hc _; [lia|]. simpl. eauto.
  - apply forallb_Forall in Hok.
    assert (Hall : Forall (copyable h) xs).
    { apply Forall_forall. intros x Hx.
      apply (proj1 (Forall_forall _ _) IH x Hx).
      by apply (proj1 (Forall_forall _ _) Hok x Hx). }
    destruct (copy_each_copyable h xs Hall) as [f0 Hf0].
    exists (S f0). intros [|f] Hf hc Hp; [lia|]. simpl.
    destruct (Hf0 f ltac:(lia) hc Hp) as (h1 & xs' & Hc).
    rewrite Hc. simpl. eauto.
  - apply forallb_Forall in Hok.
    assert (Hall : Forall (copyable h) fs).
    { apply Forall_forall. intros x Hx.
      apply (proj1 (Forall_forall _ _) IH x Hx).
      by apply (proj1 (Forall_forall _ _) Hok x Hx). }
    destruct (copy_each_copyable h fs Hall) as [f0 Hf0].
    exists (S f0). intros [|f] Hf hc Hp; [lia|]. simpl.
    destruct (Hf0 f ltac:(lia) hc Hp) as (h1 & xs' & Hc).
    rewrite Hc. simpl. eauto.
  - apply andb_prop in Hok as [Hk Hv].
    destruct (copy_each_copyable h [k; v]) as [f0 Hf0].
    { repeat constructor; auto. }
    exists (S f0). intros [|f] Hf hc Hp; [lia|]. simpl.
    destruct (Hf0 f ltac:(lia) hc Hp) as (h1 & xs' & Hc). simpl in Hc.
    destruct (copy_value f hc k) as [[h2 k']| |]; simpl in Hc; [|done|done].
    destruct (copy_value f h2 v) as [[h3 v']| |] eqn:E2; simpl in Hc;
      [|done|done].
    simpl. rewrite E2. simpl. eauto.
  - apply andb_prop in Hok as [Ha Hb].
    destruct (copy_each_copyable h [a; b]) as [f0 Hf0].
    { repeat constructor; auto. }
    exists (S f0). intros [|f] Hf hc Hp; [lia|]. simpl.
    destruct (Hf0 f ltac:(lia) hc Hp) as (h1 & xs' & Hc). simpl in Hc.
    destruct (copy_value f hc a) as [[h2 a']| |]; simpl in Hc; [|done|done].
    destruct (copy_value f h2 b) as [[h3 b']| |] eqn:E2; simpl in Hc;
      [|done|done].
    simpl. rewrite E2. simpl. eauto.
  - apply forallb_Forall in Hok.
    assert (Hall : Forall (copyable h) fs).
    { apply Forall_forall. intros x Hx.
      apply (proj1 (Forall_forall _ _) IH x Hx).
      by apply (proj1 (Forall_forall _ _) Hok x Hx). }
    destruct (copy_each_copyable h fs Hall) as [f0 Hf0].
    exists (S f0). intros [|f] Hf hc Hp; [lia|]. simpl.
    destruct (Hf0 f ltac:(lia) hc Hp) as (h1 & xs' & Hc).
    rewrite Hc. simpl. eauto.
Qed.


(** ** Copying a Variant *)

Lemma deref_Ok (T : dtype) (h : heap) (l : nat) (s : value) :
  deref T h l = Ok s <-> h !! l = Some s /\ type_of s = T.
Proof.
  unfold deref. destruct (h !! l) as [pv|]; [|split; [done|by intros [? _]]].
  destruct (decide (type_of pv = T)) as [Ht|Hn]; split.
  - intros H. by inversion H; subst.
  - by intros [[= ->] _].
  - done.
  - intros [[= ->] Ht]. done.
Qed.



(** ** The invariant of Variant *)

Lemma consistent_matches (h : heap) (v : Variant) :
  Variant_consistent h v -> payload_matches h v.
Proof.
  unfold Variant_consistent, payload_matches.
  destruct (helper_ v) as [T|]; [|by intros ->].
  intros [Hsig Hd]. destruct (data_ v) as [l|]; [|done].
  destruct Hd as (pv & Hpv & Ht). exists pv. split; [done|congruence].
Qed.

Lemma consistent_prefix (h h' : heap) (v : Variant) :
  h `prefix_of` h' -> Variant_consistent h v -> Variant_consistent h' v.
Proof.
  unfold Variant_consistent. intros Hp.
  destruct (helper_ v) as [T|]; [|done].
  intros [Hsig Hd]. split; [done|].
  destruct (data_ v) as [l|]; [|done].
  destruct Hd as (pv & Hpv & Ht). exists pv.
  split; [by eapply prefix_lookup_Some|done].
Qed.

Section VariantInvariant.
Variable cp : heap -> value -> res (heap * value).
Hypothesis cp_deep : copies_deeply cp.



End VariantInvariant.




Example scenario_int32 :
  encode 1 [] (VBasic (BInt32 42)) = Ok [WBasic (BInt32 42)]
  /\ signature (TBasic KInt32) = "i"
  /\ read 1 ∅ (Message_append Message_new [WBasic (BInt32 42)], [])
       (VBasic (BInt32 0))
     = Ok ((mkMessage [WBasic (BInt32 42)] [] true, []), VBasic (BInt32 42)).
Proof. repeat split. Qed.

Example scenario_strings :
  let v := VArray (TBasic KString) [VBasic (BString "a"); VBasic (BString "b")] in
  signature (type_of v) = "as"
  /\ (m ← write 2 [] Message_new v;
      '(s, r) ← read 4 ∅ (m, []) (VArray (TBasic KString) []);
      Ok (Message_bool s.1, pending_ s.1, r)) = Ok (true, [], v).
Proof. split; reflexivity. Qed.

Example scenario_dict_entry :
  let v := VDictEntry (VBasic (BString "k")) (VBasic (BInt32 5)) in
  signature (type_of v) = "{si}"
  /\ (m ← write 2 [] Message_new v;
      '(s, r) ← read 2 ∅ (m, [])
                  (VDictEntry (VBasic (BString "")) (VBasic (BInt32 0)));
      Ok (Message_bool s.1, pending_ s.1, r)) = Ok (true, [], v).
Proof. split; reflexivity. Qed.

Example scenario_struct :
  let v := VStruct [VBasic (BBool true); VBasic (BDouble 4614253070214989087)] in
  signature (type_of v) = "(bd)"
  /\ (m ← write 2 [] Message_new v;
      '(s, r) ← read 2 ∅ (m, []) (default_value (type_of v));
      Ok (Message_bool s.1, pending_ s.1, r)) = Ok (true, [], v).
Proof. split; reflexivity. Qed.

Example scenario_variant_round_trip :
  let reg : gmap string dtype := {[ "u" := TBasic KUInt32 ]} in
  let h := [VBasic (BUInt32 7)] in
  let v := mkVariant "u" (Some 0%nat) (Some (TBasic KUInt32)) in
  (m ← write 2 h Message_new (VVariant v);
   '(s, r) ← read 2 reg (m, h) (VVariant Variant_default);
   match r with
   | VVariant r' =>
       payload ← Variant_dataAs (TBasic KUInt32) s.2 r';
       Ok (Message_bool s.1, signature_ r', payload)
   | _ => Undefined
   end)
  = Ok (true, "u", VBasic (BUInt32 7)).
Proof. reflexivity. Qed.

Example scenario_rewind :
  let m := mkMessage [] [WBasic (BInt32 42)] true in
  ('(s, r) ← read 1 ∅ (m, []) (VBasic (BInt32 0));
   read 1 ∅ (Message_rewind s.1, s.2) (VBasic (BInt32 0)))
  = Ok ((mkMessage [WBasic (BInt32 42)] [] true, []), VBasic (BInt32 42)).
Proof. reflexivity. Qed.

(** Decoding a variant that holds an array of variants makes the outer
    payload object first and the inner ones after it: the outer object
    points to higher addresses.  The store is well formed for the ranking
    that reverses the addresses, and the decoded variant can be copied. *)
Example decoded_store_is_ranked :
  let reg : gmap string dtype :=
    {[ "u" := TBasic KUInt32; "av" := TArray TVariant ]} in
  let stream :=
    [WBasic (BSignature "av");
     WOpen (Container.mk Container.Array "v");
     WBasic (BSignature "u"); WBasic (BUInt32 7);
     WBasic (BSignature "u"); WBasic (BUInt32 8);
     WClose] in
  let inner a := VVariant (mkVariant "u" (Some a) (Some (TBasic KUInt32))) in
  let h := [VArray TVariant [inner 1%nat; inner 2%nat];
            VBasic (BUInt32 7); VBasic (BUInt32 8)] in
  read 5 reg (mkMessage [] stream true, []) (VVariant Variant_default)
  = Ok ((mkMessage stream [] true, h),
        VVariant (mkVariant "av" (Some 0%nat) (Some (TArray TVariant))))
  /\ heap_okb (fun a => a) h = false
  /\ heap_okb (fun a => 3 - a)%nat h = true
  /\ Variant_copy (copy_value 3) h
       (mkVariant "av" (Some 0%nat) (Some (TArray TVariant)))
     = Ok (h ++ [VBasic (BUInt32 7); VBasic (BUInt32 8);
                 VArray TVariant [inner 3%nat; inner 4%nat]],
           mkVariant "av" (Some 5%nat) (Some (TArray TVariant))).
Proof. repeat split. Qed.

(** * The templates as a whole *)

(** ** A pair is marshalled like a tuple of two fields *)

(** X1. The operators for [std::pair] test the message around each component
    (lines 363-374 and 454-465); the operators for [std::tuple] hand the
    fields to [TupleMarshaller] with no test (lines 376-380 and 467-471).
    As every operator leaves an invalid message alone, the tests change
    nothing: a pair is written as the tuple of its two components is, and
    reading into a pair does to the message, the store and the two
    components what reading into that tuple does. *)
Theorem pair_is_two_field_tuple (f : nat) (reg : VariantTypeRegistry)
    (h : heap) (s : rstate) (a b : value) :
  (vheight a <= f)%nat ->
  (vheight b <= f)%nat ->
  (forall m, write (S f) h m (VPair a b) = write (S f) h m (VTuple [a; b]))
  /\ read (S f) reg s (VTuple [a; b])
     = (r ← read (S f) reg s (VPair a b); Ok (r.1, pair_as_tuple r.2)).
Proof.
  intros Ha Hb. split.
  - intros m. simpl. unfold Message_write_pair, Message_write_tuple. simpl.
    destruct (Message_bool m) eqn:Hm; simpl.
    + destruct (write f h m a) as [m1| |]; simpl; [|done|done].
      destruct (Message_bool m1) eqn:Hm1; simpl; [done|].
      by rewrite write_invalid.
    + rewrite (write_invalid f h m a) by done. simpl.
      by rewrite write_invalid.
  - destruct s as [m hs]. simpl.
    unfold Message_read_pair, Message_read_tuple. simpl.
    destruct (Message_bool m) eqn:Hm; simpl.
    + destruct (read f reg (m, hs) a) as [[[m1 h1] a']| |]; simpl;
        [|done|done].
      destruct (Message_bool m1) eqn:Hm1; simpl.
      * by destruct (read f reg (m1, h1) b) as [[[m2 h2] b']| |].
      * by rewrite read_invalid.
    + rewrite read_invalid by done. simpl. by rewrite read_invalid.
Qed.

(** The pair ("k", 5) against the tuple of the same two components. *)
Lemma pair_is_two_field_tuple_witness :
  let a := VBasic (BString "k") in
  let b := VBasic (BInt32 5) in
  let s := (mkMessage [] [WBasic (BString "k"); WBasic (BBool true)] true,
            @nil value) in
  (forall m, write 2 [] m (VPair a b) = write 2 [] m (VTuple [a; b]))
  /\ read 2 ∅ s (VTuple [a; b])
     = (r ← read 2 ∅ s (VPair a b); Ok (r.1, pair_as_tuple r.2)).
Proof.
  intros a b s.
  apply (pair_is_two_field_tuple 1 ∅ [] s a b); simpl; lia.
Defined.

(** ** The recursion of TupleMarshaller is a loop over the fields *)

Section TupleLoop.
Variable wr : Message -> value -> res Message.
Variable rd : rstate -> value -> res (rstate * value).

Lemma write_each_app (m : Message) (l1 l2 : list value) :
  write_each wr m (l1 ++ l2)
  = write_each wr m l1 ≫= fun m' => write_each wr m' l2.
Proof.
  revert m. induction l1 as [|x l1 IH]; intros m; simpl; [done|].
  destruct (wr m x) as [m1| |]; simpl; [apply IH|done|done].
Qed.

Lemma marshall_take (N : nat) :
  forall (m : Message) (t : list value),
    (N <= length t)%nat ->
    TupleMarshaller_marshall wr N m t = write_each wr m (take N t).
Proof.
  induction N as [|N IH]; intros m t HN; [done|].
  rewrite marshall_S, IH by lia.
  destruct (lookup_lt_is_Some_2 t N) as [x Hx]; [lia|].
  rewrite (take_S_r _ _ _ Hx), write_each_app.
  unfold std_get. rewrite Hx.
  destruct (write_each wr m (take N t)) as [m1| |]; simpl; [|done|done].
  by destruct (wr m1 x).
Qed.

Lemma reads_fields_snoc (fs : list value) :
  forall (s s1 s_end : rstate) (fs' : list value) (x x' : value),
    reads_fields rd s fs fs' s1 ->
    rd s1 x = Ok (s_end, x') ->
    reads_fields rd s (fs ++ [x]) (fs' ++ [x']) s_end.
Proof.
  induction fs as [|y fs IH]; intros s s1 s_end [|y' fs'] x x' H Hx;
    simpl in *; try done.
  - subst s1. by exists s_end.
  - destruct H as (s2 & Hy & H). exists s2. split; [done|]. by eapply IH.
Qed.

Lemma unmarshall_take (N : nat) :
  forall (s s' : rstate) (t t' : list value),
    (N <= length t)%nat ->
    TupleMarshaller_unmarshall rd N s t = Ok (s', t') ->
    exists fs', t' = fs' ++ drop N t /\ reads_fields rd s (take N t) fs' s'.
Proof.
  induction N as [|N IH]; intros s s' t t' HN H.
  { simpl in H. inversion H; subst. exists []. by rewrite drop_0, take_0. }
  rewrite unmarshall_S in H.
  apply bind_Ok in H as ([s1 t1] & H1 & H).
  apply bind_Ok in H as (x & Hx & H).
  apply bind_Ok in H as ([s2 x'] & Hrd & H).
  cbn [fst snd] in *. inversion H; subst s' t'.
  assert (HN' : (N <= length t)%nat) by lia.
  destruct (IH _ _ _ _ HN' H1) as (fs1 & -> & Hfs).
  pose proof (reads_fields_length _ _ _ _ _ Hfs) as Hlen.
  rewrite length_take, Nat.min_l in Hlen by lia.
  destruct (lookup_lt_is_Some_2 t N) as [y Hy]; [lia|].
  unfold std_get in Hx.
  rewrite lookup_app_r, <- Hlen, Nat.sub_diag, lookup_drop, Nat.add_0_r, Hy
    in Hx by lia.
  inversion Hx; subst y.
  exists (fs1 ++ [x']). split.
  - rewrite insert_app_r_alt, <- Hlen, Nat.sub_diag by lia.
    rewrite (drop_S _ _ _ Hy). simpl. by rewrite <- app_assoc.
  - rewrite (take_S_r _ _ _ Hy). by eapply reads_fields_snoc.
Qed.
End TupleLoop.

(** X2. [TupleMarshaller<Tuple, N>] (lines 279-303) recurses from [N] down to
    its specialisations for 1 and 0 and handles field [N - 1] after the
    recursive call.  So, at every element operator: marshalling all the
    fields does what the loop of the vector operator does on the same
    values, first field first, stopping where an element operator does not
    return; unmarshalling all the fields returns [fs'] exactly when the
    fields, read one after the other from first to last, give [fs']; and
    unmarshalling the first [N] fields leaves the other fields of the tuple
    as they were. *)
Theorem tuple_fields_in_order :
  (forall wr m fs,
     TupleMarshaller_marshall wr (length fs) m fs = write_each wr m fs)
  /\ (forall rd s fs s' fs',
        TupleMarshaller_unmarshall rd (length fs) s fs = Ok (s', fs')
        <-> reads_fields rd s fs fs' s')
  /\ (forall rd N s t s' t',
        (N <= length t)%nat ->
        TupleMarshaller_unmarshall rd N s t = Ok (s', t') ->
        length t' = length t /\ drop N t' = drop N t).
Proof.
  split; [|split].
  - intros wr m fs. by rewrite marshall_take, firstn_all.
  - intros rd s fs s' fs'. split.
    + intros H. apply unmarshall_take in H as (fs1 & -> & H); [|done].
      rewrite firstn_all in H. by rewrite drop_all, app_nil_r.
    + intros H. pose proof (unmarshall_reads rd fs s s' fs' [] H) as Hu.
      by rewrite !app_nil_r in Hu.
  - intros rd N s t s' t' HN H.
    apply unmarshall_take in H as (fs1 & -> & H); [|done].
    apply reads_fields_length in H.
    rewrite length_take, Nat.min_l in H by lia.
    split.
    + rewrite length_app, length_drop. lia.
    + rewrite drop_app_length'; [done|lia].
Qed.

(** The tuple (1, "x", true), read from a stream that holds the three
    values, and its first two fields alone. *)
Lemma tuple_fields_in_order_witness :
  let t := [VBasic (BInt32 0); VBasic (BString ""); VBasic (BBool false)] in
  let s := (mkMessage [] [WBasic (BInt32 1); WBasic (BString "x");
                          WBasic (BBool true)] true, @nil value) in
  let s2 := (mkMessage [WBasic (BInt32 1); WBasic (BString "x")]
               [WBasic (BBool true)] true, @nil value) in
  let t2 := [VBasic (BInt32 1); VBasic (BString "x"); VBasic (BBool false)] in
  TupleMarshaller_marshall (write 1 []) 3 Message_new t
  = write_each (write 1 []) Message_new t
  /\ length t2 = length t /\ drop 2 t2 = drop 2 t.
Proof.
  intros t s s2 t2. split.
  - apply (proj1 tuple_fields_in_order (write 1 []) Message_new t).
  - apply (proj2 (proj2 tuple_fields_in_order) (read 1 ∅) 2%nat s t s2 t2).
    + simpl. lia.
    + reflexivity.
Defined.

(** ** Writing only appends *)

Lemma write_each_invalid_inv (wr : Message -> value -> res Message)
    (l : list value) :
  (forall x m m', Message_bool m = false -> wr m x = Ok m' -> m' = m) ->
  forall m m', Message_bool m = false -> write_each wr m l = Ok m' -> m' = m.
Proof.
  intros Hwr. induction l as [|x l IH]; intros m m' Hm H; simpl in H.
  { by inversion H. }
  apply bind_Ok in H as (m1 & H1 & H).
  apply Hwr in H1; [|done]. subst m1. by apply IH.
Qed.

Lemma write_invalid_inv (f : nat) (h : heap) :
  forall v m m', Message_bool m = false -> write f h m v = Ok m' -> m' = m.
Proof.
  induction f as [|f IH]; intros v m m' Hm H; [done|].
  destruct v as [p|var|T xs|fs|k v|a b|fs]; simpl in H.
  - unfold Message_write_basic in H. rewrite Hm in H. by inversion H.
  - unfold Message_write_Variant in H. rewrite Hm in H. by inversion H.
  - unfold Message_write_vector, Message_write_Container in H.
    rewrite Hm in H. cbv zeta in H. rewrite Hm in H. by inversion H.
  - unfold Message_write_DBusStruct, Message_write_Container in H.
    rewrite Hm in H. cbv zeta in H. rewrite Hm in H. by inversion H.
  - unfold Message_write_DictEntry, Message_write_Container in H.
    rewrite Hm in H. cbv zeta in H. rewrite Hm in H. by inversion H.
  - unfold Message_write_pair in H. rewrite Hm in H. by inversion H.
  - unfold Message_write_tuple in H.
    rewrite marshall_take, firstn_all in H by done.
    by eapply (write_each_invalid_inv (write f h) fs IH).
Qed.

(** X3. Whatever value is written, at whatever type, and whether the message
    is valid or not: a write that returns has left the read cursor and the
    items already in the stream where they were and has not changed the
    validity of the message; what it has added comes at the end of the
    stream and closes every container it opens.  On an invalid message
    nothing is added.  On a valid one the items added are the same whatever
    the message holds.  The write operators of basic values, containers
    markers and [Variant] are the modelled ones; the templates of lines
    363-435 and [TupleMarshaller] are composed from them. *)
Theorem write_only_appends (f : nat) (h : heap) (v : value) (m m' : Message) :
  write f h m v = Ok m' ->
  consumed_ m' = consumed_ m
  /\ Message_bool m' = Message_bool m
  /\ exists t,
       pending_ m' = pending_ m ++ t
       /\ balanced t
       /\ (Message_bool m = false -> t = [])
       /\ (Message_bool m = true ->
           forall m2, Message_bool m2 = true ->
             write f h m2 v = Ok (Message_append m2 t)).
Proof.
  intros H. destruct (Message_bool m) eqn:Hm.
  - destruct (write_uniform f h v m m' Hm H) as [t [Hb Ht]].
    rewrite (Ht m Hm) in H. inversion H; subst m'.
    split; [done|]. split; [by rewrite Message_append_ok|].
    exists t. split; [done|]. split; [done|]. split; [done|].
    intros _ m2 Hm2. by apply Ht.
  - apply write_invalid_inv in H; [|done]. subst m'.
    split; [done|]. split; [done|].
    exists []. split; [by rewrite app_nil_r|]. split; [apply balanced_nil|].
    split; [done|]. done.
Qed.

(** A struct of a string and a vector of two int32 values, written behind
    one item that has been read and one that has not. *)
Lemma write_only_appends_witness :
  let v := VStruct [VBasic (BString "a");
                    VArray (TBasic KInt32)
                      [VBasic (BInt32 1); VBasic (BInt32 2)]] in
  let m := mkMessage [WBasic (BBool true)] [WBasic (BInt32 9)] true in
  let t := [WOpen (Container.mk Container.Struct "sai");
            WBasic (BString "a");
            WOpen (Container.mk Container.Array "i");
            WBasic (BInt32 1); WBasic (BInt32 2); WClose; WClose] in
  consumed_ (Message_append m t) = consumed_ m
  /\ Message_bool (Message_append m t) = Message_bool m
  /\ exists t',
       pending_ (Message_append m t) = pending_ m ++ t'
       /\ balanced t'
       /\ (Message_bool m = false -> t' = [])
       /\ (Message_bool m = true ->
           forall m2, Message_bool m2 = true ->
             write 3 [] m2 v = Ok (Message_append m2 t')).
Proof.
  intros v m t.
  apply (write_only_appends 3 [] v m (Message_append m t)). reflexivity.
Defined.

(** ** Reading only moves the cursor *)

Lemma advances_refl (m : Message) : advances m m.
Proof. exists []. split; [by rewrite app_nil_r|done]. Qed.

Lemma advances_trans (m1 m2 m3 : Message) :
  advances m1 m2 -> advances m2 m3 -> advances m1 m3.
Proof.
  intros (t1 & Hc1 & Hp1) (t2 & Hc2 & Hp2). exists (t1 ++ t2). split.
  - by rewrite Hc2, Hc1, app_assoc.
  - by rewrite Hp1, Hp2, app_assoc.
Qed.

Lemma advances_fail (m : Message) : advances m (Message_fail m).
Proof. exists []. split; [simpl; by rewrite app_nil_r|done]. Qed.

Lemma advances_advance (m : Message) (w : wire) (rest : list wire) :
  pending_ m = w :: rest -> advances m (Message_advance m w rest).
Proof. intros Hp. exists [w]. by split. Qed.

Lemma read_basic_advances (m m' : Message) (k : basic)
    (o : option basic_value) :
  Message_read_basic m k = (m', o) -> advances m m'.
Proof.
  unfold Message_read_basic. intros H.
  destruct (Message_bool m); [|inversion H; subst; apply advances_refl].
  destruct (pending_ m) as [|[p|c|] rest] eqn:Hp;
    try (inversion H; subst; apply advances_fail).
  destruct (decide (kind_of p = k)); inversion H; subst;
    [by apply advances_advance|apply advances_fail].
Qed.

Lemma read_Container_advances (m : Message) (c : Container.t) :
  advances m (Message_read_Container m c).
Proof.
  unfold Message_read_Container.
  destruct (Message_bool m); [|apply advances_refl].
  destruct (pending_ m) as [|[p|c'|] rest] eqn:Hp; try apply advances_fail.
  destruct (decide (c' = c)); [by apply advances_advance|apply advances_fail].
Qed.

Lemma read_ContainerEnd_advances (m m' : Message) :
  Message_read_ContainerEnd m = Ok m' -> advances m m'.
Proof.
  unfold Message_read_ContainerEnd. intros H.
  destruct (Message_bool m); [|inversion H; subst; apply advances_refl].
  destruct (open_depth 0 (consumed_ m)); [done|].
  destruct (pending_ m) as [|[p|c'|] rest] eqn:Hp;
    inversion H; subst; try apply advances_fail.
  by apply advances_advance.
Qed.

Section ReadAdvances.
Variable rd : rstate -> value -> res (rstate * value).
Hypothesis rd_advances : only_advances rd.

Lemma unmarshall_advances (N : nat) :
  forall (s s' : rstate) (t t' : list value),
    TupleMarshaller_unmarshall rd N s t = Ok (s', t') ->
    advances s.1 s'.1.
Proof.
  induction N as [|N IH]; intros s s' t t' H.
  { simpl in H. inversion H; subst. apply advances_refl. }
  rewrite unmarshall_S in H.
  apply bind_Ok in H as ([s1 t1] & H1 & H).
  apply bind_Ok in H as (x & _ & H).
  apply bind_Ok in H as ([s2 x'] & Hrd & H).
  simpl in *. inversion H; subst s' t'.
  eapply advances_trans; [by eapply IH|].
  by apply (rd_advances _ _ _ _ Hrd).
Qed.

Lemma read_while_advances (n : nat) :
  forall (s s' : rstate) (temp : value) (t t' : list value),
    read_while rd n s temp t = Ok (s', t') -> advances s.1 s'.1.
Proof.
  induction n as [|n IH]; intros s s' temp t t' H; [done|].
  simpl in H. destruct (Message_end s.1); simpl in H.
  { inversion H; subst. apply advances_refl. }
  apply bind_Ok in H as ([s1 temp1] & Hrd & H).
  pose proof (rd_advances _ _ _ _ Hrd) as H1. simpl in H1.
  destruct (Message_bool s1.1).
  - eapply advances_trans; [done|]. by eapply IH.
  - inversion H; by subst.
Qed.

Lemma pair_advances (s s' : rstate) (a b x' : value) :
  Message_read_pair rd s a b = Ok (s', x') -> advances s.1 s'.1.
Proof.
  unfold Message_read_pair. intros H.
  destruct (Message_bool s.1); simpl in H;
    [|inversion H; subst; apply advances_refl].
  apply bind_Ok in H as ([s1 a'] & Hrd1 & H).
  pose proof (rd_advances _ _ _ _ Hrd1) as H1. simpl in H1.
  destruct (Message_bool s1.1); simpl in H; [|inversion H; by subst].
  apply bind_Ok in H as ([s2 b'] & Hrd2 & H). inversion H; subst.
  eapply advances_trans; [done|]. by apply (rd_advances _ _ _ _ Hrd2).
Qed.

Lemma tuple_advances (s s' : rstate) (t : list value) (x' : value) :
  Message_read_tuple rd s t = Ok (s', x') -> advances s.1 s'.1.
Proof.
  unfold Message_read_tuple. intros H.
  apply bind_Ok in H as ([s1 t1] & Hu & H). inversion H; subst.
  by eapply unmarshall_advances.
Qed.

Lemma DBusStruct_advances (s s' : rstate) (t : list value) (x' : value) :
  Message_read_DBusStruct rd s t = Ok (s', x') -> advances s.1 s'.1.
Proof.
  unfold Message_read_DBusStruct, on_message. cbn [fst snd]. intros H.
  pose proof (read_Container_advances s.1
                (Container.mk Container.Struct
                   (container_signature (TStruct (map type_of t))))) as H1.
  destruct (Message_bool (Message_read_Container s.1 _));
    [|inversion H; by subst].
  apply bind_Ok in H as ([s2 t2] & Hu & H).
  pose proof (unmarshall_advances _ _ _ _ _ Hu) as H2. simpl in H2.
  assert (advances s.1 s2.1) by (by eapply advances_trans).
  destruct (Message_bool s2.1); [|inversion H; by subst].
  apply bind_Ok in H as (m3 & Hend & H). inversion H; subst. simpl.
  eapply advances_trans; [done|]. by apply read_ContainerEnd_advances.
Qed.

Lemma DictEntry_advances (s s' : rstate) (k v x' : value) :
  Message_read_DictEntry rd s k v = Ok (s', x') -> advances s.1 s'.1.
Proof.
  unfold Message_read_DictEntry, on_message. cbn [fst snd]. intros H.
  pose proof (read_Container_advances s.1
                (Container.mk Container.DictEntry
                   (container_signature
                      (TDictEntry (type_of k) (type_of v))))) as H1.
  destruct (Message_bool (Message_read_Container s.1 _));
    [|inversion H; by subst].
  apply bind_Ok in H as ([s2 k'] & Hrd2 & H).
  pose proof (rd_advances _ _ _ _ Hrd2) as H2. simpl in H2.
  assert (advances s.1 s2.1) by (by eapply advances_trans).
  destruct (Message_bool s2.1); simpl in H; [|inversion H; by subst].
  apply bind_Ok in H as ([s3 v'] & Hrd3 & H).
  pose proof (rd_advances _ _ _ _ Hrd3) as H3. simpl in H3.
  assert (advances s.1 s3.1) by (by eapply advances_trans).
  destruct (Message_bool s3.1); simpl in H; [|inversion H; by subst].
  apply bind_Ok in H as (m4 & Hend & H). inversion H; subst. simpl.
  eapply advances_trans; [done|]. by apply read_ContainerEnd_advances.
Qed.

Lemma vector_advances (n : nat) (s s' : rstate) (T : dtype) (t : list value)
    (x' : value) :
  Message_read_vector rd n s T t = Ok (s', x') -> advances s.1 s'.1.
Proof.
  unfold Message_read_vector, on_message. cbn [fst snd]. intros H.
  pose proof (read_Container_advances s.1
                (Container.mk Container.Array
                   (container_signature (TArray T)))) as H1.
  destruct (Message_bool (Message_read_Container s.1 _));
    [|inversion H; by subst].
  apply bind_Ok in H as ([s2 t2] & Hu & H).
  pose proof (read_while_advances _ _ _ _ _ _ Hu) as H2. simpl in H2.
  apply bind_Ok in H as (m3 & Hend & H). inversion H; subst. simpl.
  eapply advances_trans; [done|].
  eapply advances_trans; [done|]. by apply read_ContainerEnd_advances.
Qed.

Lemma Variant_advances (reg : VariantTypeRegistry) (s s' : rstate)
    (target v' : Variant) :
  Message_read_Variant rd reg s target = Ok (s', v') ->
  advances s.1 s'.1.
Proof.
  unfold Message_read_Variant. intros H.
  destruct (Message_bool s.1); simpl in H;
    [|inversion H; subst; apply advances_refl].
  destruct (Message_read_basic s.1 KSignature) as [m1 o] eqn:Hb.
  apply read_basic_advances in Hb.
  destruct o as [[| | | | | | | | | | |sig|]|];
    try (inversion H; by subst).
  destruct (lookupType reg sig) as [T|].
  - unfold VariantHelper_copy_null, make_shared, VariantHelper_deserialize
      in H.
    apply bind_Ok in H as (s2 & H2 & H). inversion H; subst.
    apply bind_Ok in H2 as (s0 & _ & H2).
    apply bind_Ok in H2 as ([st1 x'] & Hrd & H2). inversion H2; subst.
    pose proof (rd_advances _ _ _ _ Hrd) as H1. simpl in *.
    by eapply advances_trans.
  - inversion H; subst. simpl.
    eapply advances_trans; [done|apply advances_fail].
Qed.
End ReadAdvances.

Lemma read_advances (f : nat) (reg : VariantTypeRegistry) :
  only_advances (read f reg).
Proof.
  induction f as [|f IH]; intros s x s' x' H; [done|].
  destruct x as [p|var|T xs|fs|k v|a b|fs]; simpl in H.
  - unfold Message_read_basic_into in H.
    destruct (Message_read_basic s.1 (kind_of p)) as [m1 o] eqn:Hb.
    apply read_basic_advances in Hb.
    destruct o; inversion H; by subst.
  - apply bind_Ok in H as ([s1 var'] & Hv & H). inversion H; subst.
    by eapply Variant_advances.
  - by eapply vector_advances.
  - by eapply DBusStruct_advances.
  - by eapply DictEntry_advances.
  - by eapply pair_advances.
  - by eapply tuple_advances.
Qed.

(** X4. What reading can change, at every type of target and on every stream,
    well formed or not: a read that returns has moved the read cursor
    forward over a segment [t] of the stream and has left the stream itself
    as it was; the payload objects that were in the store are where they
    were, unchanged, new ones come behind them; and if the message is
    valid after the read, it was valid before and the segment closes every
    container it opens, so as many containers are open at the cursor as
    before.  The read operators of basic values, container markers and
    [Variant] are the modelled ones; the templates of lines 454-527 and
    [TupleMarshaller] are composed from them. *)
Theorem read_consumes_segment (f : nat) (reg : VariantTypeRegistry)
    (s s' : rstate) (v v' : value) :
  read f reg s v = Ok (s', v') ->
  (exists t,
     consumed_ s'.1 = consumed_ s.1 ++ t
     /\ pending_ s.1 = t ++ pending_ s'.1
     /\ (Message_bool s'.1 = true ->
         Message_bool s.1 = true
         /\ open_depth 0 (consumed_ s.1 ++ t) = open_depth 0 (consumed_ s.1)))
  /\ s.2 `prefix_of` s'.2.
Proof.
  intros H. split.
  - destruct (read_advances f reg s v s' v' H) as (t & Hc & Hp).
    exists t. split; [done|]. split; [done|].
    intros Hok. destruct (read_keeps f reg s v s' v' H Hok) as [Hs Hd].
    split; [done|]. by rewrite <- Hc.
  - exact (read_grows f reg s v s' v' H).
Qed.

(** Reading a struct of a string and a variant from a stream that holds
    one, with one item before it and one behind. *)
Lemma read_consumes_segment_witness :
  let reg : gmap string dtype := {[ "u" := TBasic KUInt32 ]} in
  let t := [WOpen (Container.mk Container.Struct "sv");
            WBasic (BString "a"); WBasic (BSignature "u");
            WBasic (BUInt32 7); WClose] in
  let s := (mkMessage [WBasic (BBool true)] (t ++ [WBasic (BInt32 9)]) true,
            [VBasic (BString "old")]) in
  let s' := (mkMessage (WBasic (BBool true) :: t) [WBasic (BInt32 9)] true,
             [VBasic (BString "old"); VBasic (BUInt32 7)]) in
  (exists t',
     consumed_ s'.1 = consumed_ s.1 ++ t'
     /\ pending_ s.1 = t' ++ pending_ s'.1
     /\ (Message_bool s'.1 = true ->
         Message_bool s.1 = true
         /\ open_depth 0 (consumed_ s.1 ++ t')
            = open_depth 0 (consumed_ s.1)))
  /\ s.2 `prefix_of` s'.2.
Proof.
  intros reg t s s'.
  apply (read_consumes_segment 3 reg s s'
           (VStruct [VBasic (BString ""); VVariant Variant_default])
           (VStruct [VBasic (BString "a");
                     VVariant (mkVariant "u" (Some 1%nat)
                                 (Some (TBasic KUInt32)))])).
  reflexivity.
Defined.

(** ** The vector operator appends to its target *)

(** The rounds of the loop: the elements pushed are those the successful
    rounds read, each into [temp] as the round before left it, and the loop
    is left at the first round that finds the end of the container or
    whose read fails. *)
Lemma read_while_rounds (rd : rstate -> value -> res (rstate * value))
    (n : nat) :
  forall (s s' : rstate) (temp : value) (t t' : list value),
    read_while rd n s temp t = Ok (s', t') ->
    exists (vs : list value) (s_last : rstate),
      t' = t ++ vs
      /\ reads_elements rd s temp vs s_last
      /\ (s' = s_last /\ Message_end s_last.1 = true
          \/ Message_end s_last.1 = false
             /\ Message_bool s'.1 = false
             /\ exists x, rd s_last (default temp (last vs)) = Ok (s', x)).
Proof.
  induction n as [|n IH]; intros s s' temp t t' H; [done|].
  simpl in H. destruct (Message_end s.1) eqn:Hend; simpl in H.
  { inversion H; subst. exists [], s'. rewrite app_nil_r.
    split; [done|]. split; [done|]. by left. }
  apply bind_Ok in H as ([s1 temp1] & Hrd & H).
  destruct (Message_bool s1.1) eqn:Hok.
  - apply IH in H as (vs & s_last & -> & Hvs & Hstop).
    exists (temp1 :: vs), s_last. split; [by rewrite <- app_assoc|]. split.
    + simpl. split; [done|]. by exists s1.
    + replace (default temp (last (temp1 :: vs)))
        with (default temp1 (last vs)); [done|].
      rewrite last_cons. by destruct (last vs).
  - inversion H; subst. exists [], s. rewrite app_nil_r.
    split; [done|]. split; [done|]. right. split; [done|]. split; [done|].
    by exists temp1.
Qed.

(** X5. [operator>>(std::vector<T> &)] (lines 512-527) never clears its target
    and never takes an element back: at every element operator, whatever
    the stream holds and whether the read succeeds, fails at the open
    marker, fails in the middle of the elements or fails at the close
    marker, the vector it leaves is the vector it found with the elements
    of the successful rounds pushed behind.  These are the elements [vs]:
    the first is what the element operator read into the default-constructed
    [temp], each further one what it read into [temp] as the round before
    left it, every one in a round that found the end-of-container test
    false and left the message valid.  The loop stops, in the state
    [s_last], because the test is true there, or because the read of the
    next round fails; what that read left in [temp] is not pushed.  The
    close marker is then read in the state the loop was left in.  On a
    message that is invalid on entry the vector, the message and the store
    are returned as they are. *)
Theorem vector_read_appends (rd : rstate -> value -> res (rstate * value))
    (n : nat) (s s' : rstate) (T : dtype) (t : list value) (x' : value) :
  Message_read_vector rd n s T t = Ok (s', x') ->
  let s1 :=
    on_message
      (fun m => Message_read_Container m
                  (Container.mk Container.Array
                     (container_signature (TArray T)))) s in
  exists (vs : list value) (s_last s_stop : rstate),
    x' = VArray T (t ++ vs)
    /\ (Message_bool s.1 = false -> vs = [] /\ s' = s)
    /\ (Message_bool s1.1 = false -> vs = [] /\ s' = s1)
    /\ (Message_bool s1.1 = true ->
        reads_elements rd s1 (default_value T) vs s_last
        /\ (s_stop = s_last /\ Message_end s_last.1 = true
            \/ Message_end s_last.1 = false
               /\ Message_bool s_stop.1 = false
               /\ exists x,
                    rd s_last (default (default_value T) (last vs))
                    = Ok (s_stop, x))
        /\ Message_read_ContainerEnd s_stop.1 = Ok s'.1
        /\ s'.2 = s_stop.2).
Proof.
  unfold Message_read_vector, on_message. cbn [fst snd]. intros H.
  destruct (Message_bool (Message_read_Container s.1 _)) eqn:Hc.
  - apply bind_Ok in H as ([s2 t2] & Hu & H).
    apply bind_Ok in H as (m3 & H3 & H). inversion H; subst.
    apply read_while_rounds in Hu as (vs & s_last & -> & Hvs & Hstop).
    exists vs, s_last, s2. split; [done|]. split; [|split].
    + intros Hs. apply read_Container_ok in Hc as [Hs' _]. congruence.
    + simpl. congruence.
    + intros _. split; [exact Hvs|]. split; [|done].
      destruct Hstop as [[-> ?]|?]; [by left|by right].
  - inversion H; subst. exists [], s, s. rewrite app_nil_r.
    split; [done|]. split; [|split].
    + intros Hs. split; [done|].
      unfold Message_read_Container. rewrite Hs. by destruct s.
    + done.
    + simpl. congruence.
Qed.

(** A vector that holds "z" is read from a stream whose array holds "a"
    and then an int32 value: the first round pushes "a", the read of the
    second round fails on the int32 value and nothing more is pushed. *)
Lemma vector_read_appends_witness :
  let opening := WOpen (Container.mk Container.Array "s") in
  let s := (mkMessage [] [opening; WBasic (BString "a"); WBasic (BInt32 1);
                          WClose] true, @nil value) in
  let s1 := (mkMessage [opening] [WBasic (BString "a"); WBasic (BInt32 1);
                                  WClose] true, @nil value) in
  let s' := (mkMessage [opening; WBasic (BString "a")]
               [WBasic (BInt32 1); WClose] false, @nil value) in
  let z := VBasic (BString "z") in
  exists (vs : list value) (s_last s_stop : rstate),
    VArray (TBasic KString) [z; VBasic (BString "a")]
    = VArray (TBasic KString) ([z] ++ vs)
    /\ (Message_bool s.1 = false -> vs = [] /\ s' = s)
    /\ (Message_bool s1.1 = false -> vs = [] /\ s' = s1)
    /\ (Message_bool s1.1 = true ->
        reads_elements (read 1 ∅) s1 (default_value (TBasic KString)) vs
          s_last
        /\ (s_stop = s_last /\ Message_end s_last.1 = true
            \/ Message_end s_last.1 = false
               /\ Message_bool s_stop.1 = false
               /\ exists x,
                    read 1 ∅ s_last
                      (default (default_value (TBasic KString)) (last vs))
                    = Ok (s_stop, x))
        /\ Message_read_ContainerEnd s_stop.1 = Ok s'.1
        /\ s'.2 = s_stop.2).
Proof.
  intros opening s s1 s' z.
  apply (vector_read_appends (read 1 ∅) 3 s s' (TBasic KString) [z]
           (VArray (TBasic KString) [z; VBasic (BString "a")])).
  reflexivity.
Defined.

(** ** Round trips *)

Lemma Forall_exists_Forall2' {A B : Type} (P : A -> B -> Prop) (l : list A) :
  Forall (fun x => exists y, P x y) l -> exists l', Forall2 P l l'.
Proof.
  induction 1 as [|x l [y Hy] _ [l' IH]].
  - by exists [].
  - exists (y :: l'). by constructor.
Qed.

Lemma head_concat_not_close (tokss : list (list wire)) :
  Forall (fun tk => head tk <> Some WClose) tokss ->
  head (concat tokss) <> Some WClose.
Proof.
  induction 1 as [|tk tokss Htk _ IH]; simpl; [done|].
  by destruct tk.
Qed.

Lemma Message_end_items (cons tk rest : list wire) (ok : bool) :
  tk <> [] -> head tk <> Some WClose ->
  Message_end (mkMessage cons (tk ++ rest) ok) = false.
Proof.
  intros Hne Hh. unfold Message_end. simpl.
  destruct tk as [|[p|c|] tk]; simpl in *; congruence.
Qed.

Lemma vheight_le_read_fuel (v : value) : (vheight v <= read_fuel v)%nat.
Proof.
  induction v as [p|var|T xs IH|fs IH|k v IHk IHv|a b IHa IHb|fs IH]
    using value_ind'; simpl; try lia.
  - apply le_n_S. etrans; [|apply Nat.le_max_r].
    induction IH as [|x xs Hx _ IHxs]; simpl; lia.
  - apply le_n_S. induction IH as [|x xs Hx _ IHxs]; simpl; lia.
  - apply le_n_S. induction IH as [|x xs Hx _ IHxs]; simpl; lia.
Qed.

(** Reading a value back from the items [tk] it was written as: the read
    starts in a valid message with the cursor before [tk], in any store, and
    ends behind [tk] in the same store, with the value in the target. *)
Section Chains.
Variable rd : rstate -> value -> res (rstate * value).
Variable hs : list value.
Variable fits : value -> value -> Prop.

Lemma reads_fields_chain (fs : list value) (tokss : list (list wire)) :
  Forall2 (fun x tk => forall tg, fits tg x -> reads_back rd hs tg tk x)
    fs tokss ->
  forall tfs cons rest,
    Forall2 fits tfs fs ->
    reads_fields rd (mkMessage cons (concat tokss ++ rest) true, hs) tfs fs
      (mkMessage (cons ++ concat tokss) rest true, hs).
Proof.
  induction 1 as [|x tk fs tokss Hx _ IH]; intros tfs cons rest Hfits.
  - apply Forall2_nil_inv_r in Hfits as ->. simpl. by rewrite app_nil_r.
  - apply Forall2_cons_inv_r in Hfits as (tg & tfs' & Htg & Hfits & ->).
    simpl. exists (mkMessage (cons ++ tk) (concat tokss ++ rest) true, hs).
    split.
    + rewrite <- app_assoc. by apply Hx.
    + rewrite app_assoc. by apply IH.
Qed.

Lemma reads_elements_chain (xs : list value) (tokss : list (list wire)) :
  Forall2 (fun x tk => tk <> [] /\ head tk <> Some WClose
             /\ forall tg, fits tg x -> reads_back rd hs tg tk x)
    xs tokss ->
  (forall tg x y, fits tg x -> fits tg y -> fits x y) ->
  forall temp cons rest,
    Forall (fits temp) xs ->
    reads_elements rd
      (mkMessage cons (concat tokss ++ WClose :: rest) true, hs) temp xs
      (mkMessage (cons ++ concat tokss) (WClose :: rest) true, hs).
Proof.
  intros Hall Hshift.
  induction Hall as [|x tk xs tokss (Hne & Hh & Hx) _ IH];
    intros temp cons rest Hfits.
  - simpl. by rewrite app_nil_r.
  - apply Forall_cons in Hfits as [Htemp Hfits].
    simpl. rewrite <- app_assoc. split.
    { by apply Message_end_items. }
    exists (mkMessage (cons ++ tk) (concat tokss ++ WClose :: rest) true, hs).
    split; [by apply Hx|]. split; [done|].
    rewrite app_assoc. apply IH.
    eapply Forall_impl; [exact Hfits|]. intros y Hy. by eapply Hshift.
Qed.
End Chains.

Lemma map_type_of_Forall2 (tfs fs : list value) :
  map type_of tfs = map type_of fs ->
  Forall2 (fun tg x => type_of tg = type_of x) tfs fs.
Proof.
  revert fs. induction tfs as [|tg tfs IH]; intros [|x fs] H; simpl in H;
    try done.
  inversion H. constructor; [done|by apply IH].
Qed.

Lemma fields_wire (fs : list value) :
  Forall (fun x => fixed_shape x = true -> exists tk, wire_of_fixed x tk) fs ->
  forallb fixed_shape fs = true ->
  exists tokss, Forall2 wire_of_fixed fs tokss.
Proof.
  intros IH Hfs. apply Forall_exists_Forall2'.
  apply forallb_Forall in Hfs.
  induction IH as [|x fs Hx _ IH]; [constructor|].
  apply Forall_cons in Hfs as [Hfx Hfs]. constructor; [by apply Hx|by apply IH].
Qed.

Lemma wire_fields_at (fs : list value) (tokss : list (list wire)) (f : nat) :
  Forall2 wire_of_fixed fs tokss ->
  (foldr Nat.max 0%nat (map vheight fs) <= f)%nat ->
  (forall h, Forall2 (writes_as (write f h)) fs tokss)
  /\ (forall reg hs,
        Forall2 (fun x tk => forall tg, type_of tg = type_of x ->
                   reads_back (read f reg) hs tg tk x) fs tokss)
  /\ Forall (fun tk => head tk <> Some WClose) tokss.
Proof.
  induction 1 as [|x tk fs tokss (Hh & Hne & Hx) _ IH]; intros Hf.
  { split; [constructor|]. split; constructor. }
  simpl in Hf. destruct IH as (IHw & IHr & IHh); [lia|].
  destruct (Hx f) as [Hw Hr]; [lia|].
  split; [|split].
  - intros h. constructor; [apply Hw|apply IHw].
  - intros reg hs. constructor; [apply Hr|apply IHr].
  - by constructor.
Qed.

Lemma wire_fields_items (fs : list value) (tokss : list (list wire)) :
  Forall2 wire_of_fixed fs tokss ->
  existsb has_items fs = true -> concat tokss <> [].
Proof.
  induction 1 as [|x tk fs tokss (Hh & Hne & Hx) _ IH]; simpl; [done|].
  intros Hex. apply orb_true_iff in Hex as [Hi|Hex].
  - apply Hne in Hi. by destruct tk.
  - apply IH in Hex. destruct tk; simpl; [done|done].
Qed.

(** Every fixed-shape value has a wire form. *)
Lemma fixed_shape_wire (v : value) :
  fixed_shape v = true -> exists toks, wire_of_fixed v toks.
Proof.
  induction v as [p|var|T xs IH|fs IH|k v IHk IHv|a b IHa IHb|fs IH]
    using value_ind'; simpl; intros Hfs; try done.
  - (* a basic value *)
    exists [WBasic p]. split; [done|]. split; [done|].
    intros [|f] Hf; [simpl in Hf; lia|]. split.
    + intros h. split; [apply balanced_basic|].
      intros m Hm. simpl. unfold Message_write_basic. by rewrite Hm.
    + intros reg hs [q| | | | | |] Hty; simpl in Hty; try done.
      injection Hty as Hk. intros cons rest. simpl.
      unfold Message_read_basic_into, Message_read_basic. simpl.
      rewrite decide_True by done. done.
  - (* a struct *)
    destruct (fields_wire fs IH Hfs) as [tokss Hall].
    exists (WOpen (Container.mk Container.Struct
                     (container_signature (TStruct (map type_of fs))))
              :: concat tokss ++ [WClose]).
    split; [done|]. split; [done|].
    intros [|f] Hf; [simpl in Hf; lia|]. simpl in Hf.
    destruct (wire_fields_at fs tokss f Hall) as (Hw & Hr & _); [lia|].
    split.
    + intros h. destruct (DBusStruct_writes (write f h) fs tokss (Hw h))
        as [Hb Hwr].
      split; [done|]. intros m Hm. simpl. by apply Hwr.
    + intros reg hs [| | |tfs| | |] Hty; simpl in Hty; try done.
      injection Hty as Hmap. intros cons rest. simpl.
      pose (opening := WOpen (Container.mk Container.Struct
                     (container_signature (TStruct (map type_of fs))))).
      pose proof (reads_fields_chain (read f reg) hs
                    (fun tg x => type_of tg = type_of x) fs tokss (Hr reg hs)
                    tfs (cons ++ [opening]) (WClose :: rest)
                    (map_type_of_Forall2 _ _ Hmap))
        as Hchain.
      etrans.
      { apply (DBusStruct_reads (read f reg) (read_keeps f reg)
                 (mkMessage cons
                    ((opening :: concat tokss ++ [WClose]) ++ rest) true)
                 hs tfs fs (concat tokss ++ WClose :: rest) rest
                 (mkMessage ((cons ++ [opening]) ++ concat tokss)
                    (WClose :: rest) true, hs)).
        - done.
        - simpl. rewrite Hmap. unfold opening. simpl.
          by rewrite <- app_assoc.
        - simpl. rewrite Hmap. exact Hchain.
        - done.
        - done. }
      unfold Message_advance, opening. simpl. by rewrite <- !app_assoc.
  - (* a dict entry *)
    apply andb_true_iff in Hfs as [Hfk Hfv].
    destruct (IHk Hfk) as (tk & Hhk & Hnk & Hk).
    destruct (IHv Hfv) as (tv & Hhv & Hnv & Hv).
    exists (WOpen (Container.mk Container.DictEntry
                     (container_signature
                        (TDictEntry (type_of k) (type_of v))))
              :: (tk ++ tv) ++ [WClose]).
    split; [done|]. split; [done|].
    intros [|f] Hf; [simpl in Hf; lia|]. simpl in Hf.
    destruct (Hk f) as [Hwk Hrk]; [lia|].
    destruct (Hv f) as [Hwv Hrv]; [lia|].
    split.
    + intros h. destruct (DictEntry_writes (write f h) k v tk tv
                            (Hwk h) (Hwv h)) as [Hb Hwr].
      split; [done|]. intros m Hm. simpl. by apply Hwr.
    + intros reg hs [| | | |k0 v0| |] Hty; simpl in Hty; try done.
      injection Hty as Htk Htv. intros cons rest. simpl.
      pose (opening := WOpen (Container.mk Container.DictEntry
                     (container_signature
                        (TDictEntry (type_of k) (type_of v))))).
      etrans.
      { apply (DictEntry_reads (read f reg) (read_keeps f reg)
                 (mkMessage cons
                    ((opening :: (tk ++ tv) ++ [WClose]) ++ rest) true)
                 hs k0 v0 k v
                 (tk ++ tv ++ WClose :: rest) rest
                 (mkMessage ((cons ++ [opening]) ++ tk)
                    (tv ++ WClose :: rest) true, hs)
                 (mkMessage (((cons ++ [opening]) ++ tk) ++ tv)
                    (WClose :: rest) true, hs)).
        - done.
        - simpl. rewrite Htk, Htv. unfold opening. simpl.
          by rewrite <- !app_assoc.
        - unfold Message_advance. simpl. rewrite Htk, Htv.
          exact (Hrk reg hs k0 Htk (cons ++ [opening])
                   (tv ++ WClose :: rest)).
        - done.
        - exact (Hrv reg hs v0 Htv ((cons ++ [opening]) ++ tk)
                   (WClose :: rest)).
        - done.
        - done. }
      unfold Message_advance, opening. simpl. by rewrite <- !app_assoc.
  - (* a pair *)
    apply andb_true_iff in Hfs as [Hfa Hfb].
    destruct (IHa Hfa) as (ta & Hha & Hna & Ha).
    destruct (IHb Hfb) as (tb & Hhb & Hnb & Hb).
    exists (ta ++ tb).
    split; [by destruct ta|].
    split.
    { intros Hi. apply orb_true_iff in Hi as [Hi|Hi].
      - apply Hna in Hi. by destruct ta.
      - apply Hnb in Hi. by destruct ta, tb. }
    intros [|f] Hf; [simpl in Hf; lia|]. simpl in Hf.
    destruct (Ha f) as [Hwa Hra]; [lia|].
    destruct (Hb f) as [Hwb Hrb]; [lia|].
    split.
    + intros h. destruct (pair_writes (write f h) a b ta tb (Hwa h) (Hwb h))
        as [Hbal Hwr].
      split; [done|]. intros m Hm. simpl. by apply Hwr.
    + intros reg hs [| | | | |a0 b0|] Hty; simpl in Hty; try done.
      injection Hty as Hta Htb. intros cons rest. simpl.
      unfold Message_read_pair. simpl.
      rewrite <- app_assoc, (Hra reg hs a0 Hta cons (tb ++ rest)). simpl.
      rewrite (Hrb reg hs b0 Htb (cons ++ ta) rest). simpl.
      by rewrite <- app_assoc.
  - (* a tuple *)
    destruct (fields_wire fs IH Hfs) as [tokss Hall].
    exists (concat tokss).
    split.
    { apply head_concat_not_close.
      clear -Hall. induction Hall as [|x tk fs tokss (Hh & _) _ IH];
        by constructor. }
    split; [by apply wire_fields_items|].
    intros [|f] Hf; [simpl in Hf; lia|]. simpl in Hf.
    destruct (wire_fields_at fs tokss f Hall) as (Hw & Hr & _); [lia|].
    split.
    + intros h. destruct (tuple_writes (write f h) fs tokss (Hw h))
        as [Hb Hwr].
      split; [done|]. intros m Hm. simpl. by apply Hwr.
    + intros reg hs [| | | | | |tfs] Hty; simpl in Hty; try done.
      injection Hty as Hmap. intros cons rest. simpl.
      apply tuple_reads.
      apply (reads_fields_chain (read f reg) hs
               (fun tg x => type_of tg = type_of x) fs tokss (Hr reg hs)).
      by apply map_type_of_Forall2.
Qed.

(** X6. For a value without vectors and variants, the target's old contents do
    not matter.  Such a value is written as a fixed sequence of items,
    whatever the message and the store; and those items, met in a valid
    message at the cursor, are read back as the value into every target of
    its type, whatever the target held, the cursor ending right behind
    them.  This covers basic values and every nesting of [DBusStruct],
    [DictEntry], pair and tuple over them (lines 363-419 and 454-510). *)
Theorem round_trip_fixed_shape (v : value) :
  fixed_shape v = true ->
  exists toks,
    balanced toks
    /\ forall f h hs reg tg,
         (vheight v <= f)%nat ->
         type_of tg = type_of v ->
         (forall m, Message_bool m = true ->
            write f h m v = Ok (Message_append m toks))
         /\ reads_back (read f reg) hs tg toks v.
Proof.
  intros Hfs. destruct (fixed_shape_wire v Hfs) as (toks & _ & _ & H).
  exists toks. split.
  - destruct (H (vheight v) (Nat.le_refl _)) as [Hw _].
    by destruct (Hw []).
  - intros f h hs reg tg Hf Hty. destruct (H f Hf) as [Hw Hr].
    split; [|by apply Hr]. by destruct (Hw h).
Qed.

(** A struct of a string and a dict entry from int32 to a pair of booleans,
    read into a target that holds other values. *)
Lemma round_trip_fixed_shape_witness :
  let v := VStruct [VBasic (BString "a");
                    VDictEntry (VBasic (BInt32 1))
                      (VPair (VBasic (BBool true)) (VBasic (BBool false)))] in
  exists toks,
    balanced toks
    /\ forall f h hs reg tg,
         (vheight v <= f)%nat ->
         type_of tg = type_of v ->
         (forall m, Message_bool m = true ->
            write f h m v = Ok (Message_append m toks))
         /\ reads_back (read f reg) hs tg toks v.
Proof.
  intros v. apply (round_trip_fixed_shape v). reflexivity.
Defined.

Lemma flat_elements_wire (T : dtype) (xs : list value) :
  forallb (flat_element T) xs = true ->
  Forall (fun x => type_of x = T) xs
  /\ Forall (fun x => has_items x = true) xs
  /\ exists tokss, Forall2 wire_of_fixed xs tokss.
Proof.
  intros H. apply forallb_Forall in H.
  induction H as [|x xs Hx _ (IHt & IHi & tokss & IH)].
  { split; [constructor|]. split; [constructor|]. exists []. constructor. }
  unfold flat_element in Hx.
  apply andb_true_iff in Hx as [Hx Hty].
  apply andb_true_iff in Hx as [Hfs Hi].
  apply bool_decide_eq_true in Hty.
  destruct (fixed_shape_wire x Hfs) as [tk Htk].
  split; [by constructor|]. split; [by constructor|].
  exists (tk :: tokss). by constructor.
Qed.

Lemma wire_elements_at (xs : list value) (tokss : list (list wire)) (f : nat) :
  Forall2 wire_of_fixed xs tokss ->
  Forall (fun x => has_items x = true) xs ->
  (foldr Nat.max 0%nat (map read_fuel xs) <= f)%nat ->
  (forall h, Forall2 (writes_as (write f h)) xs tokss)
  /\ (forall reg hs,
        Forall2 (fun x tk => tk <> [] /\ head tk <> Some WClose
                   /\ forall tg, type_of tg = type_of x ->
                        reads_back (read f reg) hs tg tk x) xs tokss).
Proof.
  induction 1 as [|x tk xs tokss (Hh & Hne & Hx) _ IH]; intros Hi Hf.
  { split; constructor. }
  apply Forall_cons in Hi as [Hix Hi].
  simpl in Hf. destruct IH as (IHw & IHr); [done|lia|].
  pose proof (vheight_le_read_fuel x) as Hvh.
  destruct (Hx f) as [Hw Hr]; [lia|].
  split.
  - intros h. constructor; [apply Hw|apply IHw].
  - intros reg hs. constructor; [|apply IHr].
    split; [by apply Hne|]. split; [done|]. apply Hr.
Qed.

(** A vector of flat elements: its wire form, and what reading it into a
    vector that holds [t] gives. *)
Lemma flat_vector_wire (T : dtype) (xs : list value) :
  forallb (flat_element T) xs = true ->
  exists tokss,
    let toks := WOpen (Container.mk Container.Array
                         (container_signature (TArray T)))
                  :: concat tokss ++ [WClose] in
    forall f, (read_fuel (VArray T xs) <= f)%nat ->
      (forall h, writes_as (write f h) (VArray T xs) toks)
      /\ (forall reg hs t,
            reads_back (read f reg) hs (VArray T t) toks (VArray T (t ++ xs))).
Proof.
  intros Hxs. destruct (flat_elements_wire T xs Hxs) as (Hty & Hi & tokss & Hall).
  exists tokss. intros toks [|f] Hf; [simpl in Hf; lia|]. simpl in Hf.
  destruct (wire_elements_at xs tokss f Hall Hi) as [Hw Hr]; [lia|].
  split.
  - intros h. destruct (vector_writes (write f h) T xs tokss (Hw h))
      as [Hb Hwr].
    split; [done|]. intros m Hm. simpl. by apply Hwr.
  - intros reg hs t cons rest. simpl.
    pose (opening := WOpen (Container.mk Container.Array
                              (container_signature (TArray T)))).
    etrans.
    { apply (vector_reads (read f reg) (read_keeps f reg) f
               (mkMessage cons (toks ++ rest) true) hs T t xs
               (concat tokss ++ WClose :: rest) rest
               (mkMessage ((cons ++ [opening]) ++ concat tokss)
                  (WClose :: rest) true, hs)).
      - done.
      - unfold toks. simpl. by rewrite <- app_assoc.
      - apply (reads_elements_chain (read f reg) hs
                 (fun tg x => type_of tg = type_of x) xs tokss (Hr reg hs)).
        + intros tg x y Hx Hy. congruence.
        + eapply Forall_impl; [exact Hty|]. intros x Hx. simpl.
          by rewrite type_of_default.
      - done.
      - lia. }
    unfold Message_advance, toks, opening. simpl. by rewrite <- !app_assoc.
Qed.

Lemma map_type_of_default (ts : list dtype) :
  map type_of (map default_value ts) = ts.
Proof.
  induction ts as [|T ts IH]; simpl; [done|].
  by rewrite type_of_default, IH.
Qed.

Lemma default_fields_fit (fs : list value) :
  Forall2 (fun tg x => tg = default_value (type_of x))
    (map default_value (map type_of fs)) fs.
Proof. induction fs; simpl; by constructor. Qed.

Lemma flat_fields_wire (fs : list value) :
  Forall (fun x => vectors_flat x = true -> exists tk, wire_of_flat x tk) fs ->
  forallb vectors_flat fs = true ->
  exists tokss, Forall2 wire_of_flat fs tokss.
Proof.
  intros IH Hfs. apply Forall_exists_Forall2'.
  apply forallb_Forall in Hfs.
  induction IH as [|x fs Hx _ IH]; [constructor|].
  apply Forall_cons in Hfs as [Hfx Hfs]. constructor; [by apply Hx|by apply IH].
Qed.

Lemma flat_fields_at (fs : list value) (tokss : list (list wire)) (f : nat) :
  Forall2 wire_of_flat fs tokss ->
  (foldr Nat.max 0%nat (map read_fuel fs) <= f)%nat ->
  (forall h, Forall2 (writes_as (write f h)) fs tokss)
  /\ (forall reg hs,
        Forall2 (fun x tk => forall tg, tg = default_value (type_of x) ->
                   reads_back (read f reg) hs tg tk x) fs tokss).
Proof.
  induction 1 as [|x tk fs tokss Hx _ IH]; intros Hf.
  { split; constructor. }
  simpl in Hf. destruct IH as (IHw & IHr); [lia|].
  destruct (Hx f) as [Hw Hr]; [lia|].
  split.
  - intros h. constructor; [apply Hw|apply IHw].
  - intros reg hs. constructor; [|apply IHr]. intros tg ->. apply Hr.
Qed.

(** Every value whose vectors are flat has a wire form. *)
Lemma vectors_flat_wire (v : value) :
  vectors_flat v = true -> exists toks, wire_of_flat v toks.
Proof.
  induction v as [p|var|T xs IH|fs IH|k v IHk IHv|a b IHa IHb|fs IH]
    using value_ind'; simpl; intros Hfl; try done.
  - (* a basic value *)
    destruct (fixed_shape_wire (VBasic p) eq_refl) as (toks & _ & _ & H).
    exists toks. intros f Hf. destruct (H f Hf) as [Hw Hr].
    split; [done|]. intros reg hs. apply Hr. apply type_of_default.
  - (* a vector *)
    destruct (flat_vector_wire T xs Hfl) as [tokss H].
    eexists. intros f Hf. destruct (H f Hf) as [Hw Hr].
    split; [exact Hw|]. intros reg hs. exact (Hr reg hs []).
  - (* a struct *)
    destruct (flat_fields_wire fs IH Hfl) as [tokss Hall].
    pose (opening := WOpen (Container.mk Container.Struct
                     (container_signature (TStruct (map type_of fs))))).
    exists (opening :: concat tokss ++ [WClose]).
    intros [|f] Hf; [simpl in Hf; lia|]. simpl in Hf.
    destruct (flat_fields_at fs tokss f Hall) as (Hw & Hr); [lia|].
    split.
    + intros h. destruct (DBusStruct_writes (write f h) fs tokss (Hw h))
        as [Hb Hwr].
      split; [done|]. intros m Hm. simpl. by apply Hwr.
    + intros reg hs cons rest. simpl.
      pose proof (reads_fields_chain (read f reg) hs
                    (fun tg x => tg = default_value (type_of x)) fs tokss
                    (Hr reg hs) _ (cons ++ [opening]) (WClose :: rest)
                    (default_fields_fit fs)) as Hchain.
      etrans.
      { apply (DBusStruct_reads (read f reg) (read_keeps f reg)
                 (mkMessage cons
                    ((opening :: concat tokss ++ [WClose]) ++ rest) true)
                 hs (map default_value (map type_of fs)) fs
                 (concat tokss ++ WClose :: rest) rest
                 (mkMessage ((cons ++ [opening]) ++ concat tokss)
                    (WClose :: rest) true, hs)).
        - done.
        - simpl. rewrite map_type_of_default. unfold opening. simpl.
          by rewrite <- app_assoc.
        - simpl. rewrite map_type_of_default. exact Hchain.
        - done.
        - done. }
      unfold Message_advance, opening. simpl. by rewrite <- !app_assoc.
  - (* a dict entry *)
    apply andb_true_iff in Hfl as [Hfk Hfv].
    destruct (IHk Hfk) as (tk & Hk).
    destruct (IHv Hfv) as (tv & Hv).
    pose (opening := WOpen (Container.mk Container.DictEntry
                   (container_signature
                      (TDictEntry (type_of k) (type_of v))))).
    exists (opening :: (tk ++ tv) ++ [WClose]).
    intros [|f] Hf; [simpl in Hf; lia|]. simpl in Hf.
    destruct (Hk f) as [Hwk Hrk]; [lia|].
    destruct (Hv f) as [Hwv Hrv]; [lia|].
    split.
    + intros h. destruct (DictEntry_writes (write f h) k v tk tv
                            (Hwk h) (Hwv h)) as [Hb Hwr].
      split; [done|]. intros m Hm. simpl. by apply Hwr.
    + intros reg hs cons rest. simpl.
      etrans.
      { apply (DictEntry_reads (read f reg) (read_keeps f reg)
                 (mkMessage cons
                    ((opening :: (tk ++ tv) ++ [WClose]) ++ rest) true)
                 hs (default_value (type_of k)) (default_value (type_of v))
                 k v
                 (tk ++ tv ++ WClose :: rest) rest
                 (mkMessage ((cons ++ [opening]) ++ tk)
                    (tv ++ WClose :: rest) true, hs)
                 (mkMessage (((cons ++ [opening]) ++ tk) ++ tv)
                    (WClose :: rest) true, hs)).
        - done.
        - simpl. rewrite !type_of_default. unfold opening. simpl.
          by rewrite <- !app_assoc.
        - unfold Message_advance. simpl. rewrite !type_of_default.
          exact (Hrk reg hs (cons ++ [opening]) (tv ++ WClose :: rest)).
        - done.
        - exact (Hrv reg hs ((cons ++ [opening]) ++ tk) (WClose :: rest)).
        - done.
        - done. }
      unfold Message_advance, opening. simpl. by rewrite <- !app_assoc.
  - (* a pair *)
    apply andb_true_iff in Hfl as [Hfa Hfb].
    destruct (IHa Hfa) as (ta & Ha).
    destruct (IHb Hfb) as (tb & Hb).
    exists (ta ++ tb).
    intros [|f] Hf; [simpl in Hf; lia|]. simpl in Hf.
    destruct (Ha f) as [Hwa Hra]; [lia|].
    destruct (Hb f) as [Hwb Hrb]; [lia|].
    split.
    + intros h. destruct (pair_writes (write f h) a b ta tb (Hwa h) (Hwb h))
        as [Hbal Hwr].
      split; [done|]. intros m Hm. simpl. by apply Hwr.
    + intros reg hs cons rest. simpl.
      unfold Message_read_pair. simpl.
      rewrite <- app_assoc, (Hra reg hs cons (tb ++ rest)). simpl.
      rewrite (Hrb reg hs (cons ++ ta) rest). simpl.
      by rewrite <- app_assoc.
  - (* a tuple *)
    destruct (flat_fields_wire fs IH Hfl) as [tokss Hall].
    exists (concat tokss).
    intros [|f] Hf; [simpl in Hf; lia|]. simpl in Hf.
    destruct (flat_fields_at fs tokss f Hall) as (Hw & Hr); [lia|].
    split.
    + intros h. destruct (tuple_writes (write f h) fs tokss (Hw h))
        as [Hb Hwr].
      split; [done|]. intros m Hm. simpl. by apply Hwr.
    + intros reg hs cons rest. simpl.
      apply tuple_reads.
      apply (reads_fields_chain (read f reg) hs
               (fun tg x => tg = default_value (type_of x)) fs tokss
               (Hr reg hs)).
      apply default_fields_fit.
Qed.

(** X7. The round trip of the composite values.  Take a value without variants
    in which the elements of every vector are of the vector's element type,
    of fixed shape, and not empty on the wire.  It is written as a fixed
    sequence of items that closes every container it opens; and those
    items, met at the cursor of a valid message, are read back as the value
    into a default-constructed object of its type, with the message valid,
    the cursor right behind the items and the store untouched.  Vectors may
    stand anywhere outside the elements of another vector: inside one, the
    element read of the second round would start from what the first round
    left in [temp]. *)
Theorem round_trip_default_target (v : value) :
  vectors_flat v = true ->
  exists toks,
    balanced toks
    /\ forall f h hs reg,
         (read_fuel v <= f)%nat ->
         (forall m, Message_bool m = true ->
            write f h m v = Ok (Message_append m toks))
         /\ reads_back (read f reg) hs (default_value (type_of v)) toks v.
Proof.
  intros Hfl. destruct (vectors_flat_wire v Hfl) as (toks & H).
  exists toks. split.
  - destruct (H (read_fuel v) (Nat.le_refl _)) as [Hw _].
    by destruct (Hw []).
  - intros f h hs reg Hf. destruct (H f Hf) as [Hw Hr].
    split; [|by apply Hr]. by destruct (Hw h).
Qed.

(** A struct of a vector of dict entries from string to int32, a vector of
    doubles that is empty, and a boolean. *)
Lemma round_trip_default_target_witness :
  let e k i := VDictEntry (VBasic (BString k)) (VBasic (BInt32 i)) in
  let v := VStruct [VArray (TDictEntry (TBasic KString) (TBasic KInt32))
                      [e "a" 1; e "b" 2];
                    VArray (TBasic KDouble) [];
                    VBasic (BBool true)] in
  exists toks,
    balanced toks
    /\ forall f h hs reg,
         (read_fuel v <= f)%nat ->
         (forall m, Message_bool m = true ->
            write f h m v = Ok (Message_append m toks))
         /\ reads_back (read f reg) hs (default_value (type_of v)) toks v.
Proof.
  intros e v. apply (round_trip_default_target v). reflexivity.
Defined.

(** ** What a vector of vectors is read back as *)

Lemma accumulate_length {A : Type} (ls : list (list A)) :
  forall acc, length (accumulate acc ls) = length ls.
Proof. induction ls as [|l ls IH]; intros acc; simpl; [done|]. by rewrite IH. Qed.

Lemma reads_elements_accumulate (rd : rstate -> value -> res (rstate * value))
    (hs : list value) (T : dtype) (xss : list (list value))
    (tokss : list (list wire)) :
  Forall2 (fun xs tk => tk <> [] /\ head tk <> Some WClose
             /\ forall t, reads_back rd hs (VArray T t) tk (VArray T (t ++ xs)))
    xss tokss ->
  forall acc cons rest,
    reads_elements rd
      (mkMessage cons (concat tokss ++ WClose :: rest) true, hs)
      (VArray T acc) (map (VArray T) (accumulate acc xss))
      (mkMessage (cons ++ concat tokss) (WClose :: rest) true, hs).
Proof.
  induction 1 as [|xs tk xss tokss (Hne & Hh & Hx) _ IH];
    intros acc cons rest.
  - simpl. by rewrite app_nil_r.
  - simpl. rewrite <- app_assoc. split.
    { by apply Message_end_items. }
    exists (mkMessage (cons ++ tk) (concat tokss ++ WClose :: rest) true, hs).
    split; [by apply Hx|]. split; [done|].
    rewrite app_assoc. apply IH.
Qed.

(** X8. The vector operator on a vector of vectors, in general.  [temp] is
    declared once (line 520) and the read of an inner vector pushes onto
    what [temp] holds (line 522), so every element read carries the
    elements of all the inner vectors before it: the vectors [l1; l2; l3]
    of flat elements, as the write operator puts them on the wire, are read
    back as [l1; l1 ++ l2; l1 ++ l2 ++ l3], behind what the target held,
    with the message valid and the whole array consumed. *)
Theorem nested_vector_accumulates (T : dtype) (xss : list (list value)) :
  Forall (fun xs => forallb (flat_element T) xs = true) xss ->
  let v := VArray (TArray T) (map (VArray T) xss) in
  exists toks,
    forall f h hs reg t,
      (read_fuel v <= f)%nat ->
      (forall m, Message_bool m = true ->
         write f h m v = Ok (Message_append m toks))
      /\ reads_back (read f reg) hs (VArray (TArray T) t) toks
           (VArray (TArray T) (t ++ map (VArray T) (accumulate [] xss))).
Proof.
  intros Hall v.
  assert (Hin : exists tokss, Forall2 (fun xs tk =>
            tk <> [] /\ head tk <> Some WClose
            /\ forall f, (read_fuel (VArray T xs) <= f)%nat ->
                 (forall h, writes_as (write f h) (VArray T xs) tk)
                 /\ (forall reg hs t,
                       reads_back (read f reg) hs (VArray T t) tk
                         (VArray T (t ++ xs)))) xss tokss).
  { apply Forall_exists_Forall2'.
    eapply Forall_impl; [exact Hall|]. intros xs Hxs. simpl.
    destruct (flat_vector_wire T xs Hxs) as [tokss H].
    eexists. split; [|split; [|exact H]]; done. }
  destruct Hin as [tokss Hin].
  pose (opening := WOpen (Container.mk Container.Array
                            (container_signature (TArray (TArray T))))).
  exists (opening :: concat tokss ++ [WClose]).
  intros [|f] h hs reg t Hf; [simpl in Hf; lia|].
  unfold v in Hf. simpl in Hf. rewrite length_map in Hf.
  assert (Hat : (forall h, Forall2 (writes_as (write f h))
                             (map (VArray T) xss) tokss)
                /\ (forall reg hs, Forall2 (fun xs tk =>
                      tk <> [] /\ head tk <> Some WClose
                      /\ forall t, reads_back (read f reg) hs (VArray T t) tk
                                     (VArray T (t ++ xs))) xss tokss)).
  { assert (Hfuel : (foldr Nat.max 0%nat
                       (map read_fuel (map (VArray T) xss)) <= f)%nat) by lia.
    clear -Hin Hfuel.
    induction Hin as [|xs tk xss tokss (Hne & Hh & Hx) _ IH].
    { split; constructor. }
    simpl in Hfuel. destruct IH as [IHw IHr]; [lia|].
    destruct (Hx f) as [Hw Hr]; [simpl; lia|].
    split.
    - intros h. constructor; [apply Hw|apply IHw].
    - intros reg hs. constructor; [|apply IHr]. split; [done|]. split; [done|].
      apply Hr. }
  destruct Hat as [Hw Hr]. split.
  - intros m Hm. unfold v.
    destruct (vector_writes (write f h) (TArray T) (map (VArray T) xss) tokss
                (Hw h)) as [Hb Hwr].
    simpl. by apply Hwr.
  - intros cons rest. simpl.
    etrans.
    { apply (vector_reads (read f reg) (read_keeps f reg) f
               (mkMessage cons ((opening :: concat tokss ++ [WClose]) ++ rest)
                  true) hs (TArray T) t
               (map (VArray T) (accumulate [] xss))
               (concat tokss ++ WClose :: rest) rest
               (mkMessage ((cons ++ [opening]) ++ concat tokss)
                  (WClose :: rest) true, hs)).
      - done.
      - unfold opening. simpl. by rewrite <- app_assoc.
      - apply (reads_elements_accumulate (read f reg) hs T xss tokss
                 (Hr reg hs) [] (cons ++ [opening]) rest).
      - done.
      - rewrite length_map, accumulate_length. lia. }
    unfold Message_advance, opening. simpl. by rewrite <- !app_assoc.
Qed.

(** The vectors [[1]; [2]; []; [3]] of int32 values are read back as
    [[1]; [1; 2]; [1; 2]; [1; 2; 3]]. *)
Lemma nested_vector_accumulates_witness :
  let i x := VBasic (BInt32 x) in
  let T := TBasic KInt32 in
  let v := VArray (TArray T) (map (VArray T) [[i 1]; [i 2]; []; [i 3]]) in
  exists toks,
    forall f h hs reg t,
      (read_fuel v <= f)%nat ->
      (forall m, Message_bool m = true ->
         write f h m v = Ok (Message_append m toks))
      /\ reads_back (read f reg) hs (VArray (TArray T) t) toks
           (VArray (TArray T)
              (t ++ map (VArray T)
                      [[i 1]; [i 1; i 2]; [i 1; i 2]; [i 1; i 2; i 3]])).
Proof.
  intros i T v.
  apply (nested_vector_accumulates T [[i 1]; [i 2]; []; [i 3]]).
  repeat (constructor; [reflexivity|]). constructor.
Defined.
(** ** The registry keeps one type per signature *)

(** X10. [registerType<TypeName>] (lines 117-126) only compiles when [TypeName]
    is the type that its own signature string stands for.  So two types
    that can both be registered and have the same signature are the same
    type: a registration never replaces the operations table of another
    type.  After a registration the type is found under its signature and
    every other signature is answered as before; and the order in which
    two types are registered makes no difference.  The table itself,
    [registerTypeImpl] and [lookupType], is the modelled one. *)
Theorem registerType_one_type_per_signature
    (string_to_dbus_type : string -> dtype) :
  (forall T1 T2 reg1 reg2 r1 r2,
     registerType string_to_dbus_type T1 reg1 = Some r1 ->
     registerType string_to_dbus_type T2 reg2 = Some r2 ->
     signature T1 = signature T2 -> T1 = T2)
  /\ (forall T reg r,
        registerType string_to_dbus_type T reg = Some r ->
        lookupType r (signature T) = Some T
        /\ forall sig, sig <> signature T ->
             lookupType r sig = lookupType reg sig)
  /\ (forall T1 T2 reg r1 r12,
        registerType string_to_dbus_type T1 reg = Some r1 ->
        registerType string_to_dbus_type T2 r1 = Some r12 ->
        exists r2,
          registerType string_to_dbus_type T2 reg = Some r2
          /\ registerType string_to_dbus_type T1 r2 = Some r12).
Proof.
  assert (Hone : forall T1 T2 (reg1 reg2 r1 r2 : gmap string dtype),
            registerType string_to_dbus_type T1 reg1 = Some r1 ->
            registerType string_to_dbus_type T2 reg2 = Some r2 ->
            signature T1 = signature T2 -> T1 = T2).
  { unfold registerType. intros T1 T2 reg1 reg2 r1 r2 H1 H2 Hsig.
    destruct (decide (T1 = _)) as [E1|]; [|done].
    destruct (decide (T2 = _)) as [E2|]; [|done].
    rewrite E1, E2. by rewrite Hsig. }
  split; [exact Hone|]. split.
  - unfold registerType, registerTypeImpl, lookupType. intros T reg r H.
    destruct (decide (T = _)); [|done]. inversion H; subst r. split.
    + apply lookup_insert_eq.
    + intros sig Hsig. by apply lookup_insert_ne.
  - intros T1 T2 reg r1 r12 H1 H2.
    pose proof H1 as H1'. pose proof H2 as H2'.
    unfold registerType, registerTypeImpl in H1, H2 |- *.
    destruct (decide (T1 = _)) as [E1|]; [|done].
    destruct (decide (T2 = _)) as [E2|]; [|done].
    inversion H1; subst r1. inversion H2; subst r12.
    eexists. split; [done|]. f_equal.
    destruct (decide (signature T1 = signature T2)) as [Hsig|Hsig].
    + rewrite (Hone _ _ _ _ _ _ H1' H2' Hsig).
      by rewrite !insert_insert_eq.
    + by apply insert_insert_ne.
Qed.

(** With uint32 for [u] and string for [s]: the two can be registered in
    either order, and a tuple of one uint32, whose signature is also [u],
    cannot be registered at all. *)
Lemma registerType_one_type_per_signature_witness :
  let s2t (sig : string) :=
    if decide (sig = "u") then TBasic KUInt32 else TBasic KString in
  let reg : gmap string dtype :=
    <[ "s" := TBasic KString ]> (<[ "u" := TBasic KUInt32 ]> ∅) in
  (exists r2,
     registerType s2t (TBasic KString) ∅ = Some r2
     /\ registerType s2t (TBasic KUInt32) r2 = Some reg)
  /\ registerType s2t (TTuple [TBasic KUInt32]) ∅ = None.
Proof.
  intros s2t reg. split.
  - apply (proj2 (proj2 (registerType_one_type_per_signature s2t))
             (TBasic KUInt32) (TBasic KString) ∅
             (<[ "u" := TBasic KUInt32 ]> ∅) reg); reflexivity.
  - reflexivity.
Defined.

(** ** A copy is written and displayed as its source *)

Lemma deref_prefix (T : dtype) (h h2 : list value) (l : nat) (s : value) :
  h `prefix_of` h2 -> deref T h l = Ok s -> deref T h2 l = Ok s.
Proof.
  intros Hpre H. apply deref_Ok in H as [Hl Hty]. apply deref_Ok.
  split; [|done]. by eapply prefix_lookup_Some.
Qed.

(** The write templates, run on related elements with related element
    operators, give the same message. *)
Section WriteRelated.
Variable wr1 wr2 : Message -> value -> res Message.
Variable R : value -> value -> Prop.
Hypothesis R_type : forall x x', R x x' -> type_of x' = type_of x.
Hypothesis R_write :
  forall x x' m m', R x x' -> wr1 m x = Ok m' -> wr2 m x' = Ok m'.

Lemma related_types (fs fs' : list value) :
  Forall2 R fs fs' -> map type_of fs' = map type_of fs.
Proof. induction 1; simpl; [done|]. f_equal; [by apply R_type|done]. Qed.

Lemma write_each_related (xs xs' : list value) :
  Forall2 R xs xs' ->
  forall m m', write_each wr1 m xs = Ok m' -> write_each wr2 m xs' = Ok m'.
Proof.
  induction 1 as [|x x' xs xs' Hx _ IH]; intros m m' H; simpl in *; [done|].
  apply bind_Ok in H as (m1 & H1 & H).
  rewrite (R_write _ _ _ _ Hx H1). simpl. by apply IH.
Qed.

Lemma marshall_related (fs fs' : list value) (m m' : Message) :
  Forall2 R fs fs' ->
  TupleMarshaller_marshall wr1 (length fs) m fs = Ok m' ->
  TupleMarshaller_marshall wr2 (length fs') m fs' = Ok m'.
Proof.
  intros Hall H.
  rewrite marshall_take, firstn_all in H by done.
  rewrite marshall_take, firstn_all by done.
  by eapply write_each_related.
Qed.

Lemma pair_related (a a' b b' : value) (m m' : Message) :
  R a a' -> R b b' ->
  Message_write_pair wr1 m a b = Ok m' ->
  Message_write_pair wr2 m a' b' = Ok m'.
Proof.
  unfold Message_write_pair. intros Ha Hb H.
  destruct (Message_bool m); simpl in *; [|done].
  apply bind_Ok in H as (m1 & H1 & H).
  rewrite (R_write _ _ _ _ Ha H1). simpl.
  destruct (Message_bool m1); simpl in *; [|done].
  by eapply R_write.
Qed.

Lemma DBusStruct_related (fs fs' : list value) (m m' : Message) :
  Forall2 R fs fs' ->
  Message_write_DBusStruct wr1 m fs = Ok m' ->
  Message_write_DBusStruct wr2 m fs' = Ok m'.
Proof.
  unfold Message_write_DBusStruct. intros Hall H.
  rewrite (related_types _ _ Hall). cbv zeta in *.
  destruct (Message_bool (Message_write_Container m _)); [|done].
  apply bind_Ok in H as (m2 & H2 & H).
  by rewrite (marshall_related _ _ _ _ Hall H2).
Qed.

Lemma DictEntry_related (k k' v v' : value) (m m' : Message) :
  R k k' -> R v v' ->
  Message_write_DictEntry wr1 m k v = Ok m' ->
  Message_write_DictEntry wr2 m k' v' = Ok m'.
Proof.
  unfold Message_write_DictEntry. intros Hk Hv H.
  rewrite (R_type _ _ Hk), (R_type _ _ Hv). cbv zeta in *.
  destruct (Message_bool (Message_write_Container m _)); [|done].
  apply bind_Ok in H as (m2 & H2 & H).
  rewrite (R_write _ _ _ _ Hk H2). simpl.
  destruct (Message_bool m2); simpl in *; [|done].
  apply bind_Ok in H as (m3 & H3 & H).
  by rewrite (R_write _ _ _ _ Hv H3).
Qed.

Lemma vector_related (T : dtype) (xs xs' : list value) (m m' : Message) :
  Forall2 R xs xs' ->
  Message_write_vector wr1 m T xs = Ok m' ->
  Message_write_vector wr2 m T xs' = Ok m'.
Proof.
  unfold Message_write_vector. intros Hall H. cbv zeta in *.
  destruct (Message_bool (Message_write_Container m _)); [|done].
  apply bind_Ok in H as (m2 & H2 & H).
  by rewrite (write_each_related _ _ Hall _ _ H2).
Qed.
End WriteRelated.

Lemma Forall2_same {A : Type} (P : A -> A -> Prop) (l : list A) :
  (forall x, P x x) -> Forall2 P l l.
Proof. intros HP. induction l; by constructor. Qed.

(** Payload objects added behind those of the store do not change what is
    written. *)
Lemma write_prefix (g : nat) (h h2 : list value) :
  h `prefix_of` h2 ->
  forall v m m', write g h m v = Ok m' -> write g h2 m v = Ok m'.
Proof.
  intros Hpre. induction g as [|g IH]; intros v m m' H; [done|].
  assert (Heq : forall x x' m m', x = x' ->
            write g h m x = Ok m' -> write g h2 m x' = Ok m').
  { intros x x' m0 m0' <-. apply IH. }
  assert (Hty : forall x x' : value, x = x' -> type_of x' = type_of x)
    by (by intros x x' <-).
  assert (Hall : forall l : list value, Forall2 eq l l)
    by (intros l; by apply Forall2_same).
  destruct v as [p|var|T xs|fs|k v|a b|fs]; simpl in *.
  - done.
  - unfold Message_write_Variant, Variant_writeToMessage,
      VariantHelper_serialize in *.
    destruct (Message_bool m); simpl in *; [|done].
    destruct (helper_ var) as [T|]; [|done].
    destruct (data_ var) as [l|]; [|done].
    apply bind_Ok in H as (s & Hs & H).
    rewrite (deref_prefix _ _ _ _ _ Hpre Hs). simpl. by apply IH.
  - by eapply (vector_related _ _ eq Heq).
  - by eapply (DBusStruct_related _ _ eq Hty Heq).
  - by eapply (DictEntry_related _ _ eq Hty Heq).
  - by eapply (pair_related _ _ eq Heq).
  - unfold Message_write_tuple in *.
    by eapply (marshall_related _ _ eq Heq).
Qed.

Lemma copy_each_related {I : Type}
    (cp : heap -> value -> res (heap * value))
    (obs : I -> list value -> value -> Prop) :
  copies_deeply cp ->
  (forall i h h2 v, h `prefix_of` h2 -> obs i h v -> obs i h2 v) ->
  (forall i h0 x h1 x', cp h0 x = Ok (h1, x') -> obs i h0 x -> obs i h1 x') ->
  forall xs h0 h1 xs',
    copy_each cp h0 xs = Ok (h1, xs') ->
    Forall2 (fun x x' => type_of x' = type_of x
               /\ forall i, obs i h0 x -> obs i h1 x') xs xs'.
Proof.
  intros Hdeep Hmono Hcp.
  induction xs as [|x xs IH]; intros h0 h1 xs' H; simpl in H.
  { inversion H; subst. constructor. }
  apply bind_Ok in H as ([ha x'] & Hx & H).
  apply bind_Ok in H as ([hb xs''] & Hxs & H). inversion H; subst.
  destruct (Hdeep _ _ _ _ Hx) as (Hpre1 & Hty & _).
  destruct (copy_each_deep cp Hdeep xs _ _ _ Hxs) as (Hpre2 & _).
  constructor.
  - split; [done|]. intros i Hw.
    eapply Hmono; [exact Hpre2|]. by eapply Hcp.
  - eapply Forall2_impl; [by eapply IH|].
    intros y y' [Hty' Hy]. split; [done|]. intros i Hw.
    apply Hy. by eapply Hmono.
Qed.

Lemma copy_writes_alike (g : nat) :
  forall f h0 v h1 v',
    copy_value f h0 v = Ok (h1, v') ->
    forall m m', write g h0 m v = Ok m' -> write g h1 m v' = Ok m'.
Proof.
  induction g as [|g IH]; intros f h0 v h1 v' Hc m m' H; [done|].
  destruct f as [|f]; [done|].
  set (obs := fun (i : Message * Message) (h : list value) (x : value) =>
                write g h i.1 x = Ok i.2).
  assert (Hlist : forall xs h0 h1 xs',
            copy_each (copy_value f) h0 xs = Ok (h1, xs') ->
            Forall2 (fun x x' => type_of x' = type_of x
                       /\ forall i, obs i h0 x -> obs i h1 x') xs xs').
  { apply (copy_each_related (copy_value f) obs (copy_value_deep f)).
    - intros i h h2 x Hpre. by apply write_prefix.
    - intros i h2 x h3 x' Hx. by apply (IH f _ _ _ _ Hx). }
  set (R := fun x x' : value =>
              type_of x' = type_of x
              /\ forall i, obs i h0 x -> obs i h1 x').
  assert (HRt : forall x x', R x x' -> type_of x' = type_of x)
    by (by intros x x' [? _]).
  assert (HRw : forall x x' m m', R x x' ->
            write g h0 m x = Ok m' -> write g h1 m x' = Ok m')
    by (intros x x' m0 m0' [_ HR]; apply (HR (m0, m0'))).
  destruct v as [p|var|T xs|fs|k v|a b|fs]; simpl in Hc, H |- *.
  - inversion Hc; by subst.
  - apply bind_Ok in Hc as ([h2 var'] & Hv & Hc). inversion Hc; subst.
    simpl. unfold Message_write_Variant, Variant_writeToMessage,
      VariantHelper_serialize in *.
    destruct (Message_bool m); simpl in *; [|done].
    unfold Variant_copy, VariantHelper_copy in Hv.
    destruct (helper_ var) as [T|]; [|inversion Hv; by subst].
    destruct (data_ var) as [l|]; [|done].
    apply bind_Ok in H as (s & Hs & H).
    apply bind_Ok in Hv as ([h3 l'] & Hv & Hv'). inversion Hv'; subst.
    rewrite Hs in Hv. simpl in Hv.
    apply bind_Ok in Hv as ([h4 s'] & Hcs & Hv).
    unfold make_shared in Hv. inversion Hv; subst. simpl.
    destruct (copy_value_deep f _ _ _ _ Hcs) as (_ & Hty & _).
    apply deref_Ok in Hs as [_ HT].
    unfold deref. rewrite snoc_lookup.
    rewrite decide_True by congruence. simpl.
    eapply write_prefix; [by apply prefix_app_r|]. by eapply IH.
  - apply bind_Ok in Hc as ([h2 xs'] & Hxs & Hc). inversion Hc; subst.
    simpl. eapply (vector_related _ _ R HRw);
      [exact (Hlist _ _ _ _ Hxs)|exact H].
  - apply bind_Ok in Hc as ([h2 xs'] & Hxs & Hc). inversion Hc; subst.
    simpl. eapply (DBusStruct_related _ _ R HRt HRw);
      [exact (Hlist _ _ _ _ Hxs)|exact H].
  - apply bind_Ok in Hc as ([h2 k'] & Hk & Hc).
    apply bind_Ok in Hc as ([h3 v0] & Hv & Hc). inversion Hc; subst.
    simpl.
    destruct (copy_value_deep f _ _ _ _ Hk) as (Hp1 & Hty1 & _).
    destruct (copy_value_deep f _ _ _ _ Hv) as (Hp2 & Hty2 & _).
    eapply (DictEntry_related _ _ R HRt HRw); [| |exact H].
    + split; [done|]. intros [m0 m0'] Hw.
      eapply write_prefix; [exact Hp2|]. by eapply IH.
    + split; [done|]. intros [m0 m0'] Hw.
      eapply IH; [exact Hv|]. by eapply write_prefix.
  - apply bind_Ok in Hc as ([h2 a'] & Ha & Hc).
    apply bind_Ok in Hc as ([h3 b'] & Hb & Hc). inversion Hc; subst.
    simpl.
    destruct (copy_value_deep f _ _ _ _ Ha) as (Hp1 & Hty1 & _).
    destruct (copy_value_deep f _ _ _ _ Hb) as (Hp2 & Hty2 & _).
    eapply (pair_related _ _ R HRw); [| |exact H].
    + split; [done|]. intros [m0 m0'] Hw.
      eapply write_prefix; [exact Hp2|]. by eapply IH.
    + split; [done|]. intros [m0 m0'] Hw.
      eapply IH; [exact Hb|]. by eapply write_prefix.
  - apply bind_Ok in Hc as ([h2 xs'] & Hxs & Hc). inversion Hc; subst.
    simpl. unfold Message_write_tuple in *.
    eapply (marshall_related _ _ R HRw);
      [exact (Hlist _ _ _ _ Hxs)|exact H].
Qed.

Lemma mapM_related {A B : Type} (f g : A -> res B) (R : A -> A -> Prop)
    (xs xs' : list A) :
  Forall2 R xs xs' ->
  (forall x x' s, R x x' -> f x = Ok s -> g x' = Ok s) ->
  forall ss, mapM f xs = Ok ss -> mapM g xs' = Ok ss.
Proof.
  intros Hall HR.
  induction Hall as [|x x' xs xs' Hx _ IH]; intros ss H; simpl in *; [done|].
  apply bind_Ok in H as (s & Hs & H).
  apply bind_Ok in H as (ss' & Hss & H).
  rewrite (HR _ _ _ Hx Hs). simpl. by rewrite (IH _ Hss).
Qed.

(** Payload objects added behind those of the store do not change what is
    displayed. *)
Lemma log_prefix (g : nat) (style : LogStyle) (h h2 : list value) :
  h `prefix_of` h2 ->
  forall v s, log_value g style h v = Ok s -> log_value g style h2 v = Ok s.
Proof.
  intros Hpre. induction g as [|g IH]; intros v s H; [done|].
  assert (Hlist : forall xs ss,
            mapM (log_value g style h) xs = Ok ss ->
            mapM (log_value g style h2) xs = Ok ss).
  { intros xs ss. apply (mapM_related _ _ eq).
    - by apply Forall2_same.
    - intros x x' s0 <-. apply IH. }
  destruct v as [p|var|T xs|fs|k v|a b|fs]; simpl in *.
  - done.
  - unfold log_Variant, Variant_printData, VariantHelper_print in *.
    destruct (helper_ var) as [T|]; [|done].
    destruct (data_ var) as [l|]; [|done].
    apply bind_Ok in H as (content & H & Hs).
    apply bind_Ok in H as (pv & Hpv & H).
    rewrite (deref_prefix _ _ _ _ _ Hpre Hpv). simpl.
    by rewrite (IH _ _ H).
  - apply bind_Ok in H as (ss & Hss & H). by rewrite (Hlist _ _ Hss).
  - apply bind_Ok in H as (ss & Hss & H). by rewrite (Hlist _ _ Hss).
  - apply bind_Ok in H as (sk & Hk & H).
    apply bind_Ok in H as (sv & Hv & H).
    by rewrite (IH _ _ Hk), (IH _ _ Hv).
  - apply bind_Ok in H as (sa & Ha & H).
    apply bind_Ok in H as (sb & Hb & H).
    by rewrite (IH _ _ Ha), (IH _ _ Hb).
  - apply bind_Ok in H as (ss & Hss & H). by rewrite (Hlist _ _ Hss).
Qed.

Lemma copy_logs_alike (g : nat) (style : LogStyle) :
  forall f h0 v h1 v',
    copy_value f h0 v = Ok (h1, v') ->
    forall s, log_value g style h0 v = Ok s -> log_value g style h1 v' = Ok s.
Proof.
  induction g as [|g IH]; intros f h0 v h1 v' Hc s H; [done|].
  destruct f as [|f]; [done|].
  set (obs := fun (s : string) (h : list value) (x : value) =>
                log_value g style h x = Ok s).
  assert (Hlist : forall xs h0 h1 xs' ss,
            copy_each (copy_value f) h0 xs = Ok (h1, xs') ->
            mapM (log_value g style h0) xs = Ok ss ->
            mapM (log_value g style h1) xs' = Ok ss).
  { intros xs h2 h3 xs' ss Hxs.
    eapply mapM_related.
    - apply (copy_each_related (copy_value f) obs (copy_value_deep f));
        [| |exact Hxs].
      + intros i h h' x Hpre. by apply log_prefix.
      + intros i h x h' x' Hx. by apply (IH f _ _ _ _ Hx).
    - intros x x' s0 [_ Hx]. apply Hx. }
  destruct v as [p|var|T xs|fs|k v|a b|fs]; simpl in Hc, H |- *.
  - inversion Hc; by subst.
  - apply bind_Ok in Hc as ([h2 var'] & Hv & Hc). inversion Hc; subst.
    simpl. unfold log_Variant, Variant_printData, VariantHelper_print in *.
    unfold Variant_copy, VariantHelper_copy in Hv.
    destruct (helper_ var) as [T|]; [|inversion Hv; by subst].
    destruct (data_ var) as [l|]; [|done].
    apply bind_Ok in H as (content & H & Hs).
    apply bind_Ok in H as (pv & Hpv & H).
    apply bind_Ok in Hv as ([h3 l'] & Hv & Hv'). inversion Hv'; subst.
    rewrite Hpv in Hv. simpl in Hv.
    apply bind_Ok in Hv as ([h4 pv'] & Hcs & Hv).
    unfold make_shared in Hv. inversion Hv; subst. simpl.
    destruct (copy_value_deep f _ _ _ _ Hcs) as (_ & Hty & _).
    apply deref_Ok in Hpv as [_ HT].
    unfold deref. rewrite snoc_lookup.
    rewrite decide_True by congruence. simpl.
    rewrite (log_prefix g style h4 (h4 ++ [pv']) (prefix_app_r _ _ _
               (reflexivity _)) pv' content (IH f _ _ _ _ Hcs _ H)).
    done.
  - apply bind_Ok in Hc as ([h2 xs'] & Hxs & Hc). inversion Hc; subst.
    apply bind_Ok in H as (ss & Hss & H). simpl.
    by rewrite (Hlist _ _ _ _ _ Hxs Hss).
  - apply bind_Ok in Hc as ([h2 xs'] & Hxs & Hc). inversion Hc; subst.
    apply bind_Ok in H as (ss & Hss & H). simpl.
    by rewrite (Hlist _ _ _ _ _ Hxs Hss).
  - apply bind_Ok in Hc as ([h2 k'] & Hk & Hc).
    apply bind_Ok in Hc as ([h3 v0] & Hv & Hc). inversion Hc; subst.
    apply bind_Ok in H as (sk & Hsk & H).
    apply bind_Ok in H as (sv & Hsv & H). simpl.
    destruct (copy_value_deep f _ _ _ _ Hk) as (Hp1 & _).
    destruct (copy_value_deep f _ _ _ _ Hv) as (Hp2 & _).
    rewrite (log_prefix g style _ _ Hp2 _ _ (IH f _ _ _ _ Hk _ Hsk)).
    simpl.
    by rewrite (IH f _ _ _ _ Hv _ (log_prefix g style _ _ Hp1 _ _ Hsv)).
  - apply bind_Ok in Hc as ([h2 a'] & Ha & Hc).
    apply bind_Ok in Hc as ([h3 b'] & Hb & Hc). inversion Hc; subst.
    apply bind_Ok in H as (sa & Hsa & H).
    apply bind_Ok in H as (sb & Hsb & H). simpl.
    destruct (copy_value_deep f _ _ _ _ Ha) as (Hp1 & _).
    destruct (copy_value_deep f _ _ _ _ Hb) as (Hp2 & _).
    rewrite (log_prefix g style _ _ Hp2 _ _ (IH f _ _ _ _ Ha _ Hsa)).
    simpl.
    by rewrite (IH f _ _ _ _ Hb _ (log_prefix g style _ _ Hp1 _ _ Hsb)).
  - apply bind_Ok in Hc as ([h2 xs'] & Hxs & Hc). inversion Hc; subst.
    apply bind_Ok in H as (ss & Hss & H). simpl.
    by rewrite (Hlist _ _ _ _ _ Hxs Hss).
Qed.

(** X11. The copy constructor and the copy assignment of [Variant] (lines
    147-161) copy the payload through [VariantHelper::copy] (lines 86-92).
    Whatever a value holds, variants inside variants included: if writing
    it to a message returns, writing its copy to the same message returns
    the same message; and the source, after the copy, is still written as
    before.  The payload is written by [VariantHelper::serialize] (lines
    93-96); the operator that writes a [Variant] is the modelled one. *)
Theorem copy_is_written_alike (f g : nat) (h h' : heap) (v v' : value)
    (m m' : Message) :
  copy_value f h v = Ok (h', v') ->
  write g h m v = Ok m' ->
  write g h' m v' = Ok m' /\ write g h' m v = Ok m'.
Proof.
  intros Hc Hw. split.
  - by eapply copy_writes_alike.
  - destruct (copy_value_deep f _ _ _ _ Hc) as [Hpre _].
    by eapply write_prefix.
Qed.

(** A variant that holds a vector of two variants, copied and written. *)
Lemma copy_is_written_alike_witness :
  let u := TBasic KUInt32 in
  let inner a := VVariant (mkVariant "u" (Some a) (Some u)) in
  let h := [VBasic (BUInt32 7); VBasic (BUInt32 8);
            VArray TVariant [inner 0%nat; inner 1%nat]] in
  let h' := h ++ [VBasic (BUInt32 7); VBasic (BUInt32 8);
                  VArray TVariant [inner 3%nat; inner 4%nat]] in
  let v := VVariant (mkVariant "av" (Some 2%nat) (Some (TArray TVariant))) in
  let v' := VVariant (mkVariant "av" (Some 5%nat) (Some (TArray TVariant))) in
  let m' := mkMessage []
              [WBasic (BSignature "av");
               WOpen (Container.mk Container.Array "v");
               WBasic (BSignature "u"); WBasic (BUInt32 7);
               WBasic (BSignature "u"); WBasic (BUInt32 8);
               WClose] true in
  write 5 h' Message_new v' = Ok m' /\ write 5 h' Message_new v = Ok m'.
Proof.
  intros u inner h h' v v' m'.
  apply (copy_is_written_alike 4 5 h h' v v' Message_new m'); reflexivity.
Defined.

(** X12. The display of a copy.  [operator<<(LogMessageBuilder &, const Variant
    &)] (lines 568-574) prints the signature and, through [printData]
    (lines 195-199) and [VariantHelper::print] (lines 101-104), the
    payload.  If displaying a value returns a text, displaying its copy
    returns the same text, however the log renders scalars, vectors and
    tuples; and the source, after the copy, is still displayed as
    before. *)
Theorem copy_is_displayed_alike (f g : nat) (style : LogStyle) (h h' : heap)
    (v v' : value) (s : string) :
  copy_value f h v = Ok (h', v') ->
  log_value g style h v = Ok s ->
  log_value g style h' v' = Ok s /\ log_value g style h' v = Ok s.
Proof.
  intros Hc Hl. split.
  - by eapply copy_logs_alike.
  - destruct (copy_value_deep f _ _ _ _ Hc) as [Hpre _].
    by eapply log_prefix.
Qed.

(** A variant that holds a dict entry from a string to a variant, copied
    and displayed. *)
Lemma copy_is_displayed_alike_witness :
  let style := mkLogStyle (fun _ => "?") (fun _ => "[]") (fun _ => "()") in
  let entry a := VDictEntry (VBasic (BString "k"))
                   (VVariant (mkVariant "u" (Some a) (Some (TBasic KUInt32)))) in
  let T := TDictEntry (TBasic KString) TVariant in
  let h := [VBasic (BUInt32 7); entry 0%nat] in
  let h' := h ++ [VBasic (BUInt32 7); entry 2%nat] in
  let v := VVariant (mkVariant "{sv}" (Some 1%nat) (Some T)) in
  let v' := VVariant (mkVariant "{sv}" (Some 3%nat) (Some T)) in
  let s := "Variant(sig={sv}, content=(k, Variant(sig=u, content=7)))" in
  log_value 4 style h' v' = Ok s /\ log_value 4 style h' v = Ok s.
Proof.
  intros style entry T h h' v v' s.
  apply (copy_is_displayed_alike 4 4 style h h' v v' s); reflexivity.
Defined.

(** ** Variant: the payload set is the payload got *)






(** ** A variant through a message and back *)

(** X13. The way of a payload from one [Variant] to another.  Let a variant
    hold, under the signature of the payload type, a payload without
    variants whose vectors are flat, and let the registry know that type
    under that signature.  Writing the variant appends the signature as a
    signature value and then the items of the payload, which
    [VariantHelper::serialize] (lines 93-96) writes.  Reading those items
    into any variant, in any store, makes a new payload object with
    [VariantHelper::copy] of a null source (line 91), reads the payload
    into it with [VariantHelper::deserialize] (lines 97-100) and binds it
    with [setRawData] (lines 176-183): the target then carries the same
    signature, and [dataAs] at the payload type (lines 185-189) returns
    the payload that was set.  The message is valid, the cursor behind the
    items, and the objects that were in the store are untouched.  The two
    operators of [Message] on [Variant] and [lookupType] are the modelled
    ones. *)
Theorem variant_round_trip (val : value) :
  vectors_flat val = true ->
  exists toks,
    forall f h hs reg var l target,
      (read_fuel val <= f)%nat ->
      signature_ var = signature (type_of val) ->
      helper_ var = Some (type_of val) ->
      data_ var = Some l ->
      h !! l = Some val ->
      lookupType reg (signature (type_of val)) = Some (type_of val) ->
      let items := WBasic (BSignature (signature (type_of val))) :: toks in
      let var' := {| signature_ := signature (type_of val);
                     data_ := Some (length hs);
                     helper_ := Some (type_of val) |} in
      (forall m, Message_bool m = true ->
         write (S f) h m (VVariant var) = Ok (Message_append m items))
      /\ (forall cons rest,
            read (S f) reg (mkMessage cons (items ++ rest) true, hs)
              (VVariant target)
            = Ok ((mkMessage (cons ++ items) rest true, hs ++ [val]),
                  VVariant var'))
      /\ Variant_dataAs (type_of val) (hs ++ [val]) var' = Ok val.
Proof.
  intros Hfl. destruct (vectors_flat_wire val Hfl) as [toks H].
  exists toks. intros f h hs reg var l target Hf Hsig Hh Hd Hl Hreg items var'.
  destruct (H f Hf) as [Hw Hr]. split; [|split].
  - intros m Hm. simpl.
    unfold Message_write_Variant, Variant_writeToMessage,
      VariantHelper_serialize, Message_write_basic, deref.
    rewrite Hm, Hh, Hd, Hl, Hsig. simpl.
    rewrite decide_True by done. simpl.
    destruct (Hw h) as [_ Hwr]. rewrite Hwr by done.
    by rewrite Message_append_append.
  - intros cons rest. simpl.
    unfold Message_read_Variant, Message_read_basic. simpl.
    rewrite Hreg.
    unfold VariantHelper_copy_null, make_shared, VariantHelper_deserialize,
      deref. cbn [fst snd].
    rewrite snoc_lookup, type_of_default.
    rewrite decide_True by done. cbn [mbind res_bind].
    unfold Message_advance. cbn [consumed_ ok_].
    rewrite (Hr reg (hs ++ [default_value (type_of val)])
               (cons ++ [WBasic (BSignature (signature (type_of val)))])
               rest).
    cbn [mbind res_bind fst snd].
    rewrite insert_app_r_alt, Nat.sub_diag by lia. simpl.
    unfold Variant_setRawData, VariantHelper_signature, items.
    by rewrite <- app_assoc.
  - unfold Variant_dataAs, deref, var'. simpl.
    rewrite decide_True by done. rewrite snoc_lookup.
    by rewrite decide_True.
Qed.

(** A variant that holds the vector of strings ["a"; "b"], written and read
    into an empty variant in another store, with [as] registered. *)
Lemma variant_round_trip_witness :
  let val := VArray (TBasic KString)
               [VBasic (BString "a"); VBasic (BString "b")] in
  let var := mkVariant "as" (Some 0%nat) (Some (TArray (TBasic KString))) in
  let reg : gmap string dtype := {[ "as" := TArray (TBasic KString) ]} in
  let hs := [VBasic (BUInt32 7)] in
  exists toks,
    let items := WBasic (BSignature "as") :: toks in
    let var' := mkVariant "as" (Some 1%nat) (Some (TArray (TBasic KString))) in
    (forall m, Message_bool m = true ->
       write 5 [val] m (VVariant var) = Ok (Message_append m items))
    /\ (forall cons rest,
          read 5 reg (mkMessage cons (items ++ rest) true, hs)
            (VVariant Variant_default)
          = Ok ((mkMessage (cons ++ items) rest true, hs ++ [val]),
                VVariant var'))
    /\ Variant_dataAs (type_of val) (hs ++ [val]) var' = Ok val.
Proof.
  intros val var reg hs.
  destruct (variant_round_trip val eq_refl) as [toks H].
  exists toks.
  apply (H 4%nat [val] hs reg var 0%nat Variant_default); reflexivity.
Defined.

(** ** A store that has been copied in can be copied from again *)

Lemma Forall_forallb {A : Type} (p : A -> bool) (xs : list A) :
  Forall (fun x => p x = true) xs -> forallb p xs = true.
Proof. induction 1; simpl; [done|]. by apply andb_true_iff. Qed.

(** Going from one ranking, bound and store to another, variant by
    variant.  [P] is what is known of the addresses the value holds. *)
Lemma value_okb_impl (rank rank' : nat -> nat) (b b' : nat)
    (h h' : list value) (P : nat -> Prop) :
  (forall var, (forall l, data_ var = Some l -> P l) ->
     variant_okb rank b h var = true -> variant_okb rank' b' h' var = true) ->
  forall x, Forall P (pointers x) ->
    value_okb rank b h x = true -> value_okb rank' b' h' x = true.
Proof.
  intros Hvar.
  assert (Hlist : forall xs,
            Forall (fun x => Forall P (pointers x) ->
                      value_okb rank b h x = true ->
                      value_okb rank' b' h' x = true) xs ->
            Forall P (concat (map pointers xs)) ->
            forallb (value_okb rank b h) xs = true ->
            forallb (value_okb rank' b' h') xs = true).
  { induction 1 as [|x xs Hx _ IH]; simpl; [done|]. intros Hp Hok.
    apply Forall_app in Hp as [Hpx Hp].
    apply andb_true_iff in Hok as [Hokx Hok].
    apply andb_true_iff. split; [by apply Hx|by apply IH]. }
  induction x as [p|var|T xs IH|fs IH|k v IHk IHv|a c IHa IHc|fs IH]
    using value_ind'; simpl; intros Hp Hok; try done.
  - apply Hvar; [|done]. intros l Hl. rewrite Hl in Hp.
    by apply Forall_cons in Hp as [? _].
  - by apply Hlist.
  - by apply Hlist.
  - apply Forall_app in Hp as [Hpk Hpv].
    apply andb_true_iff in Hok as [Hk Hv].
    apply andb_true_iff. split; [by apply IHk|by apply IHv].
  - apply Forall_app in Hp as [Hpa Hpc].
    apply andb_true_iff in Hok as [Ha Hc].
    apply andb_true_iff. split; [by apply IHa|by apply IHc].
  - by apply Hlist.
Qed.

Lemma Forall_True {A : Type} (l : list A) : Forall (fun _ => True) l.
Proof. by apply Forall_forall. Qed.

Lemma variant_okb_inv (rank : nat -> nat) (b : nat) (h : list value)
    (var : Variant) :
  variant_okb rank b h var = true ->
  forall T l, helper_ var = Some T -> data_ var = Some l ->
    (rank l < b)%nat /\ exists pv, h !! l = Some pv /\ type_of pv = T.
Proof.
  unfold variant_okb. intros H T l HT Hl. rewrite HT, Hl in H.
  apply andb_true_iff in H as [Hr Hc]. apply bool_decide_eq_true in Hr.
  destruct (h !! l) as [pv|]; [|done]. apply bool_decide_eq_true in Hc.
  eauto.
Qed.

Lemma variant_okb_intro (rank : nat -> nat) (b : nat) (h : list value)
    (var : Variant) :
  (forall T l, helper_ var = Some T -> data_ var = Some l ->
     (rank l < b)%nat /\ exists pv, h !! l = Some pv /\ type_of pv = T) ->
  variant_okb rank b h var = true.
Proof.
  unfold variant_okb. intros H.
  destruct (helper_ var) as [T|]; [|done].
  destruct (data_ var) as [l|]; [|done].
  destruct (H T l eq_refl eq_refl) as (Hr & pv & Hl & Hty).
  rewrite Hl. apply andb_true_iff. split; by apply bool_decide_eq_true.
Qed.

Lemma value_okb_mono (rank : nat -> nat) (b b' : nat) (h h' : list value)
    (x : value) :
  (b <= b')%nat -> h `prefix_of` h' ->
  value_okb rank b h x = true -> value_okb rank b' h' x = true.
Proof.
  intros Hb Hpre. apply (value_okb_impl _ _ _ _ _ _ (fun _ => True));
    [|apply Forall_True].
  intros var _ Hok. apply variant_okb_intro. intros T l HT Hl.
  destruct (variant_okb_inv _ _ _ _ Hok T l HT Hl) as (Hr & pv & Hpv & Hty).
  split; [lia|]. exists pv. split; [|done]. by eapply prefix_lookup_Some.
Qed.

Lemma value_okb_default (rank : nat -> nat) (b : nat) (h : list value)
    (T : dtype) :
  value_okb rank b h (default_value T) = true.
Proof.
  induction T as [k| |e IH|fs IH|k v IHk IHv|a c IHa IHc|fs IH]
    using dtype_ind'; simpl; try done.
  - apply Forall_forallb. by apply Forall_fmap.
  - by rewrite IHk, IHv.
  - by rewrite IHa, IHc.
  - apply Forall_forallb. by apply Forall_fmap.
Qed.

Section CopyOrder.
Variable cp : heap -> value -> res (heap * value).
Hypothesis cp_deep : copies_deeply cp.
Hypothesis cp_order : copies_in_order cp.

Lemma copy_each_order (xs : list value) :
  forall h h' xs',
    copy_each cp h xs = Ok (h', xs') ->
    forallb (value_okb (fun a => a) (length h') h') xs' = true
    /\ (forall a cell, h' !! a = Some cell -> (length h <= a)%nat ->
          value_okb (fun a => a) a h' cell = true).
Proof.
  induction xs as [|x xs IH]; intros h h' xs' H; simpl in H.
  { inversion H; subst. split; [done|].
    intros a cell Ha Hle. apply lookup_lt_Some in Ha. lia. }
  apply bind_Ok in H as ([h1 x'] & Hx & H).
  apply bind_Ok in H as ([h2 xs''] & Hxs & H). inversion H; subst.
  destruct (cp_deep _ _ _ _ Hx) as (Hp1 & _).
  destruct (cp_order _ _ _ _ Hx) as (Hx' & Hc1).
  destruct (copy_each_deep cp cp_deep xs _ _ _ Hxs) as (Hp2 & _).
  destruct (IH _ _ _ Hxs) as (Hxs' & Hc2).
  pose proof (prefix_length _ _ Hp1) as Hlen1.
  pose proof (prefix_length _ _ Hp2) as Hlen2.
  split.
  - simpl. apply andb_true_iff. split; [|done].
    by apply (value_okb_mono _ (length h1) _ h1).
  - intros a cell Ha Hle.
    destruct (decide (length h1 <= a)%nat) as [Hge|Hlt]; [by apply Hc2|].
    apply (value_okb_mono _ a _ h1); [done|exact Hp2|].
    apply Hc1; [|done].
    destruct Hp2 as [k ->]. rewrite lookup_app_l in Ha by lia. done.
Qed.

Lemma Variant_copy_order (h h' : heap) (v v' : Variant) :
  Variant_copy cp h v = Ok (h', v') ->
  variant_okb (fun a => a) (length h') h' v' = true
  /\ (forall a cell, h' !! a = Some cell -> (length h <= a)%nat ->
        value_okb (fun a => a) a h' cell = true).
Proof.
  unfold Variant_copy, VariantHelper_copy, VariantHelper_copy_null,
    make_shared.
  intros H. destruct (helper_ v) as [T|].
  - apply bind_Ok in H as ([h1 l] & Hc & H). inversion H; subst.
    destruct (data_ v) as [l0|].
    + apply bind_Ok in Hc as (s & Hs & Hc).
      apply bind_Ok in Hc as ([h2 s'] & Hcp & Hc). inversion Hc; subst.
      destruct (cp_deep _ _ _ _ Hcp) as (Hp & Hty & _).
      destruct (cp_order _ _ _ _ Hcp) as (Hs' & Hcell).
      apply deref_Ok in Hs as [_ HT].
      pose proof (prefix_length _ _ Hp) as Hlen.
      split.
      * apply variant_okb_intro. simpl. intros T0 l [= <-] [= <-].
        rewrite length_app. simpl. split; [lia|].
        exists s'. rewrite snoc_lookup. split; [done|congruence].
      * intros a cell Ha Hle.
        destruct (decide (a = length h2)) as [->|Hne].
        -- rewrite snoc_lookup in Ha. inversion Ha; subst.
           apply (value_okb_mono _ (length h2) _ h2);
             [done|by apply prefix_app_r|done].
        -- apply lookup_lt_Some in Ha as Hlt. rewrite length_app in Hlt.
           simpl in Hlt. rewrite lookup_app_l in Ha by lia.
           apply (value_okb_mono _ a _ h2); [done|by apply prefix_app_r|].
           by apply Hcell.
    + inversion Hc; subst. split.
      * apply variant_okb_intro. simpl. intros T0 l [= <-] [= <-].
        rewrite length_app. simpl. split; [lia|].
        exists (default_value T). rewrite snoc_lookup.
        by rewrite type_of_default.
      * intros a cell Ha Hle.
        apply lookup_lt_Some in Ha as Hlt. rewrite length_app in Hlt.
        simpl in Hlt. assert (a = length h) as -> by lia.
        rewrite snoc_lookup in Ha. inversion Ha; subst.
        apply value_okb_default.
  - inversion H; subst. split; [done|].
    intros a cell Ha Hle. apply lookup_lt_Some in Ha. lia.
Qed.
End CopyOrder.

Lemma copy_value_order (f : nat) : copies_in_order (copy_value f).
Proof.
  induction f as [|f IH]; intros h v h' v' H; [done|].
  pose proof (copy_value_deep f) as Hdeep.
  destruct v as [p|var|T xs|fs|k v|a b|fs]; simpl in H.
  - inversion H; subst. split; [done|].
    intros a cell Ha Hle. apply lookup_lt_Some in Ha. lia.
  - apply bind_Ok in H as ([h1 var'] & Hv & H). inversion H; subst.
    by apply (Variant_copy_order _ Hdeep IH _ _ _ _ Hv).
  - apply bind_Ok in H as ([h1 xs'] & Hxs & H). inversion H; subst.
    by apply (copy_each_order _ Hdeep IH _ _ _ _ Hxs).
  - apply bind_Ok in H as ([h1 xs'] & Hxs & H). inversion H; subst.
    by apply (copy_each_order _ Hdeep IH _ _ _ _ Hxs).
  - apply bind_Ok in H as ([h1 k'] & Hk & H).
    apply bind_Ok in H as ([h2 v''] & Hv & H). inversion H; subst.
    assert (Hxs : copy_each (copy_value f) h [k; v] = Ok (h', [k'; v''])).
    { simpl. rewrite Hk. simpl. by rewrite Hv. }
    destruct (copy_each_order _ Hdeep IH _ _ _ _ Hxs) as [Hok Hc].
    split; [|done]. simpl in *. by rewrite andb_true_r in Hok.
  - apply bind_Ok in H as ([h1 a'] & Ha & H).
    apply bind_Ok in H as ([h2 b'] & Hb & H). inversion H; subst.
    assert (Hxs : copy_each (copy_value f) h [a; b] = Ok (h', [a'; b'])).
    { simpl. rewrite Ha. simpl. by rewrite Hb. }
    destruct (copy_each_order _ Hdeep IH _ _ _ _ Hxs) as [Hok Hc].
    split; [|done]. simpl in *. by rewrite andb_true_r in Hok.
  - apply bind_Ok in H as ([h1 xs'] & Hxs & H). inversion H; subst.
    by apply (copy_each_order _ Hdeep IH _ _ _ _ Hxs).
Qed.

Lemma heap_okb_from_intro (rank : nat -> nat) (h cells : list value) :
  forall start,
    (forall i cell, cells !! i = Some cell ->
       value_okb rank (rank (start + i)%nat) h cell = true) ->
    heap_okb_from rank start h cells = true.
Proof.
  induction cells as [|c cells IH]; intros start H; simpl; [done|].
  apply andb_true_iff. split.
  - specialize (H 0%nat c eq_refl). by rewrite Nat.add_0_r in H.
  - apply IH. intros i cell Hi. rewrite Nat.add_succ_comm.
    by apply (H (S i)).
Qed.

(** X14. Copies can be repeated.  Copying a value, for instance a [Variant]
    through its copy constructor (lines 147-151), in a well-formed store
    leaves a well-formed store: the objects that were there keep their
    rank, every object made by the copy ranks by its address, and the
    variants inside the copy point to objects of the type of their helper.
    So the copy, and everything the store holds, can be copied again:
    enough fuel always gives the copy, in this store and in every store it
    grows into. *)
Theorem copy_keeps_store_well_formed (rank : nat -> nat) (f : nat)
    (h h' : heap) (v v' : value) :
  heap_okb rank h = true ->
  copy_value f h v = Ok (h', v') ->
  let rank' := fun a => if decide (a < length h)%nat then rank a else a in
  heap_okb rank' h' = true
  /\ value_okb rank' (length h') h' v' = true
  /\ copyable h' v'.
Proof.
  intros Hh Hc rank'.
  destruct (copy_value_deep f _ _ _ _ Hc) as (Hpre & _ & Hfresh & Hcells).
  destruct (copy_value_order f _ _ _ _ Hc) as (Hord & Hcord).
  assert (Hnew : forall b x, fresh_from (length h) x ->
            value_okb (fun a => a) b h' x = true ->
            value_okb rank' b h' x = true).
  { intros b x Hx.
    apply (value_okb_impl _ _ _ _ _ _ (fun l => (length h <= l)%nat));
      [|exact Hx].
    intros var Hvar Hok. apply variant_okb_intro. intros T l HT Hl.
    destruct (variant_okb_inv _ _ _ _ Hok T l HT Hl) as (Hr & Hpv).
    split; [|done]. unfold rank'. specialize (Hvar l Hl). simpl in Hvar.
    by rewrite decide_False by lia. }
  assert (Hold : forall b x, value_okb rank b h x = true ->
            value_okb rank' b h' x = true).
  { intros b x. apply (value_okb_impl _ _ _ _ _ _ (fun _ => True));
      [|apply Forall_True].
    intros var _ Hok. apply variant_okb_intro. intros T l HT Hl.
    destruct (variant_okb_inv _ _ _ _ Hok T l HT Hl) as (Hr & pv & Hpv & Hty).
    apply lookup_lt_Some in Hpv as Hlt. unfold rank'.
    rewrite decide_True by done. split; [done|].
    exists pv. split; [|done]. by eapply prefix_lookup_Some. }
  assert (Hheap : heap_okb rank' h' = true).
  { apply heap_okb_from_intro. intros i cell Hi. simpl.
    destruct (decide (i < length h)%nat) as [Hlt|Hge].
    - replace (rank' i) with (rank i)
        by (unfold rank'; by rewrite decide_True).
      apply Hold. apply (heap_okb_lookup rank h i cell Hh).
      destruct Hpre as [k ->]. by rewrite lookup_app_l in Hi.
    - replace (rank' i) with i by (unfold rank'; by rewrite decide_False).
      apply Hnew; [apply (Hcells i cell Hi); lia|apply Hcord; [done|lia]]. }
  split; [done|]. split; [by apply Hnew|].
  eapply (value_copyable rank' h' Hheap). by apply Hnew.
Qed.

(** The variant that holds a vector of two variants is copied; the store
    after the copy is well formed and the copy can be copied in turn. *)
Lemma copy_keeps_store_well_formed_witness :
  let u := TBasic KUInt32 in
  let inner a := VVariant (mkVariant "u" (Some a) (Some u)) in
  let h := [VBasic (BUInt32 7); VBasic (BUInt32 8);
            VArray TVariant [inner 0%nat; inner 1%nat]] in
  let h' := h ++ [VBasic (BUInt32 7); VBasic (BUInt32 8);
                  VArray TVariant [inner 3%nat; inner 4%nat]] in
  let v' := VVariant (mkVariant "av" (Some 5%nat) (Some (TArray TVariant))) in
  let rank' := fun a => if decide (a < length h)%nat then a else a in
  heap_okb rank' h' = true
  /\ value_okb rank' (length h') h' v' = true
  /\ copyable h' v'.
Proof.
  intros u inner h h' v' rank'.
  apply (copy_keeps_store_well_formed (fun a => a) 4 h h'
           (VVariant (mkVariant "av" (Some 2%nat) (Some (TArray TVariant))))
           v'); reflexivity.
Defined.

(** ** Reading always returns *)

Lemma advances_length (m m' : Message) :
  advances m m' -> (length (pending_ m') <= length (pending_ m))%nat.
Proof. intros (t & _ & ->). rewrite length_app. lia. Qed.

Lemma read_Container_shrinks (m : Message) (c : Container.t) :
  Message_bool (Message_read_Container m c) = true ->
  (length (pending_ (Message_read_Container m c)) < length (pending_ m))%nat.
Proof.
  intros H. apply read_Container_ok in H as (_ & rest & Hp & ->).
  rewrite Hp. simpl. lia.
Qed.

Lemma read_basic_facts (m m' : Message) (k : basic) (o : option basic_value) :
  Message_read_basic m k = (m', o) ->
  (forall p, o = Some p -> kind_of p = k)
  /\ (Message_bool m' = true ->
      (length (pending_ m') < length (pending_ m))%nat).
Proof.
  unfold Message_read_basic. intros H.
  destruct (Message_bool m) eqn:Hm.
  - destruct (pending_ m) as [|[p|c|] rest] eqn:Hp;
      try (inversion H; subst; split; [done|]; by unfold Message_bool).
    destruct (decide (kind_of p = k)); inversion H; subst.
    + split; [by intros ? [= <-]|]. simpl. lia.
    + split; [done|]. by unfold Message_bool.
  - inversion H; subst. split; [done|]. congruence.
Qed.

Section ReadFacts.
Variable rd : rstate -> value -> res (rstate * value).
Hypothesis rd_keeps : keeps_depth rd.
Hypothesis rd_advances : only_advances rd.
Hypothesis rd_facts : read_facts rd.

Lemma reads_fields_facts (fs : list value) :
  forall (s s_end : rstate) (fs' : list value),
    reads_fields rd s fs fs' s_end ->
    map type_of fs' = map type_of fs
    /\ advances s.1 s_end.1
    /\ (Message_bool s_end.1 = true ->
        existsb titems (map type_of fs) = true ->
        (length (pending_ s_end.1) < length (pending_ s.1))%nat).
Proof.
  induction fs as [|x fs IH]; intros s s_end [|x' fs'] H; simpl in H;
    try done.
  { subst. split; [done|]. split; [apply advances_refl|]. done. }
  destruct H as (s1 & Hx & H).
  destruct (IH _ _ _ H) as (Hty & Hadv & Hpr).
  destruct (rd_facts _ _ _ _ Hx) as (Htx & Hpx).
  pose proof (rd_advances _ _ _ _ Hx) as Hax.
  split; [simpl; by rewrite Htx, Hty|].
  split; [by eapply advances_trans|].
  intros Hok Hex. simpl in Hex.
  pose proof (advances_length _ _ Hax) as Hl1.
  pose proof (advances_length _ _ Hadv) as Hl2.
  apply orb_true_iff in Hex as [Hi|Hex].
  - destruct (reads_fields_keeps rd rd_keeps fs _ _ _ H Hok) as [Hok1 _].
    specialize (Hpx Hok1 Hi). lia.
  - specialize (Hpr Hok Hex). lia.
Qed.

Lemma unmarshall_facts (N : nat) (s s' : rstate) (t t' : list value) :
  (N <= length t)%nat ->
  TupleMarshaller_unmarshall rd N s t = Ok (s', t') ->
  map type_of t' = map type_of t
  /\ (Message_bool s'.1 = true ->
      existsb titems (map type_of (take N t)) = true ->
      (length (pending_ s'.1) < length (pending_ s.1))%nat).
Proof.
  intros HN H. apply unmarshall_take in H as (fs' & -> & H); [|done].
  destruct (reads_fields_facts _ _ _ _ H) as (Hty & _ & Hpr).
  split; [|done].
  rewrite map_app, Hty, <- map_app. by rewrite take_drop.
Qed.

Lemma pair_facts (s s' : rstate) (a b x' : value) :
  Message_read_pair rd s a b = Ok (s', x') ->
  type_of x' = TPair (type_of a) (type_of b)
  /\ (Message_bool s'.1 = true ->
      titems (type_of a) || titems (type_of b) = true ->
      (length (pending_ s'.1) < length (pending_ s.1))%nat).
Proof.
  unfold Message_read_pair. intros H.
  destruct (Message_bool s.1) eqn:Hs; simpl in H;
    [|inversion H; subst; split; [done|congruence]].
  apply bind_Ok in H as ([s1 a'] & Hrd1 & H).
  destruct (rd_facts _ _ _ _ Hrd1) as (Hta & Hpa).
  pose proof (advances_length _ _ (rd_advances _ _ _ _ Hrd1)) as Hl1.
  simpl in *.
  destruct (Message_bool s1.1) eqn:Hs1; simpl in H;
    [|inversion H; subst; split; [simpl; by rewrite Hta|congruence]].
  apply bind_Ok in H as ([s2 b'] & Hrd2 & H). inversion H; subst.
  destruct (rd_facts _ _ _ _ Hrd2) as (Htb & Hpb).
  pose proof (advances_length _ _ (rd_advances _ _ _ _ Hrd2)) as Hl2.
  simpl in *. split; [by rewrite Hta, Htb|].
  intros Hok Hi. apply orb_true_iff in Hi as [Hi|Hi].
  - specialize (Hpa eq_refl Hi). lia.
  - specialize (Hpb Hok Hi). lia.
Qed.

Lemma tuple_facts (s s' : rstate) (t : list value) (x' : value) :
  Message_read_tuple rd s t = Ok (s', x') ->
  type_of x' = TTuple (map type_of t)
  /\ (Message_bool s'.1 = true ->
      existsb titems (map type_of t) = true ->
      (length (pending_ s'.1) < length (pending_ s.1))%nat).
Proof.
  unfold Message_read_tuple. intros H.
  apply bind_Ok in H as ([s1 t1] & Hu & H). inversion H; subst.
  destruct (unmarshall_facts _ _ _ _ _ (Nat.le_refl _) Hu) as (Hty & Hpr).
  rewrite firstn_all in Hpr. split; [simpl; by rewrite Hty|done].
Qed.

Lemma DBusStruct_facts (s s' : rstate) (t : list value) (x' : value) :
  Message_read_DBusStruct rd s t = Ok (s', x') ->
  type_of x' = TStruct (map type_of t)
  /\ (Message_bool s'.1 = true ->
      (length (pending_ s'.1) < length (pending_ s.1))%nat).
Proof.
  unfold Message_read_DBusStruct, on_message. cbn [fst snd]. intros H.
  pose proof (read_Container_shrinks s.1
                (Container.mk Container.Struct
                   (container_signature (TStruct (map type_of t))))) as H1.
  destruct (Message_bool (Message_read_Container s.1 _)) eqn:Hc;
    [|inversion H; subst; split; [done|simpl; congruence]].
  specialize (H1 eq_refl).
  apply bind_Ok in H as ([s2 t2] & Hu & H).
  destruct (unmarshall_facts _ _ _ _ _ (Nat.le_refl _) Hu) as (Hty & _).
  pose proof (advances_length _ _ (unmarshall_advances rd rd_advances
                                     _ _ _ _ _ Hu)) as Hl2.
  simpl in *.
  destruct (Message_bool s2.1);
    [|inversion H; subst; split; [simpl; by rewrite Hty|simpl; lia]].
  apply bind_Ok in H as (m3 & Hend & H). inversion H; subst.
  pose proof (advances_length _ _ (read_ContainerEnd_advances _ _ Hend))
    as Hl3.
  split; [simpl; by rewrite Hty|simpl; lia].
Qed.

Lemma DictEntry_facts (s s' : rstate) (k v x' : value) :
  Message_read_DictEntry rd s k v = Ok (s', x') ->
  type_of x' = TDictEntry (type_of k) (type_of v)
  /\ (Message_bool s'.1 = true ->
      (length (pending_ s'.1) < length (pending_ s.1))%nat).
Proof.
  unfold Message_read_DictEntry, on_message. cbn [fst snd]. intros H.
  pose proof (read_Container_shrinks s.1
                (Container.mk Container.DictEntry
                   (container_signature
                      (TDictEntry (type_of k) (type_of v))))) as H1.
  destruct (Message_bool (Message_read_Container s.1 _)) eqn:Hc;
    [|inversion H; subst; split; [done|simpl; congruence]].
  specialize (H1 eq_refl).
  apply bind_Ok in H as ([s2 k'] & Hrd2 & H).
  destruct (rd_facts _ _ _ _ Hrd2) as (Htk & _).
  pose proof (advances_length _ _ (rd_advances _ _ _ _ Hrd2)) as Hl2.
  simpl in *.
  destruct (Message_bool s2.1); simpl in H;
    [|inversion H; subst; split; [simpl; by rewrite Htk|simpl; lia]].
  apply bind_Ok in H as ([s3 v'] & Hrd3 & H).
  destruct (rd_facts _ _ _ _ Hrd3) as (Htv & _).
  pose proof (advances_length _ _ (rd_advances _ _ _ _ Hrd3)) as Hl3.
  simpl in *.
  destruct (Message_bool s3.1); simpl in H;
    [|inversion H; subst; split; [simpl; by rewrite Htk, Htv|simpl; lia]].
  apply bind_Ok in H as (m4 & Hend & H). inversion H; subst.
  pose proof (advances_length _ _ (read_ContainerEnd_advances _ _ Hend))
    as Hl4.
  split; [simpl; by rewrite Htk, Htv|simpl; lia].
Qed.

Lemma vector_facts (n : nat) (s s' : rstate) (T : dtype) (t : list value)
    (x' : value) :
  Message_read_vector rd n s T t = Ok (s', x') ->
  type_of x' = TArray T
  /\ (Message_bool s'.1 = true ->
      (length (pending_ s'.1) < length (pending_ s.1))%nat).
Proof.
  unfold Message_read_vector, on_message. cbn [fst snd]. intros H.
  pose proof (read_Container_shrinks s.1
                (Container.mk Container.Array
                   (container_signature (TArray T)))) as H1.
  destruct (Message_bool (Message_read_Container s.1 _)) eqn:Hc;
    [|inversion H; subst; split; [done|simpl; congruence]].
  specialize (H1 eq_refl).
  apply bind_Ok in H as ([s2 t2] & Hu & H).
  pose proof (advances_length _ _ (read_while_advances rd rd_advances
                                     _ _ _ _ _ _ Hu)) as Hl2.
  apply bind_Ok in H as (m3 & Hend & H). inversion H; subst.
  pose proof (advances_length _ _ (read_ContainerEnd_advances _ _ Hend))
    as Hl3.
  simpl in *. split; [done|lia].
Qed.

Lemma Variant_facts (reg : VariantTypeRegistry) (s s' : rstate)
    (target v' : Variant) :
  Message_read_Variant rd reg s target = Ok (s', v') ->
  Message_bool s'.1 = true ->
  (length (pending_ s'.1) < length (pending_ s.1))%nat.
Proof.
  unfold Message_read_Variant. intros H Hok.
  destruct (Message_bool s.1) eqn:Hs; simpl in H;
    [|inversion H; subst; congruence].
  destruct (Message_read_basic s.1 KSignature) as [m1 o] eqn:Hb.
  destruct (read_basic_facts _ _ _ _ Hb) as [_ Hsh].
  destruct o as [[| | | | | | | | | | |sig|]|];
    try (inversion H; subst; by apply Hsh).
  destruct (lookupType reg sig) as [T|].
  - unfold VariantHelper_copy_null, make_shared, VariantHelper_deserialize
      in H.
    apply bind_Ok in H as (s2 & H2 & H). inversion H; subst.
    apply bind_Ok in H2 as (s0 & _ & H2).
    apply bind_Ok in H2 as ([st1 x'] & Hrd & H2). inversion H2; subst.
    pose proof (advances_length _ _ (rd_advances _ _ _ _ Hrd)) as Hl.
    destruct (rd_keeps _ _ _ _ Hrd Hok) as [Hok1 _].
    simpl in *. specialize (Hsh Hok1). lia.
  - inversion H; subst. by simpl in Hok.
Qed.
End ReadFacts.

Lemma read_has_facts (f : nat) (reg : VariantTypeRegistry) :
  read_facts (read f reg).
Proof.
  induction f as [|f IH]; intros s x s' x' H; [done|].
  pose proof (read_keeps f reg) as Hk.
  pose proof (read_advances f reg) as Ha.
  destruct x as [p|var|T xs|fs|k v|a b|fs]; simpl in H.
  - unfold Message_read_basic_into in H.
    destruct (Message_read_basic s.1 (kind_of p)) as [m1 o] eqn:Hb.
    destruct (read_basic_facts _ _ _ _ Hb) as [Hkind Hsh].
    destruct o as [q|]; inversion H; subst; simpl.
    + split; [by rewrite (Hkind q)|]. intros Hok _. by apply Hsh.
    + split; [done|]. intros Hok _. by apply Hsh.
  - apply bind_Ok in H as ([s1 var'] & Hv & H). inversion H; subst.
    split; [done|]. intros Hok _. by eapply Variant_facts.
  - destruct (vector_facts _ Ha _ _ _ _ _ _ H) as [Hty Hsh].
    split; [done|]. intros Hok _. by apply Hsh.
  - destruct (DBusStruct_facts _ Hk Ha IH _ _ _ _ H) as [Hty Hsh].
    split; [done|]. intros Hok _. by apply Hsh.
  - destruct (DictEntry_facts _ Ha IH _ _ _ _ _ H) as [Hty Hsh].
    split; [done|]. intros Hok _. by apply Hsh.
  - by apply (pair_facts _ Ha IH _ _ _ _ _ H).
  - by apply (tuple_facts _ Hk Ha IH _ _ _ _ H).
Qed.

Lemma read_ContainerEnd_total (m : Message) :
  (Message_bool m = true -> open_depth 0 (consumed_ m) <> 0%nat) ->
  exists m', Message_read_ContainerEnd m = Ok m'.
Proof.
  unfold Message_read_ContainerEnd. intros H.
  destruct (Message_bool m); [|eauto].
  destruct (open_depth 0 (consumed_ m)); [by destruct H|].
  destruct (pending_ m) as [|[p|c|] rest]; eauto.
Qed.

Lemma after_Container_depth (m : Message) (c : Container.t) :
  Message_bool (Message_read_Container m c) = true ->
  open_depth 0 (consumed_ (Message_read_Container m c)) <> 0%nat.
Proof.
  intros H. apply read_Container_ok in H as (_ & rest & _ & ->).
  by rewrite advance_depth.
Qed.

Lemma read_basic_Some (m m' : Message) (k : basic) (p : basic_value) :
  Message_read_basic m k = (m', Some p) ->
  length (pending_ m) = S (length (pending_ m')).
Proof.
  unfold Message_read_basic. intros H.
  destruct (Message_bool m); [|done].
  destruct (pending_ m) as [|[q|c|] rest]; try done.
  destruct (decide (kind_of q = k)); [|done]. by inversion H.
Qed.

Lemma enough_fuel_mono (H n n' : nat) (T : dtype) :
  (n <= n')%nat -> (enough_fuel H n T <= enough_fuel H n' T)%nat.
Proof. unfold enough_fuel. intros Hn. nia. Qed.

Lemma fields_fuel (H n f : nat) (fs : list value) :
  forallb loops_end (map type_of fs) = true ->
  (S n * (H + 2) + foldr Nat.max 0%nat (map theight (map type_of fs)) <= f)%nat ->
  Forall (fun x => loops_end (type_of x) = true
                   /\ (enough_fuel H n (type_of x) <= f)%nat) fs.
Proof.
  induction fs as [|x fs IH]; simpl; intros Hl Hf; [constructor|].
  apply andb_true_iff in Hl as [Hx Hl]. constructor.
  - split; [done|]. unfold enough_fuel. lia.
  - apply IH; [done|lia].
Qed.

Ltac fuel_arith :=
  unfold enough_fuel in *; cbn [fst snd theight] in *;
  repeat match goal with
         | |- context [length (pending_ ?m)] =>
             let n := fresh "n" in set (n := length (pending_ m)) in *
         | _ : context [length (pending_ ?m)] |- _ =>
             let n := fresh "n" in set (n := length (pending_ m)) in *
         end;
  nia.

(** One more unit of fuel: if the reads with fuel [f] return on every
    stream, so do the templates run on them. *)
Section ReadTotal.
Variable reg : gmap string dtype.
Variable H f : nat.
Hypothesis reg_bounded : registry_bounded reg H.
Hypothesis rd_total :
  forall s v, loops_end (type_of v) = true ->
    (enough_fuel H (length (pending_ s.1)) (type_of v) <= f)%nat ->
    exists s' v', read f reg s v = Ok (s', v').

Lemma fields_total (fs : list value) :
  forall s,
    Forall (fun x => loops_end (type_of x) = true
              /\ (enough_fuel H (length (pending_ s.1)) (type_of x) <= f)%nat)
      fs ->
    exists s' fs', reads_fields (read f reg) s fs fs' s'.
Proof.
  induction fs as [|x fs IH]; intros s Hall.
  { by exists s, []. }
  apply Forall_cons in Hall as [[Hl Hf] Hall].
  destruct (rd_total s x Hl Hf) as (s1 & x' & Hx).
  pose proof (advances_length _ _ (read_advances f reg _ _ _ _ Hx)) as Hlen.
  destruct (IH s1) as (s' & fs' & Hfs).
  { eapply Forall_impl; [exact Hall|]. intros y [Hly Hfy]. split; [done|].
    etrans; [|exact Hfy]. by apply enough_fuel_mono. }
  exists s', (x' :: fs'). simpl. eauto.
Qed.

Lemma unmarshall_total (fs : list value) (s : rstate) :
  Forall (fun x => loops_end (type_of x) = true
            /\ (enough_fuel H (length (pending_ s.1)) (type_of x) <= f)%nat)
    fs ->
  exists s' fs',
    TupleMarshaller_unmarshall (read f reg) (length fs) s fs = Ok (s', fs').
Proof.
  intros Hall. destruct (fields_total fs s Hall) as (s' & fs' & Hfs).
  exists s', fs'.
  pose proof (unmarshall_reads (read f reg) fs s s' fs' [] Hfs) as Hu.
  by rewrite !app_nil_r in Hu.
Qed.

Lemma read_while_total (n : nat) :
  forall s temp t,
    (length (pending_ s.1) < n)%nat ->
    loops_end (type_of temp) = true ->
    titems (type_of temp) = true ->
    (enough_fuel H (length (pending_ s.1)) (type_of temp) <= f)%nat ->
    exists s' t', read_while (read f reg) n s temp t = Ok (s', t').
Proof.
  induction n as [|n IH]; intros s temp t Hn Hl Hi Hf; [lia|].
  simpl. destruct (Message_end s.1); simpl; [eauto|].
  destruct (rd_total s temp Hl Hf) as (s1 & temp1 & Hrd). rewrite Hrd. simpl.
  destruct (Message_bool s1.1) eqn:Hok; [|eauto].
  destruct (read_has_facts f reg _ _ _ _ Hrd) as [Hty Hsh].
  specialize (Hsh Hok Hi).
  apply IH; [lia|by rewrite Hty|by rewrite Hty|].
  rewrite Hty. etrans; [|exact Hf]. apply enough_fuel_mono. lia.
Qed.

Lemma read_total_step (s : rstate) (v : value) :
  loops_end (type_of v) = true ->
  (enough_fuel H (length (pending_ s.1)) (type_of v) <= S f)%nat ->
  exists s' v', read (S f) reg s v = Ok (s', v').
Proof.
  unfold enough_fuel.
  destruct v as [p|var|T xs|fs|k v|a b|fs]; simpl; intros Hl Hf.
  - destruct (Message_read_basic_into s p) as [s' v']. eauto.
  - unfold Message_read_Variant.
    destruct (Message_bool s.1); simpl; [|eauto].
    destruct (Message_read_basic s.1 KSignature) as [m1 o] eqn:Hb.
    destruct o as [[| | | | | | | | | | |sig|]|]; simpl; eauto.
    destruct (lookupType reg sig) as [T|] eqn:Hreg; simpl; [|eauto].
    destruct (reg_bounded sig T Hreg) as [HT HlT].
    apply read_basic_Some in Hb.
    unfold VariantHelper_copy_null, make_shared, VariantHelper_deserialize,
      deref. cbn [fst snd].
    rewrite snoc_lookup, type_of_default.
    rewrite decide_True by done. cbn [mbind res_bind].
    destruct (rd_total (m1, s.2 ++ [default_value T]) (default_value T))
      as (s2 & pv & Hrd).
    { by rewrite type_of_default. }
    { rewrite type_of_default. fuel_arith. }
    rewrite Hrd. simpl. eauto.
  - unfold Message_read_vector, on_message. cbn [fst snd].
    pose proof (read_Container_shrinks s.1
                  (Container.mk Container.Array
                     (container_signature (TArray T)))) as Hsh.
    pose proof (after_Container_depth s.1
                  (Container.mk Container.Array
                     (container_signature (TArray T)))) as Hd.
    destruct (Message_bool (Message_read_Container s.1 _)) eqn:Hc; [|eauto].
    specialize (Hsh eq_refl). specialize (Hd eq_refl).
    apply andb_true_iff in Hl as [Hi Hl].
    destruct (read_while_total f
                (Message_read_Container s.1
                   (Container.mk Container.Array
                      (container_signature (TArray T))), s.2)
                (default_value T) xs) as (s2 & t2 & Hw).
    { fuel_arith. }
    { by rewrite type_of_default. }
    { by rewrite type_of_default. }
    { rewrite type_of_default. fuel_arith. }
    rewrite Hw. cbn [mbind res_bind].
    destruct (read_ContainerEnd_total s2.1) as [m3 H3].
    { intros Hok2.
      destruct (read_while_keeps (read f reg) (read_keeps f reg)
                  _ _ _ _ _ _ Hw Hok2) as [_ Hdepth].
      simpl in Hdepth. by rewrite Hdepth. }
    rewrite H3. simpl. eauto.
  - unfold Message_read_DBusStruct, on_message. cbn [fst snd].
    pose proof (read_Container_shrinks s.1
                  (Container.mk Container.Struct
                     (container_signature (TStruct (map type_of fs)))))
      as Hsh.
    pose proof (after_Container_depth s.1
                  (Container.mk Container.Struct
                     (container_signature (TStruct (map type_of fs)))))
      as Hd.
    destruct (Message_bool (Message_read_Container s.1 _)) eqn:Hc; [|eauto].
    specialize (Hsh eq_refl). specialize (Hd eq_refl).
    destruct (unmarshall_total fs
                (Message_read_Container s.1
                   (Container.mk Container.Struct
                      (container_signature (TStruct (map type_of fs)))),
                 s.2)) as (s2 & fs2 & Hu).
    { apply fields_fuel; [done|]. fuel_arith. }
    rewrite Hu. cbn [mbind res_bind].
    destruct (Message_bool s2.1) eqn:Hok2; [|eauto].
    destruct (read_ContainerEnd_total s2.1) as [m3 H3].
    { intros _.
      destruct (unmarshall_keeps (read f reg) (read_keeps f reg)
                  _ _ _ _ _ Hu Hok2) as [_ Hdepth].
      simpl in Hdepth. by rewrite Hdepth. }
    rewrite H3. simpl. eauto.
  - unfold Message_read_DictEntry, on_message. cbn [fst snd].
    pose proof (read_Container_shrinks s.1
                  (Container.mk Container.DictEntry
                     (container_signature
                        (TDictEntry (type_of k) (type_of v))))) as Hsh.
    pose proof (after_Container_depth s.1
                  (Container.mk Container.DictEntry
                     (container_signature
                        (TDictEntry (type_of k) (type_of v))))) as Hd.
    destruct (Message_bool (Message_read_Container s.1 _)) eqn:Hc; [|eauto].
    specialize (Hsh eq_refl). specialize (Hd eq_refl).
    apply andb_true_iff in Hl as [Hlk Hlv].
    destruct (rd_total (Message_read_Container s.1
                (Container.mk Container.DictEntry
                   (container_signature
                      (TDictEntry (type_of k) (type_of v)))), s.2) k)
      as (s2 & k' & Hk); [done|fuel_arith|].
    rewrite Hk. cbn [mbind res_bind].
    pose proof (advances_length _ _ (read_advances f reg _ _ _ _ Hk)) as Hl2.
    cbn [fst] in Hl2.
    destruct (Message_bool s2.1) eqn:Hok2; simpl; [|eauto].
    destruct (rd_total s2 v) as (s3 & v' & Hv);
      [done|fuel_arith|].
    rewrite Hv. cbn [mbind res_bind].
    destruct (Message_bool s3.1) eqn:Hok3; simpl; [|eauto].
    destruct (read_ContainerEnd_total s3.1) as [m4 H4].
    { intros _.
      destruct (read_keeps f reg _ _ _ _ Hv Hok3) as [_ Hd3].
      destruct (read_keeps f reg _ _ _ _ Hk Hok2) as [_ Hd2].
      simpl in Hd2. by rewrite Hd3, Hd2. }
    rewrite H4. simpl. eauto.
  - unfold Message_read_pair.
    apply andb_true_iff in Hl as [Hla Hlb].
    destruct (Message_bool s.1); simpl; [|eauto].
    destruct (rd_total s a) as (s1 & a' & Ha);
      [done|fuel_arith|].
    rewrite Ha. cbn [mbind res_bind].
    pose proof (advances_length _ _ (read_advances f reg _ _ _ _ Ha)) as Hl1.
    destruct (Message_bool s1.1); simpl; [|eauto].
    destruct (rd_total s1 b) as (s2 & b' & Hb);
      [done|fuel_arith|].
    rewrite Hb. simpl. eauto.
  - unfold Message_read_tuple.
    destruct (unmarshall_total fs s) as (s2 & fs2 & Hu).
    { apply fields_fuel; [done|]. fuel_arith. }
    rewrite Hu. simpl. eauto.
Qed.
End ReadTotal.

(** X16. Decoding never hangs and is never undefined, whatever the stream holds.
    Let every vector type inside the type of the target and inside the
    registered types have elements that put at least one item on the wire
    (so that a successful round of the loop of lines 521-523 moves the
    cursor), and let no registered type be nested deeper than [H].  Then,
    on every message, well formed or not, valid or not, and in every
    store, reading into the target returns once the fuel covers the number
    of pending items and the nesting of the types: no read of a container
    end finds no container open, no payload is cast to a wrong type, no
    loop runs on.  The target keeps its type.  The read operators of basic
    values, container markers and [Variant], and the registry, are the
    modelled ones. *)
Theorem read_always_returns (reg : VariantTypeRegistry) (H : nat) :
  registry_bounded reg H ->
  forall f s v,
    loops_end (type_of v) = true ->
    (enough_fuel H (length (pending_ s.1)) (type_of v) <= f)%nat ->
    exists s' v', read f reg s v = Ok (s', v') /\ type_of v' = type_of v.
Proof.
  intros Hreg.
  assert (Htotal : forall f s v,
            loops_end (type_of v) = true ->
            (enough_fuel H (length (pending_ s.1)) (type_of v) <= f)%nat ->
            exists s' v', read f reg s v = Ok (s', v')).
  { induction f as [|f IH]; intros s v Hl Hf.
    - unfold enough_fuel in Hf. lia.
    - by apply (read_total_step reg H f Hreg IH). }
  intros f s v Hl Hf. destruct (Htotal f s v Hl Hf) as (s' & v' & Hrd).
  exists s', v'. split; [done|].
  by destruct (read_has_facts f reg _ _ _ _ Hrd).
Qed.

(** A struct of a string and a vector of variants is read from a stream
    that breaks off inside the second variant. *)
Lemma read_always_returns_witness :
  let reg : gmap string dtype := {[ "u" := TBasic KUInt32 ]} in
  let v := VStruct [VBasic (BString ""); VArray TVariant []] in
  let s := (mkMessage []
              [WOpen (Container.mk Container.Struct "sav");
               WBasic (BString "a");
               WOpen (Container.mk Container.Array "v");
               WBasic (BSignature "u"); WBasic (BUInt32 7);
               WBasic (BSignature "u")] true, @nil value) in
  exists s' v', read 24 reg s v = Ok (s', v') /\ type_of v' = type_of v.
Proof.
  intros reg v s.
  apply (read_always_returns reg 1).
  - intros sig T Hl. unfold reg in Hl.
    apply lookup_singleton_Some in Hl as [_ <-]. split; [simpl; lia|done].
  - reflexivity.
  - vm_compute. lia.
Defined.

(** ** Writing and displaying always return on a well-formed store *)

Lemma presentable_list (h : heap) (style : LogStyle) (xs : list value) :
  Forall (presentable h style) xs ->
  exists f0, forall f, (f0 <= f)%nat ->
    (exists toks, Forall2 (writes_as (write f h)) xs toks)
    /\ (exists ss, mapM (log_value f style h) xs = Ok ss).
Proof.
  induction 1 as [|x xs [fx Hx] _ [fxs Hxs]].
  { exists 0%nat. intros f _. split; [exists []; constructor|by exists []]. }
  exists (Nat.max fx fxs). intros f Hf.
  destruct (Hx f) as [[t Ht] [s Hs]]; [lia|].
  destruct (Hxs f) as [[toks Htoks] [ss Hss]]; [lia|].
  split.
  - exists (t :: toks). by constructor.
  - exists (s :: ss). simpl. rewrite Hs. simpl. by rewrite Hss.
Qed.

Lemma presentable_values (rank : nat -> nat) (h : heap) (style : LogStyle) :
  heap_okb rank h = true ->
  forallb has_payloads h = true ->
  forall n v, value_okb rank n h v = true -> has_payloads v = true ->
    presentable h style v.
Proof.
  intros Hh Hhp n. induction n as [n IHn] using lt_wf_ind.
  assert (Hlist : forall xs,
            Forall (fun x => value_okb rank n h x = true ->
                      has_payloads x = true -> presentable h style x) xs ->
            forallb (value_okb rank n h) xs = true ->
            forallb has_payloads xs = true ->
            Forall (presentable h style) xs).
  { induction 1 as [|x xs Hx _ IH]; simpl; intros Hok Hp; [constructor|].
    apply andb_true_iff in Hok as [Hokx Hok].
    apply andb_true_iff in Hp as [Hpx Hp].
    constructor; [by apply Hx|by apply IH]. }
  intros v. induction v as [p|var|T xs IH|fs IH|k v IHk IHv|a b IHa IHb|fs IH]
    using value_ind'; intros Hok Hp; simpl in Hok, Hp.
  - exists 1%nat. intros [|f] Hf; [lia|]. split.
    + exists [WBasic p]. split; [apply balanced_basic|].
      intros m Hm. simpl. unfold Message_write_basic. by rewrite Hm.
    + simpl. eauto.
  - destruct var as [sig [l|] [T|]]; simpl in Hok, Hp; try done.
    + destruct (variant_okb_inv _ _ _ _ Hok T l eq_refl eq_refl)
        as (Hr & pv & Hpv & Hty).
      destruct (IHn (rank l) Hr pv) as [f1 Hf1].
      { by apply (heap_okb_lookup rank h l pv). }
      { apply forallb_Forall in Hhp.
        by apply (proj1 (Forall_lookup _ _) Hhp l pv). }
      exists (S f1). intros [|f] Hf; [lia|].
      destruct (Hf1 f) as [[t [Hb Ht]] [s Hs]]; [lia|].
      split.
      * exists (WBasic (BSignature sig) :: t). split.
        -- apply (balanced_app [_]); [apply balanced_basic|done].
        -- intros m Hm. simpl.
           unfold Message_write_Variant, Variant_writeToMessage,
             VariantHelper_serialize, Message_write_basic, deref. simpl.
           rewrite Hm, Hpv. simpl. rewrite decide_True by done. simpl.
           rewrite Ht by (by rewrite Message_append_ok).
           by rewrite Message_append_append.
      * simpl. unfold log_Variant, Variant_printData, VariantHelper_print,
          deref. simpl.
        rewrite Hpv. rewrite decide_True by done. simpl. rewrite Hs.
        simpl. eauto.
    + exists 1%nat. intros [|f] Hf; [lia|]. split.
      * exists [WBasic (BSignature sig)]. split; [apply balanced_basic|].
        intros m Hm. simpl.
        unfold Message_write_Variant, Variant_writeToMessage,
          Message_write_basic. simpl. by rewrite Hm.
      * simpl. unfold log_Variant, Variant_printData. simpl. eauto.
    + exists 1%nat. intros [|f] Hf; [lia|]. split.
      * exists [WBasic (BSignature sig)]. split; [apply balanced_basic|].
        intros m Hm. simpl.
        unfold Message_write_Variant, Variant_writeToMessage,
          Message_write_basic. simpl. by rewrite Hm.
      * simpl. unfold log_Variant, Variant_printData. simpl. eauto.
  - destruct (presentable_list h style xs (Hlist xs IH Hok Hp)) as [f0 Hf0].
    exists (S f0). intros [|f] Hf; [lia|].
    destruct (Hf0 f) as [[toks Htoks] [ss Hss]]; [lia|]. split.
    + eexists. destruct (vector_writes (write f h) T xs toks Htoks)
        as [Hb Hw].
      split; [exact Hb|]. intros m Hm. simpl. by apply Hw.
    + simpl. rewrite Hss. simpl. eauto.
  - destruct (presentable_list h style fs (Hlist fs IH Hok Hp)) as [f0 Hf0].
    exists (S f0). intros [|f] Hf; [lia|].
    destruct (Hf0 f) as [[toks Htoks] [ss Hss]]; [lia|]. split.
    + eexists. destruct (DBusStruct_writes (write f h) fs toks Htoks)
        as [Hb Hw].
      split; [exact Hb|]. intros m Hm. simpl. by apply Hw.
    + simpl. rewrite Hss. simpl. eauto.
  - apply andb_true_iff in Hok as [Hokk Hokv].
    apply andb_true_iff in Hp as [Hpk Hpv].
    destruct (IHk Hokk Hpk) as [fk Hk]. destruct (IHv Hokv Hpv) as [fv Hv].
    exists (S (Nat.max fk fv)). intros [|f] Hf; [lia|].
    destruct (Hk f) as [[tk Htk] [sk Hsk]]; [lia|].
    destruct (Hv f) as [[tv Htv] [sv Hsv]]; [lia|]. split.
    + eexists. destruct (DictEntry_writes (write f h) k v tk tv Htk Htv)
        as [Hb Hw].
      split; [exact Hb|]. intros m Hm. simpl. by apply Hw.
    + simpl. rewrite Hsk. simpl. rewrite Hsv. simpl. eauto.
  - apply andb_true_iff in Hok as [Hoka Hokb].
    apply andb_true_iff in Hp as [Hpa Hpb].
    destruct (IHa Hoka Hpa) as [fa Ha]. destruct (IHb Hokb Hpb) as [fb Hb].
    exists (S (Nat.max fa fb)). intros [|f] Hf; [lia|].
    destruct (Ha f) as [[ta Hta] [sa Hsa]]; [lia|].
    destruct (Hb f) as [[tb Htb] [sb Hsb]]; [lia|]. split.
    + eexists. destruct (pair_writes (write f h) a b ta tb Hta Htb)
        as [Hbal Hw].
      split; [exact Hbal|]. intros m Hm. simpl. by apply Hw.
    + simpl. rewrite Hsa. simpl. rewrite Hsb. simpl. eauto.
  - destruct (presentable_list h style fs (Hlist fs IH Hok Hp)) as [f0 Hf0].
    exists (S f0). intros [|f] Hf; [lia|].
    destruct (Hf0 f) as [[toks Htoks] [ss Hss]]; [lia|]. split.
    + eexists. destruct (tuple_writes (write f h) fs toks Htoks)
        as [Hb Hw].
      split; [exact Hb|]. intros m Hm. simpl. by apply Hw.
    + simpl. rewrite Hss. simpl. eauto.
Qed.

(** X17. Serializing and displaying never hang and are never undefined on a
    well-formed store.  Let no payload of the store reach itself through
    nested variants, let every payload have the type of the helper bound
    to it, and let no variant have a helper and a null payload.  Then
    every value over that store, variants nested inside variants included,
    is written and displayed once the fuel is enough: the write appends
    the same balanced items to every valid message, through
    [VariantHelper::serialize] (lines 93-96) for each payload, and the log
    operator (lines 568-574) returns a text, through [printData] (lines
    195-199) and [VariantHelper::print] (lines 101-104). *)
Theorem well_formed_values_are_presentable (rank : nat -> nat) (h : heap)
    (style : LogStyle) (n : nat) (v : value) :
  heap_okb rank h = true ->
  forallb has_payloads h = true ->
  value_okb rank n h v = true ->
  has_payloads v = true ->
  exists f0, forall f, (f0 <= f)%nat ->
    (exists t, balanced t
       /\ forall m, Message_bool m = true ->
            write f h m v = Ok (Message_append m t))
    /\ (exists s, log_value f style h v = Ok s).
Proof.
  intros Hh Hhp Hok Hp.
  exact (presentable_values rank h style Hh Hhp n v Hok Hp).
Qed.

(** A variant that holds a vector of two variants, over a store of three
    objects. *)
Lemma well_formed_values_are_presentable_witness :
  let u := TBasic KUInt32 in
  let inner a := VVariant (mkVariant "u" (Some a) (Some u)) in
  let h := [VBasic (BUInt32 7); VBasic (BUInt32 8);
            VArray TVariant [inner 0%nat; inner 1%nat]] in
  let v := VVariant (mkVariant "av" (Some 2%nat) (Some (TArray TVariant))) in
  let style := mkLogStyle (fun _ => "?") (fun _ => "[]") (fun _ => "()") in
  exists f0, forall f, (f0 <= f)%nat ->
    (exists t, balanced t
       /\ forall m, Message_bool m = true ->
            write f h m v = Ok (Message_append m t))
    /\ (exists s, log_value f style h v = Ok s).
Proof.
  intros u inner h v style.
  apply (well_formed_values_are_presentable (fun a => a) h style 3 v);
    reflexivity.
Defined.

(** ** A store that has been decoded into is well formed *)

Lemma has_payloads_default (T : dtype) : has_payloads (default_value T) = true.
Proof.
  induction T as [k| |e IH|fs IH|k v IHk IHv|a c IHa IHc|fs IH]
    using dtype_ind'; simpl; try done.
  - apply Forall_forallb. by apply Forall_fmap.
  - by rewrite IHk, IHv.
  - by rewrite IHa, IHc.
  - apply Forall_forallb. by apply Forall_fmap.
Qed.

Lemma value_okb_insert (rk : nat -> nat) (b : nat) (h : list value)
    (l : nat) (old new x : value) :
  h !! l = Some old -> type_of new = type_of old ->
  value_okb rk b h x = true -> value_okb rk b (<[l := new]> h) x = true.
Proof.
  intros Hl Hty. apply (value_okb_impl _ _ _ _ _ _ (fun _ => True));
    [|apply Forall_True].
  intros var _ Hok. apply variant_okb_intro. intros T l0 HT Hl0.
  destruct (variant_okb_inv _ _ _ _ Hok T l0 HT Hl0) as (Hr & pv & Hpv & Hpt).
  split; [done|]. destruct (decide (l = l0)) as [<-|Hne].
  - exists new. rewrite list_lookup_insert_eq by (by eapply lookup_lt_Some).
    split; [done|]. congruence.
  - exists pv. by rewrite list_lookup_insert_ne.
Qed.

Lemma forallb_okb_mono (rk : nat -> nat) (b b' : nat) (h h' : list value)
    (xs : list value) :
  (b <= b')%nat -> h `prefix_of` h' ->
  forallb (value_okb rk b h) xs = true ->
  forallb (value_okb rk b' h') xs = true.
Proof.
  intros Hb Hpre H. apply Forall_forallb. apply forallb_Forall in H.
  eapply Forall_impl; [exact H|]. intros x. by apply value_okb_mono.
Qed.

Lemma new_cells_ok_nil (rk : nat -> nat) (h : list value) :
  new_cells_ok rk (length h) h.
Proof. intros a cell Ha Hle. apply lookup_lt_Some in Ha. lia. Qed.

Lemma new_cells_ok_seq (rk : nat -> nat) (lo : nat) (h1 h2 : list value) :
  new_cells_ok rk lo h1 -> new_cells_ok rk (length h1) h2 ->
  h1 `prefix_of` h2 -> new_cells_ok rk lo h2.
Proof.
  intros H1 H2 Hpre a cell Ha Hle.
  destruct (decide (length h1 <= a)%nat) as [Hge|Hlt]; [by apply H2|].
  assert (Ha1 : h1 !! a = Some cell).
  { destruct Hpre as [k ->]. by rewrite lookup_app_l in Ha by lia. }
  destruct (H1 a cell Ha1 Hle) as [Hok Hp]. split; [|done].
  by apply (value_okb_mono rk (rk a) _ h1).
Qed.

Lemma ranked_step_same (rk : nat -> nat) (B : nat) (h : list value)
    (x : value) :
  ranked_step rk B h x h x.
Proof.
  split; [|split; [done|apply new_cells_ok_nil]].
  intros b Hok. by apply (value_okb_mono rk b _ h); [lia| |].
Qed.

(** Two reads one after the other, into the two parts [a] and [b] of the
    value [ab]. *)
Lemma ranked_step_two (rk : nat -> nat) (B : nat)
    (h h1 h2 : list value) (a a' b b' ab ab' : value) :
  (forall bd hh,
     value_okb rk bd hh ab = value_okb rk bd hh a && value_okb rk bd hh b) ->
  (forall bd hh,
     value_okb rk bd hh ab' = value_okb rk bd hh a' && value_okb rk bd hh b') ->
  has_payloads ab = has_payloads a && has_payloads b ->
  has_payloads ab' = has_payloads a' && has_payloads b' ->
  h `prefix_of` h1 -> h1 `prefix_of` h2 ->
  ranked_step rk B h a h1 a' -> ranked_step rk B h1 b h2 b' ->
  ranked_step rk B h ab h2 ab'.
Proof.
  intros Hc Hc' Hp Hp' Hpre1 Hpre2 (Ha1 & Ha2 & Ha3) (Hb1 & Hb2 & Hb3).
  pose proof (prefix_length _ _ Hpre1) as Hl1.
  split; [|split].
  - intros bd Hok. rewrite Hc in Hok. rewrite Hc'.
    apply andb_true_iff in Hok as [Hoka Hokb].
    apply andb_true_iff. split.
    + apply (value_okb_mono rk (Nat.max bd (S (B - length h))) _ h1);
        [done|done|by apply Ha1].
    + apply (value_okb_mono rk (Nat.max bd (S (B - length h1))) _ h2);
        [lia|done|].
      apply Hb1. by apply (value_okb_mono rk bd _ h).
  - rewrite Hp, Hp'. intros Hab. apply andb_true_iff in Hab as [Hpa Hpb].
    apply andb_true_iff. split; [by apply Ha2|by apply Hb2].
  - by eapply new_cells_ok_seq.
Qed.

Section ReadRanked.
Variable rk : nat -> nat.
Variable n0 B : nat.
Hypothesis rk_new : forall a, (n0 <= a)%nat -> rk a = (B - a)%nat.
Variable rd : rstate -> value -> res (rstate * value).
Hypothesis rd_grows : grows rd.
Hypothesis rd_facts : read_facts rd.
Hypothesis rd_ranked : decodes_in_order rk n0 B rd.

Lemma reads_fields_ranked (fs : list value) :
  forall (s s_end : rstate) (fs' : list value),
    reads_fields rd s fs fs' s_end ->
    (n0 <= length s.2)%nat -> (length s_end.2 <= B)%nat ->
    s.2 `prefix_of` s_end.2
    /\ ranked_step rk B s.2 (VTuple fs) s_end.2 (VTuple fs').
Proof.
  induction fs as [|x fs IH]; intros s s_end [|x' fs'] H Hn HB; simpl in H;
    try done.
  { subst. split; [done|]. apply ranked_step_same. }
  destruct H as (s1 & Hx & H).
  pose proof (rd_grows _ _ _ _ Hx) as Hp1.
  pose proof (prefix_length _ _ Hp1) as Hl1.
  destruct (IH _ _ _ H) as (Hp2 & Hstep2); [lia|done|].
  pose proof (prefix_length _ _ Hp2) as Hl2.
  assert (Hstep1 : ranked_step rk B s.2 x s1.2 x')
    by (apply (rd_ranked _ _ _ _ Hx); [done|lia]).
  split; [by etrans|].
  by apply (ranked_step_two rk B s.2 s1.2 s_end.2 x x' (VTuple fs)
              (VTuple fs')).
Qed.

Lemma unmarshall_ranked (N : nat) (s s' : rstate) (t t' : list value) :
  (N <= length t)%nat ->
  TupleMarshaller_unmarshall rd N s t = Ok (s', t') ->
  (n0 <= length s.2)%nat -> (length s'.2 <= B)%nat ->
  ranked_step rk B s.2 (VTuple t) s'.2 (VTuple t').
Proof.
  intros HN H Hn HB. apply unmarshall_take in H as (fs' & -> & H); [|done].
  destruct (reads_fields_ranked _ _ _ _ H Hn HB) as (Hpre & H1 & H2 & H3).
  split; [|split; [|done]].
  - intros b Hok. simpl in *. rewrite <- (take_drop N t) in Hok.
    rewrite forallb_app in Hok |- *.
    apply andb_true_iff in Hok as [Hok1 Hok2].
    apply andb_true_iff. split; [by apply H1|].
    eapply forallb_okb_mono; [|exact Hpre|exact Hok2]. lia.
  - simpl in *. intros Hp. rewrite <- (take_drop N t) in Hp.
    rewrite forallb_app in Hp |- *.
    apply andb_true_iff in Hp as [Hp1 Hp2].
    apply andb_true_iff. split; [by apply H2|done].
Qed.

Lemma read_while_ranked (n : nat) :
  forall (s s' : rstate) (temp : value) (t t' : list value),
    read_while rd n s temp t = Ok (s', t') ->
    (n0 <= length s.2)%nat -> (length s'.2 <= B)%nat ->
    ranked_step rk B s.2 (VTuple (temp :: t)) s'.2 (VTuple t').
Proof.
  induction n as [|n IH]; intros s s' temp t t' H Hn HB; [done|].
  simpl in H. destruct (Message_end s.1); simpl in H.
  { inversion H; subst. split; [|split; [|apply new_cells_ok_nil]].
    - intros b Hok. simpl in *. apply andb_true_iff in Hok as [_ Hok].
      eapply forallb_okb_mono; [|reflexivity|exact Hok]. lia.
    - simpl. intros Hp. by apply andb_true_iff in Hp as [_ Hp]. }
  apply bind_Ok in H as ([s1 temp1] & Hrd & H).
  pose proof (rd_grows _ _ _ _ Hrd) as Hp1.
  pose proof (prefix_length _ _ Hp1) as Hl1. simpl in Hp1, Hl1.
  destruct (Message_bool s1.1).
  - pose proof (read_while_grows rd rd_grows _ _ _ _ _ _ H) as Hp2.
    pose proof (prefix_length _ _ Hp2) as Hl2. simpl in Hp2, Hl2.
    destruct (rd_ranked _ _ _ _ Hrd) as (Ht1 & Ht2 & Ht3); [done|simpl; lia|].
    destruct (IH _ _ _ _ _ H) as (Hr1 & Hr2 & Hr3); [simpl; lia|done|].
    simpl in *. split; [|split].
    + intros b Hok. apply andb_true_iff in Hok as [Hokt Hok].
      apply (forallb_okb_mono rk
               (Nat.max (Nat.max b (S (B - length s.2)))
                  (S (B - length s1.2))) _ s'.2 s'.2); [lia|done|].
      apply Hr1. apply andb_true_iff. split; [by apply Ht1|].
      rewrite forallb_app. apply andb_true_iff. split.
      * eapply forallb_okb_mono; [|exact Hp1|exact Hok]. lia.
      * simpl. rewrite andb_true_r. by apply Ht1.
    + intros Hp. apply andb_true_iff in Hp as [Hpt Hp].
      apply Hr2. apply andb_true_iff. split; [by apply Ht2|].
      rewrite forallb_app. apply andb_true_iff. split; [done|].
      simpl. rewrite andb_true_r. by apply Ht2.
    + by eapply new_cells_ok_seq.
  - inversion H; subst. simpl in *.
    destruct (rd_ranked _ _ _ _ Hrd) as (Ht1 & Ht2 & Ht3); [done|done|].
    split; [|split; [|done]].
    + intros b Hok. apply andb_true_iff in Hok as [_ Hok].
      eapply forallb_okb_mono; [|exact Hp1|exact Hok]. lia.
    + intros Hp. by apply andb_true_iff in Hp as [_ Hp].
Qed.

Lemma pair_ranked (s s' : rstate) (a b x' : value) :
  Message_read_pair rd s a b = Ok (s', x') ->
  (n0 <= length s.2)%nat -> (length s'.2 <= B)%nat ->
  ranked_step rk B s.2 (VPair a b) s'.2 x'.
Proof.
  unfold Message_read_pair. intros H Hn HB.
  destruct (Message_bool s.1); simpl in H;
    [|inversion H; subst; apply ranked_step_same].
  apply bind_Ok in H as ([s1 a'] & Hrd1 & H).
  pose proof (rd_grows _ _ _ _ Hrd1) as Hp1. simpl in Hp1.
  destruct (Message_bool s1.1); simpl in H.
  - apply bind_Ok in H as ([s2 b'] & Hrd2 & H). inversion H; subst.
    pose proof (rd_grows _ _ _ _ Hrd2) as Hp2. simpl in Hp2.
    pose proof (prefix_length _ _ Hp1) as Hl1.
    pose proof (prefix_length _ _ Hp2) as Hl2.
    apply (ranked_step_two rk B s.2 s1.2 s'.2 a a' b b'); try done.
    + apply (rd_ranked _ _ _ _ Hrd1); [done|simpl; lia].
    + apply (rd_ranked _ _ _ _ Hrd2); [simpl; lia|done].
  - inversion H; subst.
    apply (ranked_step_two rk B s.2 s'.2 s'.2 a a' b b); try done.
    + by apply (rd_ranked _ _ _ _ Hrd1).
    + apply ranked_step_same.
Qed.

Lemma tuple_ranked (s s' : rstate) (t : list value) (x' : value) :
  Message_read_tuple rd s t = Ok (s', x') ->
  (n0 <= length s.2)%nat -> (length s'.2 <= B)%nat ->
  ranked_step rk B s.2 (VTuple t) s'.2 x'.
Proof.
  unfold Message_read_tuple. intros H Hn HB.
  apply bind_Ok in H as ([s1 t1] & Hu & H). inversion H; subst.
  by eapply unmarshall_ranked.
Qed.

Lemma DBusStruct_ranked (s s' : rstate) (t : list value) (x' : value) :
  Message_read_DBusStruct rd s t = Ok (s', x') ->
  (n0 <= length s.2)%nat -> (length s'.2 <= B)%nat ->
  ranked_step rk B s.2 (VStruct t) s'.2 x'.
Proof.
  unfold Message_read_DBusStruct, on_message. cbn [fst snd]. intros H Hn HB.
  destruct (Message_bool (Message_read_Container s.1 _));
    [|inversion H; subst; apply ranked_step_same].
  apply bind_Ok in H as ([s2 t2] & Hu & H).
  assert (Hstep : (length s2.2 <= B)%nat ->
            ranked_step rk B s.2 (VStruct t) s2.2 (VStruct t2)).
  { intros HB2. by apply (unmarshall_ranked _ _ _ _ _ (Nat.le_refl _) Hu). }
  destruct (Message_bool s2.1); [|inversion H; subst; by apply Hstep].
  apply bind_Ok in H as (m3 & _ & H). inversion H; subst. by apply Hstep.
Qed.

Lemma DictEntry_ranked (s s' : rstate) (k v x' : value) :
  Message_read_DictEntry rd s k v = Ok (s', x') ->
  (n0 <= length s.2)%nat -> (length s'.2 <= B)%nat ->
  ranked_step rk B s.2 (VDictEntry k v) s'.2 x'.
Proof.
  unfold Message_read_DictEntry, on_message. cbn [fst snd]. intros H Hn HB.
  destruct (Message_bool (Message_read_Container s.1 _));
    [|inversion H; subst; apply ranked_step_same].
  apply bind_Ok in H as ([s2 k'] & Hrd2 & H).
  pose proof (rd_grows _ _ _ _ Hrd2) as Hp2. simpl in Hp2.
  pose proof (prefix_length _ _ Hp2) as Hl2.
  destruct (Message_bool s2.1); simpl in H.
  - apply bind_Ok in H as ([s3 v'] & Hrd3 & H).
    pose proof (rd_grows _ _ _ _ Hrd3) as Hp3. simpl in Hp3.
    pose proof (prefix_length _ _ Hp3) as Hl3.
    assert (Hstep : (length s3.2 <= B)%nat ->
              ranked_step rk B s.2 (VDictEntry k v) s3.2 (VDictEntry k' v')).
    { intros HB3.
      apply (ranked_step_two rk B s.2 s2.2 s3.2 k k' v v'); try done.
      - apply (rd_ranked _ _ _ _ Hrd2); [done|simpl; lia].
      - apply (rd_ranked _ _ _ _ Hrd3); [simpl; lia|done]. }
    destruct (Message_bool s3.1); simpl in H;
      [|inversion H; subst; by apply Hstep].
    apply bind_Ok in H as (m4 & _ & H). inversion H; subst. by apply Hstep.
  - inversion H; subst.
    apply (ranked_step_two rk B s.2 s'.2 s'.2 k k' v v); try done.
    + by apply (rd_ranked _ _ _ _ Hrd2).
    + apply ranked_step_same.
Qed.

Lemma vector_ranked (n : nat) (s s' : rstate) (T : dtype) (t : list value)
    (x' : value) :
  Message_read_vector rd n s T t = Ok (s', x') ->
  (n0 <= length s.2)%nat -> (length s'.2 <= B)%nat ->
  ranked_step rk B s.2 (VArray T t) s'.2 x'.
Proof.
  unfold Message_read_vector, on_message. cbn [fst snd]. intros H Hn HB.
  destruct (Message_bool (Message_read_Container s.1 _));
    [|inversion H; subst; apply ranked_step_same].
  apply bind_Ok in H as ([s2 t2] & Hu & H).
  apply bind_Ok in H as (m3 & _ & H). inversion H; subst.
  destruct (read_while_ranked _ _ _ _ _ _ Hu Hn HB) as (H1 & H2 & H3).
  simpl in *. split; [|split; [|done]].
  - intros b Hok. apply H1. apply andb_true_iff. split; [|done].
    apply value_okb_default.
  - intros Hp. apply H2. apply andb_true_iff. split; [|done].
    apply has_payloads_default.
Qed.

Lemma Variant_ranked (reg : VariantTypeRegistry) (s s' : rstate)
    (target v' : Variant) :
  Message_read_Variant rd reg s target = Ok (s', v') ->
  (n0 <= length s.2)%nat -> (length s'.2 <= B)%nat ->
  ranked_step rk B s.2 (VVariant target) s'.2 (VVariant v').
Proof.
  unfold Message_read_Variant. intros H Hn HB.
  destruct (Message_bool s.1); simpl in H;
    [|inversion H; subst; apply ranked_step_same].
  destruct (Message_read_basic s.1 KSignature) as [m1 o].
  destruct o as [[| | | | | | | | | | |sig|]|];
    try (inversion H; subst; apply ranked_step_same).
  destruct (lookupType reg sig) as [T|];
    [|inversion H; subst; apply ranked_step_same].
  unfold VariantHelper_copy_null, make_shared, VariantHelper_deserialize,
    deref in H. cbn [fst snd] in H.
  rewrite snoc_lookup, type_of_default in H.
  rewrite decide_True in H by done. cbn [mbind res_bind] in H.
  apply bind_Ok in H as (s2 & H2 & H). inversion H; subst. clear H.
  apply bind_Ok in H2 as ([st1 pv] & Hrd & H2). inversion H2; subst.
  clear H2. cbn [fst snd] in *.
  pose proof (rd_grows _ _ _ _ Hrd) as Hpre. simpl in Hpre.
  pose proof (prefix_length _ _ Hpre) as Hlen.
  rewrite length_app in Hlen. simpl in Hlen.
  rewrite length_insert in HB.
  destruct (rd_facts _ _ _ _ Hrd) as [Hty _].
  rewrite type_of_default in Hty.
  destruct (rd_ranked _ _ _ _ Hrd) as (Hs1 & Hs2 & Hs3).
  { simpl. rewrite length_app. simpl. lia. }
  { done. }
  simpl in Hs1, Hs2, Hs3. rewrite length_app in Hs1, Hs3. simpl in Hs1, Hs3.
  assert (Hold : st1.2 !! length s.2 = Some (default_value T)).
  { eapply prefix_lookup_Some; [|exact Hpre]. apply snoc_lookup. }
  assert (Hins : forall b x, value_okb rk b st1.2 x = true ->
            value_okb rk b (<[length s.2 := pv]> st1.2) x = true).
  { intros b x. apply (value_okb_insert rk b _ _ (default_value T)); [done|].
    by rewrite type_of_default. }
  assert (Hpv : value_okb rk (rk (length s.2)) st1.2 pv = true).
  { rewrite rk_new by done.
    replace (B - length s.2)%nat
      with (Nat.max 0 (S (B - (length s.2 + 1)))) by lia.
    apply Hs1. apply value_okb_default. }
  split; [|split].
  - intros b _. apply variant_okb_intro. simpl. intros T0 l [= <-] [= <-].
    rewrite rk_new by done. split; [lia|].
    exists pv. split; [|done].
    apply list_lookup_insert_eq. lia.
  - done.
  - intros a cell Ha Hle.
    destruct (decide (a = length s.2)) as [->|Hne].
    + rewrite list_lookup_insert_eq in Ha by lia. inversion Ha; subst.
      split; [by apply Hins|]. apply Hs2. apply has_payloads_default.
    + rewrite list_lookup_insert_ne in Ha by done.
      destruct (Hs3 a cell Ha) as [Hok Hp]; [lia|].
      split; [by apply Hins|done].
Qed.
End ReadRanked.

Lemma read_ranked (rk : nat -> nat) (n0 B : nat) (f : nat)
    (reg : VariantTypeRegistry) :
  (forall a, (n0 <= a)%nat -> rk a = (B - a)%nat) ->
  decodes_in_order rk n0 B (read f reg).
Proof.
  intros Hrk. induction f as [|f IH]; intros s x s' x' H Hn HB; [done|].
  pose proof (read_grows f reg) as Hg.
  pose proof (read_has_facts f reg) as Hf.
  destruct x as [p|var|T xs|fs|k v|a b|fs]; simpl in H.
  - unfold Message_read_basic_into in H.
    destruct (Message_read_basic s.1 (kind_of p)) as [m1 [q|]];
      inversion H; subst; simpl;
      (split; [done|split; [done|apply new_cells_ok_nil]]).
  - apply bind_Ok in H as ([s1 var'] & Hv & H). inversion H; subst.
    by apply (Variant_ranked rk n0 B Hrk (read f reg) Hg Hf IH reg s s'
                var var').
  - by apply (vector_ranked rk n0 B (read f reg) Hg IH f s s' T xs x').
  - by apply (DBusStruct_ranked rk n0 B (read f reg) Hg IH s s' fs x').
  - by apply (DictEntry_ranked rk n0 B (read f reg) Hg IH s s' k v x').
  - by apply (pair_ranked rk n0 B (read f reg) Hg IH s s' a b x').
  - by apply (tuple_ranked rk n0 B (read f reg) Hg IH s s' fs x').
Qed.

(** X18. What has been decoded can be copied, written and displayed.  Start
    from a well-formed store in which no variant has a helper and a null
    payload, and from a target with the same properties, an empty variant
    for instance.  After any read into the target that returns, successful
    or not, the store is again well formed, under the ranking that ranks
    the objects made by the read by the order of their creation: every
    payload that [VariantHelper::copy] of a null source made (line 91) and
    [deserialize] filled (lines 97-100) has the type of the helper that
    [setRawData] bound (lines 176-183), holds only variants whose payloads
    were made after it, and no variant misses its payload.  So the target
    and everything in the store can be copied, written to a message and
    displayed without undefined behaviour and without running on.  The
    read operators of basic values, container markers and [Variant], and
    the registry, are the modelled ones. *)
Theorem decoding_keeps_store_well_formed (rank : nat -> nat) (f : nat)
    (reg : VariantTypeRegistry) (style : LogStyle) (s s' : rstate)
    (x x' : value) (b : nat) :
  heap_okb rank s.2 = true ->
  forallb has_payloads s.2 = true ->
  value_okb rank b s.2 x = true ->
  has_payloads x = true ->
  read f reg s x = Ok (s', x') ->
  let rank' := rank_after rank (length s.2) (length s'.2) in
  heap_okb rank' s'.2 = true
  /\ forallb has_payloads s'.2 = true
  /\ value_okb rank' (Nat.max b (S (length s'.2 - length s.2))) s'.2 x' = true
  /\ has_payloads x' = true
  /\ copyable s'.2 x'
  /\ presentable s'.2 style x'.
Proof.
  intros Hh Hhp Hok Hp Hrd rank'.
  assert (Hrk : forall a, (length s.2 <= a)%nat ->
            rank' a = (length s'.2 - a)%nat).
  { intros a Ha. unfold rank', rank_after. by rewrite decide_False by lia. }
  pose proof (read_grows f reg _ _ _ _ Hrd) as Hpre.
  destruct (read_ranked rank' (length s.2) (length s'.2) f reg Hrk
              _ _ _ _ Hrd (Nat.le_refl _) (Nat.le_refl _))
    as (H1 & H2 & H3).
  assert (Hold : forall bd y, value_okb rank bd s.2 y = true ->
            value_okb rank' bd s'.2 y = true).
  { intros bd y. apply (value_okb_impl _ _ _ _ _ _ (fun _ => True));
      [|apply Forall_True].
    intros var _ Hv. apply variant_okb_intro. intros T l HT Hl.
    destruct (variant_okb_inv _ _ _ _ Hv T l HT Hl) as (Hr & pv & Hpv & Hty).
    apply lookup_lt_Some in Hpv as Hlt. unfold rank', rank_after.
    rewrite decide_True by done. split; [done|].
    exists pv. split; [|done]. by eapply prefix_lookup_Some. }
  assert (Hold' : forall bd y, value_okb rank bd s.2 y = true ->
            value_okb rank' bd s.2 y = true).
  { intros bd y. apply (value_okb_impl _ _ _ _ _ _ (fun _ => True));
      [|apply Forall_True].
    intros var _ Hv. apply variant_okb_intro. intros T l HT Hl.
    destruct (variant_okb_inv _ _ _ _ Hv T l HT Hl) as (Hr & pv & Hpv & Hty).
    apply lookup_lt_Some in Hpv as Hlt. unfold rank', rank_after.
    rewrite decide_True by done. eauto. }
  assert (Hheap : heap_okb rank' s'.2 = true).
  { apply heap_okb_from_intro. intros i cell Hi. simpl.
    destruct (decide (i < length s.2)%nat) as [Hlt|Hge].
    - replace (rank' i) with (rank i)
        by (unfold rank', rank_after; by rewrite decide_True).
      apply Hold. apply (heap_okb_lookup rank s.2 i cell Hh).
      destruct Hpre as [k Hk]. rewrite Hk in Hi.
      by rewrite lookup_app_l in Hi.
    - apply (H3 i cell Hi). lia. }
  assert (Hhp' : forallb has_payloads s'.2 = true).
  { apply Forall_forallb. apply Forall_lookup. intros i cell Hi.
    destruct (decide (i < length s.2)%nat) as [Hlt|Hge].
    - apply forallb_Forall in Hhp.
      apply (proj1 (Forall_lookup _ _) Hhp i cell).
      destruct Hpre as [k Hk]. rewrite Hk in Hi.
      by rewrite lookup_app_l in Hi.
    - apply (H3 i cell Hi). lia. }
  assert (Hx' : value_okb rank'
                  (Nat.max b (S (length s'.2 - length s.2))) s'.2 x' = true)
    by (apply H1; by apply Hold').
  split; [done|]. split; [done|]. split; [done|]. split; [by apply H2|].
  split.
  - by eapply (value_copyable rank' s'.2 Hheap).
  - eapply (presentable_values rank' s'.2 style Hheap Hhp'); [exact Hx'|].
    by apply H2.
Qed.

(** A variant that carries a vector of two variants is decoded into an
    empty variant, in an empty store. *)
Lemma decoding_keeps_store_well_formed_witness :
  let reg : gmap string dtype :=
    {[ "u" := TBasic KUInt32; "av" := TArray TVariant ]} in
  let stream :=
    [WBasic (BSignature "av");
     WOpen (Container.mk Container.Array "v");
     WBasic (BSignature "u"); WBasic (BUInt32 7);
     WBasic (BSignature "u"); WBasic (BUInt32 8);
     WClose] in
  let inner a := VVariant (mkVariant "u" (Some a) (Some (TBasic KUInt32))) in
  let h := [VArray TVariant [inner 1%nat; inner 2%nat];
            VBasic (BUInt32 7); VBasic (BUInt32 8)] in
  let x' := VVariant (mkVariant "av" (Some 0%nat) (Some (TArray TVariant))) in
  let style := mkLogStyle (fun _ => "?") (fun _ => "[]") (fun _ => "()") in
  let rank' := rank_after (fun a => a) 0 3 in
  heap_okb rank' h = true
  /\ forallb has_payloads h = true
  /\ value_okb rank' (Nat.max 0 (S (3 - 0))) h x' = true
  /\ has_payloads x' = true
  /\ copyable h x'
  /\ presentable h style x'.
Proof.
  intros reg stream inner h x' style rank'.
  apply (decoding_keeps_store_well_formed (fun a => a) 5 reg style
           (mkMessage [] stream true, [])
           (mkMessage stream [] true, h)
           (VVariant Variant_default) x' 0); reflexivity.
Defined.

(** ** Decoding keeps the invariant of Variant *)

(** X19. The invariant of [Variant] across [operator>>].  A read into a variant
    that satisfies the invariant leaves a variant that satisfies it,
    whether the read succeeds or fails and whatever the registry holds:
    on failure the target is as it was; on success [setRawData] (lines
    176-183) binds the helper found for the signature together with the
    payload object that [VariantHelper::copy] made for that helper (line
    91) and [deserialize] filled (lines 97-100), which has the helper's
    type.  And if the message is valid after the read, the target has a
    helper and a payload.  The operator itself and [lookupType] are the
    modelled ones. *)
Theorem decode_keeps_variant_invariant (f : nat) (reg : VariantTypeRegistry)
    (s s' : rstate) (target : Variant) (x' : value) :
  Variant_consistent s.2 target ->
  read f reg s (VVariant target) = Ok (s', x') ->
  exists var',
    x' = VVariant var'
    /\ Variant_consistent s'.2 var'
    /\ payload_matches s'.2 var'
    /\ (Message_bool s'.1 = true ->
        exists T l pv, helper_ var' = Some T /\ data_ var' = Some l
          /\ s'.2 !! l = Some pv /\ type_of pv = T
          /\ signature_ var' = signature T).
Proof.
  intros Hcons H. destruct f as [|f]; [done|]. simpl in H.
  apply bind_Ok in H as ([s1 var'] & Hv & H). inversion H; subst. clear H.
  exists var'. split; [done|].
  assert (Hfail : forall m, Message_bool m = false ->
            Variant_consistent s.2 target
            /\ payload_matches s.2 target
            /\ (Message_bool m = true ->
                exists T l pv, helper_ target = Some T /\ data_ target = Some l
                  /\ s.2 !! l = Some pv /\ type_of pv = T
                  /\ signature_ target = signature T)).
  { intros m Hm. split; [done|]. split; [by apply consistent_matches|].
    congruence. }
  unfold Message_read_Variant in Hv.
  destruct (Message_bool s.1) eqn:Hs; simpl in Hv;
    [|inversion Hv; subst; by apply (Hfail s'.1)].
  destruct (Message_read_basic s.1 KSignature) as [m1 o] eqn:Hb.
  assert (Hnone : o = None -> Message_bool m1 = false).
  { intros ->. unfold Message_read_basic in Hb. rewrite Hs in Hb.
    destruct (pending_ s.1) as [|[p|c|] rest]; try by inversion Hb.
    destruct (decide (kind_of p = KSignature)); by inversion Hb. }
  assert (Hkind : forall p, o = Some p -> kind_of p = KSignature).
  { intros p ->. by destruct (read_basic_facts _ _ _ _ Hb) as [Hk _];
      apply Hk. }
  destruct o as [p|]; [|inversion Hv; subst; by apply (Hfail m1), Hnone].
  destruct p as [| | | | | | | | | | |sig|];
    try (by specialize (Hkind _ eq_refl)).
  destruct (lookupType reg sig) as [T|];
    [|inversion Hv; subst; by apply (Hfail (Message_fail m1))].
  unfold VariantHelper_copy_null, make_shared, VariantHelper_deserialize,
    deref in Hv. cbn [fst snd] in Hv.
  rewrite snoc_lookup, type_of_default in Hv.
  rewrite decide_True in Hv by done. cbn [mbind res_bind] in Hv.
  apply bind_Ok in Hv as (s2 & H2 & Hv). inversion Hv; subst. clear Hv.
  apply bind_Ok in H2 as ([st1 pv] & Hrd & H2). inversion H2; subst.
  clear H2. cbn [fst snd] in *.
  destruct (read_has_facts f reg _ _ _ _ Hrd) as [Hty _].
  rewrite type_of_default in Hty.
  pose proof (prefix_length _ _ (read_grows f reg _ _ _ _ Hrd)) as Hlen.
  simpl in Hlen. rewrite length_app in Hlen. simpl in Hlen.
  assert (Hl : <[length s.2 := pv]> st1.2 !! length s.2 = Some pv)
    by (apply list_lookup_insert_eq; lia).
  split; [|split].
  - unfold Variant_consistent, Variant_setRawData. simpl. eauto.
  - unfold payload_matches, Variant_setRawData, VariantHelper_signature.
    simpl. exists pv. split; [done|]. by rewrite Hty.
  - intros _. exists T, (length s.2), pv. by repeat split.
Qed.

(** An empty variant is read from a stream that carries a uint32 in a
    variant. *)
Lemma decode_keeps_variant_invariant_witness :
  let reg : gmap string dtype := {[ "u" := TBasic KUInt32 ]} in
  let s := (mkMessage [] [WBasic (BSignature "u"); WBasic (BUInt32 7)] true,
            [VBasic (BString "old")]) in
  let s' := (mkMessage [WBasic (BSignature "u"); WBasic (BUInt32 7)] [] true,
             [VBasic (BString "old"); VBasic (BUInt32 7)]) in
  let x' := VVariant (mkVariant "u" (Some 1%nat) (Some (TBasic KUInt32))) in
  exists var',
    x' = VVariant var'
    /\ Variant_consistent s'.2 var'
    /\ payload_matches s'.2 var'
    /\ (Message_bool s'.1 = true ->
        exists T l pv, helper_ var' = Some T /\ data_ var' = Some l
          /\ s'.2 !! l = Some pv /\ type_of pv = T
          /\ signature_ var' = signature T).
Proof.
  intros reg s s' x'.
  apply (decode_keeps_variant_invariant 2 reg s s' Variant_default x');
    reflexivity.
Defined.
(** ** A helper without a payload *)

Lemma write_keeps_valid (f : nat) (h : heap) (m m' : Message) (x : value) :
  Message_bool m = true -> write f h m x = Ok m' -> Message_bool m' = true.
Proof.
  intros Hm H. destruct (write_uniform f h x m m' Hm H) as [t [_ Ht]].
  rewrite (Ht m Hm) in H. inversion H. by apply append_valid.
Qed.

(** A loop over the elements that returns has run the element operator on
    every element, in a valid message. *)
Lemma write_each_reaches (wr : Message -> value -> res Message)
    (xs : list value) (x : value) :
  (forall m y m', Message_bool m = true -> wr m y = Ok m' ->
     Message_bool m' = true) ->
  x ∈ xs ->
  forall m m', Message_bool m = true -> write_each wr m xs = Ok m' ->
    exists mx mx', Message_bool mx = true /\ wr mx x = Ok mx'.
Proof.
  intros Hwr. induction 1 as [x xs|x y xs _ IH]; intros m m' Hm H;
    simpl in H; apply bind_Ok in H as (m1 & H1 & H).
  - by exists m, m1.
  - apply (IH m1 m'); [by eapply Hwr|done].
Qed.

Lemma mapM_reaches {A B : Type} (f : A -> res B) (xs : list A) (x : A) :
  x ∈ xs -> forall ss, mapM f xs = Ok ss -> exists s, f x = Ok s.
Proof.
  induction 1 as [x xs|x y xs _ IH]; intros ss H; simpl in H;
    apply bind_Ok in H as (s & Hs & H);
    apply bind_Ok in H as (ss' & Hss & H).
  - by exists s.
  - by apply (IH ss').
Qed.

Lemma lacks_payload_not_written (h : heap) (f : nat) :
  forall v, lacks_payload h v ->
    forall m m', Message_bool m = true -> write f h m v <> Ok m'.
Proof.
  induction f as [|f IH]; intros v Hl m m' Hm H; [done|].
  assert (Hvalid : forall m0 y m1, Message_bool m0 = true ->
            write f h m0 y = Ok m1 -> Message_bool m1 = true)
    by (intros m0 y m1; apply write_keeps_valid).
  assert (Hopen : forall c, Message_bool (Message_write_Container m c) = true)
    by (intros c; unfold Message_write_Container; by rewrite Hm).
  destruct Hl as [var T HT Hd|var T l pv HT Hd Hpv Hl|T xs x Hx Hl
                  |fs x Hx Hl|fs x Hx Hl|k v Hl|k v Hl|a b Hl|a b Hl];
    simpl in H.
  - unfold Message_write_Variant, Variant_writeToMessage,
      VariantHelper_serialize in H.
    rewrite Hm, HT, Hd in H. done.
  - unfold Message_write_Variant, Variant_writeToMessage,
      VariantHelper_serialize, deref in H.
    rewrite Hm, HT, Hd, Hpv in H. simpl in H.
    destruct (decide (type_of pv = T)); [|done]. simpl in H.
    unfold Message_write_basic in H. rewrite Hm in H.
    refine (IH pv Hl _ m' _ H). by apply append_valid.
  - unfold Message_write_vector in H. cbv zeta in H. rewrite Hopen in H.
    apply bind_Ok in H as (m2 & H2 & _).
    destruct (write_each_reaches _ xs x Hvalid Hx _ _ (Hopen _) H2)
      as (mx & mx' & Hmx & Hw).
    by apply (IH x Hl mx mx').
  - unfold Message_write_DBusStruct in H. cbv zeta in H. rewrite Hopen in H.
    apply bind_Ok in H as (m2 & H2 & _).
    rewrite marshall_take, firstn_all in H2 by done.
    destruct (write_each_reaches _ fs x Hvalid Hx _ _ (Hopen _) H2)
      as (mx & mx' & Hmx & Hw).
    by apply (IH x Hl mx mx').
  - unfold Message_write_tuple in H.
    rewrite marshall_take, firstn_all in H by done.
    destruct (write_each_reaches _ fs x Hvalid Hx _ _ Hm H)
      as (mx & mx' & Hmx & Hw).
    by apply (IH x Hl mx mx').
  - unfold Message_write_DictEntry in H. cbv zeta in H. rewrite Hopen in H.
    apply bind_Ok in H as (m2 & H2 & _).
    exact (IH k Hl _ m2 (Hopen _) H2).
  - unfold Message_write_DictEntry in H. cbv zeta in H. rewrite Hopen in H.
    apply bind_Ok in H as (m2 & H2 & H).
    rewrite (Hvalid _ _ _ (Hopen _) H2) in H. simpl in H.
    apply bind_Ok in H as (m3 & H3 & _).
    by apply (IH v Hl m2 m3 (Hvalid _ _ _ (Hopen _) H2)).
  - unfold Message_write_pair in H. rewrite Hm in H. simpl in H.
    apply bind_Ok in H as (m1 & H1 & _).
    by apply (IH a Hl m m1).
  - unfold Message_write_pair in H. rewrite Hm in H. simpl in H.
    apply bind_Ok in H as (m1 & H1 & H).
    rewrite (Hvalid _ _ _ Hm H1) in H. simpl in H.
    by apply (IH b Hl m1 m' (Hvalid _ _ _ Hm H1)).
Qed.

Lemma lacks_payload_not_displayed (h : heap) (style : LogStyle) (f : nat) :
  forall v, lacks_payload h v -> forall s, log_value f style h v <> Ok s.
Proof.
  induction f as [|f IH]; intros v Hl s H; [done|].
  destruct Hl as [var T HT Hd|var T l pv HT Hd Hpv Hl|T xs x Hx Hl
                  |fs x Hx Hl|fs x Hx Hl|k v Hl|k v Hl|a b Hl|a b Hl];
    simpl in H.
  - unfold log_Variant, Variant_printData, VariantHelper_print in H.
    rewrite HT, Hd in H. done.
  - unfold log_Variant, Variant_printData, VariantHelper_print, deref in H.
    rewrite HT, Hd, Hpv in H. simpl in H.
    destruct (decide (type_of pv = T)); [|done]. simpl in H.
    apply bind_Ok in H as (s1 & H1 & _). by apply (IH pv Hl s1).
  - apply bind_Ok in H as (ss & Hss & _).
    destruct (mapM_reaches _ xs x Hx ss Hss) as [s1 H1].
    by apply (IH x Hl s1).
  - apply bind_Ok in H as (ss & Hss & _).
    destruct (mapM_reaches _ fs x Hx ss Hss) as [s1 H1].
    by apply (IH x Hl s1).
  - apply bind_Ok in H as (ss & Hss & _).
    destruct (mapM_reaches _ fs x Hx ss Hss) as [s1 H1].
    by apply (IH x Hl s1).
  - apply bind_Ok in H as (sk & Hk & _). by apply (IH k Hl sk).
  - apply bind_Ok in H as (sk & Hk & H).
    apply bind_Ok in H as (sv & Hv & _). by apply (IH v Hl sv).
  - apply bind_Ok in H as (sa & Ha & _). by apply (IH a Hl sa).
  - apply bind_Ok in H as (sa & Ha & H).
    apply bind_Ok in H as (sb & Hb & _). by apply (IH b Hl sb).
Qed.

(** The copy constructor leaves no helper without a payload behind. *)
Lemma copy_each_payloads (cp : heap -> value -> res (heap * value))
    (xs : list value) :
  copies_deeply cp -> copies_payloads cp ->
  forall h h' xs', copy_each cp h xs = Ok (h', xs') ->
    forallb has_payloads xs' = true
    /\ (forall a cell, h' !! a = Some cell -> (length h <= a)%nat ->
          has_payloads cell = true).
Proof.
  intros Hdeep Hpay. induction xs as [|x xs IH]; intros h h' xs' H;
    simpl in H.
  { inversion H; subst. split; [done|].
    intros a cell Ha Hle. apply lookup_lt_Some in Ha. lia. }
  apply bind_Ok in H as ([h1 x'] & Hx & H).
  apply bind_Ok in H as ([h2 xs''] & Hxs & H). inversion H; subst.
  destruct (Hdeep _ _ _ _ Hx) as (Hp1 & _).
  destruct (Hpay _ _ _ _ Hx) as (Hx' & Hc1).
  destruct (IH _ _ _ Hxs) as (Hxs' & Hc2).
  destruct (copy_each_deep cp Hdeep xs _ _ _ Hxs) as (Hp2 & _).
  pose proof (prefix_length _ _ Hp1) as Hlen.
  split; [simpl; by rewrite Hx', Hxs'|].
  intros a cell Ha Hle.
  destruct (decide (length h1 <= a)%nat) as [Hge|Hlt].
  - by eapply Hc2.
  - eapply Hc1; [|done].
    destruct Hp2 as [k ->]. rewrite lookup_app_l in Ha by lia. done.
Qed.

Lemma Variant_copy_payloads (cp : heap -> value -> res (heap * value))
    (h h' : heap) (v v' : Variant) :
  copies_deeply cp -> copies_payloads cp ->
  Variant_copy cp h v = Ok (h', v') ->
  has_payloads (VVariant v') = true
  /\ (forall a cell, h' !! a = Some cell -> (length h <= a)%nat ->
        has_payloads cell = true).
Proof.
  intros Hdeep Hpay.
  unfold Variant_copy, VariantHelper_copy, VariantHelper_copy_null,
    make_shared.
  intros H. destruct (helper_ v) as [T|].
  - apply bind_Ok in H as ([h1 l] & Hc & H). inversion H; subst.
    split; [done|]. destruct (data_ v) as [l0|].
    + apply bind_Ok in Hc as (s & _ & Hc).
      apply bind_Ok in Hc as ([h2 s'] & Hcp & Hc). inversion Hc; subst.
      destruct (Hdeep _ _ _ _ Hcp) as (Hp & _).
      destruct (Hpay _ _ _ _ Hcp) as (Hs' & Hcell).
      pose proof (prefix_length _ _ Hp) as Hlen.
      intros a cell Ha Hle.
      destruct (decide (a = length h2)) as [->|Hne].
      * rewrite snoc_lookup in Ha. by inversion Ha; subst.
      * eapply Hcell; [|done].
        apply lookup_lt_Some in Ha as Hlt. rewrite length_app in Hlt.
        simpl in Hlt. rewrite lookup_app_l in Ha by lia. done.
    + inversion Hc; subst. intros a cell Ha Hle.
      apply lookup_lt_Some in Ha as Hlt. rewrite length_app in Hlt.
      simpl in Hlt. assert (a = length h) as -> by lia.
      rewrite snoc_lookup in Ha. inversion Ha; subst.
      apply has_payloads_default.
  - inversion H; subst. split; [done|].
    intros a cell Ha Hle. apply lookup_lt_Some in Ha. lia.
Qed.

Lemma copy_value_payloads (f : nat) : copies_payloads (copy_value f).
Proof.
  induction f as [|f IH]; intros h v h' v' H; [done|].
  pose proof (copy_value_deep f) as Hdeep.
  destruct v as [p|var|T xs|fs|k v|a b|fs]; simpl in H.
  - inversion H; subst. split; [done|].
    intros a cell Ha Hle. apply lookup_lt_Some in Ha. lia.
  - apply bind_Ok in H as ([h1 var'] & Hv & H). inversion H; subst.
    by apply (Variant_copy_payloads _ _ _ _ _ Hdeep IH Hv).
  - apply bind_Ok in H as ([h1 xs'] & Hxs & H). inversion H; subst.
    by apply (copy_each_payloads _ xs Hdeep IH _ _ _ Hxs).
  - apply bind_Ok in H as ([h1 xs'] & Hxs & H). inversion H; subst.
    by apply (copy_each_payloads _ fs Hdeep IH _ _ _ Hxs).
  - apply bind_Ok in H as ([h1 k'] & Hk & H).
    apply bind_Ok in H as ([h2 v0] & Hv & H). inversion H; subst.
    destruct (Hdeep _ _ _ _ Hk) as (Hp1 & _).
    destruct (Hdeep _ _ _ _ Hv) as (Hp2 & _).
    destruct (IH _ _ _ _ Hk) as (Hk' & Hc1).
    destruct (IH _ _ _ _ Hv) as (Hv' & Hc2).
    pose proof (prefix_length _ _ Hp1) as Hlen.
    split; [simpl; by rewrite Hk', Hv'|].
    intros a0 cell Ha Hle.
    destruct (decide (length h1 <= a0)%nat) as [Hge|Hlt].
    + by eapply Hc2.
    + eapply Hc1; [|done].
      destruct Hp2 as [t ->]. rewrite lookup_app_l in Ha by lia. done.
  - apply bind_Ok in H as ([h1 a'] & Ha' & H).
    apply bind_Ok in H as ([h2 b'] & Hb' & H). inversion H; subst.
    destruct (Hdeep _ _ _ _ Ha') as (Hp1 & _).
    destruct (Hdeep _ _ _ _ Hb') as (Hp2 & _).
    destruct (IH _ _ _ _ Ha') as (Hpa & Hc1).
    destruct (IH _ _ _ _ Hb') as (Hpb & Hc2).
    pose proof (prefix_length _ _ Hp1) as Hlen.
    split; [simpl; by rewrite Hpa, Hpb|].
    intros a0 cell Ha Hle.
    destruct (decide (length h1 <= a0)%nat) as [Hge|Hlt].
    + by eapply Hc2.
    + eapply Hc1; [|done].
      destruct Hp2 as [t ->]. rewrite lookup_app_l in Ha by lia. done.
  - apply bind_Ok in H as ([h1 xs'] & Hxs & H). inversion H; subst.
    by apply (copy_each_payloads _ fs Hdeep IH _ _ _ Hxs).
Qed.

Lemma pointers_elem (P : nat -> Prop) (xs : list value) (x : value) :
  x ∈ xs -> Forall P (concat (map pointers xs)) -> Forall P (pointers x).
Proof.
  induction 1 as [x xs|x y xs _ IH]; simpl; intros H;
    apply Forall_app in H as [H1 H2]; [done|by apply IH].
Qed.

Lemma has_payloads_elem (xs : list value) (x : value) :
  x ∈ xs -> forallb has_payloads xs = true -> has_payloads x = true.
Proof.
  intros Hx H. apply forallb_Forall in H.
  by apply (proj1 (Forall_forall _ _) H x).
Qed.

(** A value that points only to objects from the address [n] on, where
    those objects point only to such objects and no variant among them or
    in the value has a helper and a null payload, meets none when it is
    walked. *)
Lemma fresh_payloads_lack_nothing (h : heap) (n : nat) :
  (forall a cell, h !! a = Some cell -> (n <= a)%nat ->
     has_payloads cell = true /\ fresh_from n cell) ->
  forall v, lacks_payload h v ->
    has_payloads v = true -> fresh_from n v -> False.
Proof.
  intros Hcells v Hl.
  induction Hl as [var T HT Hd|var T l pv HT Hd Hpv Hl IH|T xs x Hx Hl IH
                   |fs x Hx Hl IH|fs x Hx Hl IH|k v Hl IH|k v Hl IH
                   |a b Hl IH|a b Hl IH];
    unfold fresh_from; simpl; intros Hp Hf.
  - by rewrite HT, Hd in Hp.
  - rewrite Hd in Hf. apply Forall_cons in Hf as [Hle _].
    destruct (Hcells l pv Hpv Hle) as [Hp' Hf']. by apply IH.
  - apply IH; [by eapply has_payloads_elem|by eapply pointers_elem].
  - apply IH; [by eapply has_payloads_elem|by eapply pointers_elem].
  - apply IH; [by eapply has_payloads_elem|by eapply pointers_elem].
  - apply andb_true_iff in Hp as [Hp _]. apply Forall_app in Hf as [Hf _].
    by apply IH.
  - apply andb_true_iff in Hp as [_ Hp]. apply Forall_app in Hf as [_ Hf].
    by apply IH.
  - apply andb_true_iff in Hp as [Hp _]. apply Forall_app in Hf as [Hf _].
    by apply IH.
  - apply andb_true_iff in Hp as [_ Hp]. apply Forall_app in Hf as [_ Hf].
    by apply IH.
Qed.

Lemma copy_lacks_nothing (f : nat) (h h' : heap) (v v' : value) :
  copy_value f h v = Ok (h', v') -> ~ lacks_payload h' v'.
Proof.
  intros H Hl.
  destruct (copy_value_deep f _ _ _ _ H) as (_ & _ & Hf & Hcf).
  destruct (copy_value_payloads f _ _ _ _ H) as (Hp & Hcp).
  apply (fresh_payloads_lack_nothing h' (length h)) with (v := v'); try done.
  intros a cell Ha Hle. split; [by eapply Hcp|by eapply Hcf].
Qed.

(** In a well-formed store the walk of a value ends: with enough fuel the
    write and the display return or show undefined behaviour. *)
Lemma ContainerEnd_returns (m : Message) :
  Message_write_ContainerEnd m <> OutOfFuel.
Proof.
  unfold Message_write_ContainerEnd. destruct (Message_bool m); [|done].
  by destruct (open_depth 0 (consumed_ m ++ pending_ m)).
Qed.

Lemma write_each_returns (wr : Message -> value -> res Message)
    (xs : list value) :
  (forall m y m', Message_bool m = true -> wr m y = Ok m' ->
     Message_bool m' = true) ->
  Forall (fun x => forall m, Message_bool m = true -> wr m x <> OutOfFuel)
    xs ->
  forall m, Message_bool m = true -> write_each wr m xs <> OutOfFuel.
Proof.
  intros Hwr. induction 1 as [|x xs Hx _ IH]; intros m Hm; simpl; [done|].
  destruct (wr m x) as [m1| |] eqn:E; simpl; [|by destruct (Hx m Hm)|done].
  apply IH. by eapply Hwr.
Qed.

Lemma mapM_returns {A B : Type} (f : A -> res B) (xs : list A) :
  Forall (fun x => f x <> OutOfFuel) xs -> mapM f xs <> OutOfFuel.
Proof.
  induction 1 as [|x xs Hx _ IH]; simpl; [done|].
  destruct (f x) as [s| |]; simpl; [|done|done].
  by destruct (mapM f xs).
Qed.

Lemma eventually_all {A : Type} (P : nat -> A -> Prop) (xs : list A) :
  Forall (fun x => exists f0, forall f, (f0 <= f)%nat -> P f x) xs ->
  exists f0, forall f, (f0 <= f)%nat -> Forall (P f) xs.
Proof.
  induction 1 as [|x xs [fx Hx] _ [fxs Hxs]].
  { exists 0%nat. by constructor. }
  exists (Nat.max fx fxs). intros f Hf.
  constructor; [apply Hx|apply Hxs]; lia.
Qed.

Lemma values_return (rank : nat -> nat) (h : heap) (style : LogStyle) :
  heap_okb rank h = true ->
  forall n v, value_okb rank n h v = true ->
    exists f0, forall f, (f0 <= f)%nat ->
      (forall m, Message_bool m = true -> write f h m v <> OutOfFuel)
      /\ log_value f style h v <> OutOfFuel.
Proof.
  intros Hh n. induction n as [n IHn] using lt_wf_ind.
  pose (P := fun (f : nat) (x : value) =>
               (forall m, Message_bool m = true ->
                  write f h m x <> OutOfFuel)
               /\ log_value f style h x <> OutOfFuel).
  assert (Hlist : forall xs,
            Forall (fun x => value_okb rank n h x = true ->
                      exists f0, forall f, (f0 <= f)%nat -> P f x) xs ->
            forallb (value_okb rank n h) xs = true ->
            exists f0, forall f, (f0 <= f)%nat ->
              (forall m, Message_bool m = true ->
                 write_each (write f h) m xs <> OutOfFuel)
              /\ mapM (log_value f style h) xs <> OutOfFuel).
  { intros xs Hxs Hok.
    destruct (eventually_all P xs) as [f0 Hf0].
    { apply forallb_Forall in Hok. revert Hok.
      induction Hxs as [|x xs Hx _ IH]; intros Hok; [constructor|].
      apply Forall_cons in Hok as [Hokx Hok].
      constructor; [by apply Hx|by apply IH]. }
    exists f0. intros f Hf. specialize (Hf0 f Hf). split.
    - apply write_each_returns.
      + intros m y m'. apply write_keeps_valid.
      + eapply Forall_impl; [exact Hf0|]. by intros x [Hx _].
    - apply mapM_returns.
      eapply Forall_impl; [exact Hf0|]. by intros x [_ Hx]. }
  assert (Hopen : forall m c, Message_bool m = true ->
            Message_bool (Message_write_Container m c) = true)
    by (intros m c Hm; unfold Message_write_Container; by rewrite Hm).
  intros v. induction v as [p|var|T xs IH|fs IH|k v IHk IHv|a b IHa IHb|fs IH]
    using value_ind'; intros Hok; simpl in Hok.
  - exists 1%nat. intros [|f] Hf; [lia|]. done.
  - destruct var as [sig [l|] [T|]]; simpl in Hok.
    + destruct (variant_okb_inv _ _ _ _ Hok T l eq_refl eq_refl)
        as (Hr & pv & Hpv & Hty).
      destruct (IHn (rank l) Hr pv (heap_okb_lookup rank h l pv Hh Hpv))
        as [f1 Hf1].
      exists (S f1). intros [|f] Hf; [lia|].
      destruct (Hf1 f) as [Hw Hl]; [lia|]. split.
      * intros m Hm. simpl.
        unfold Message_write_Variant, Variant_writeToMessage,
          VariantHelper_serialize, deref. simpl.
        rewrite Hm, Hpv. simpl. rewrite decide_True by done. simpl.
        apply Hw. unfold Message_write_basic. by rewrite Hm.
      * simpl. unfold log_Variant, Variant_printData, VariantHelper_print,
          deref. simpl.
        rewrite Hpv. rewrite decide_True by done. simpl.
        by destruct (log_value f style h pv).
    + exists 1%nat. intros [|f] Hf; [lia|]. split; [|done].
      intros m Hm. simpl.
      unfold Message_write_Variant, Variant_writeToMessage. simpl.
      by rewrite Hm.
    + exists 1%nat. intros [|f] Hf; [lia|]. split; [|done].
      intros m Hm. simpl.
      unfold Message_write_Variant, Variant_writeToMessage,
        VariantHelper_serialize. simpl.
      by rewrite Hm.
    + exists 1%nat. intros [|f] Hf; [lia|]. split; [|done].
      intros m Hm. simpl.
      unfold Message_write_Variant, Variant_writeToMessage. simpl.
      by rewrite Hm.
  - destruct (Hlist xs IH Hok) as [f0 Hf0].
    exists (S f0). intros [|f] Hf; [lia|].
    destruct (Hf0 f) as [Hw Hl]; [lia|]. split.
    + intros m Hm. simpl. unfold Message_write_vector. cbv zeta.
      rewrite Hopen by done.
      destruct (write_each _ _ xs) as [m2| |] eqn:E; simpl;
        [apply ContainerEnd_returns| |done].
      exfalso. refine (Hw _ _ E). by apply Hopen.
    + simpl. by destruct (mapM _ xs).
  - destruct (Hlist fs IH Hok) as [f0 Hf0].
    exists (S f0). intros [|f] Hf; [lia|].
    destruct (Hf0 f) as [Hw Hl]; [lia|]. split.
    + intros m Hm. simpl. unfold Message_write_DBusStruct. cbv zeta.
      rewrite Hopen by done.
      rewrite marshall_take, firstn_all by done.
      destruct (write_each _ _ fs) as [m2| |] eqn:E; simpl; [| |done].
      * destruct (Message_bool m2); [apply ContainerEnd_returns|done].
      * exfalso. refine (Hw _ _ E). by apply Hopen.
    + simpl. by destruct (mapM _ fs).
  - apply andb_true_iff in Hok as [Hokk Hokv].
    destruct (IHk Hokk) as [fk Hk]. destruct (IHv Hokv) as [fv Hv].
    exists (S (Nat.max fk fv)). intros [|f] Hf; [lia|].
    destruct (Hk f) as [Hwk Hlk]; [lia|].
    destruct (Hv f) as [Hwv Hlv]; [lia|]. split.
    + intros m Hm. simpl. unfold Message_write_DictEntry. cbv zeta.
      rewrite Hopen by done.
      destruct (write f h _ k) as [m2| |] eqn:E2; simpl; [| |done].
      * assert (Hm2 : Message_bool m2 = true).
        { refine (write_keeps_valid _ _ _ _ _ _ E2). by apply Hopen. }
        rewrite Hm2. simpl.
        destruct (write f h m2 v) as [m3| |] eqn:E3; simpl; [| |done].
        -- rewrite (write_keeps_valid _ _ _ _ _ Hm2 E3). simpl.
           apply ContainerEnd_returns.
        -- by destruct (Hwv m2 Hm2).
      * exfalso. refine (Hwk _ _ E2). by apply Hopen.
    + simpl. destruct (log_value f style h k); simpl; [|done|done].
      by destruct (log_value f style h v).
  - apply andb_true_iff in Hok as [Hoka Hokb].
    destruct (IHa Hoka) as [fa Ha]. destruct (IHb Hokb) as [fb Hb].
    exists (S (Nat.max fa fb)). intros [|f] Hf; [lia|].
    destruct (Ha f) as [Hwa Hla]; [lia|].
    destruct (Hb f) as [Hwb Hlb]; [lia|]. split.
    + intros m Hm. simpl. unfold Message_write_pair. rewrite Hm. simpl.
      destruct (write f h m a) as [m1| |] eqn:E1; simpl; [| |done].
      * rewrite (write_keeps_valid _ _ _ _ _ Hm E1). simpl.
        apply Hwb. by apply (write_keeps_valid _ _ _ _ _ Hm E1).
      * by destruct (Hwa m Hm).
    + simpl. destruct (log_value f style h a); simpl; [|done|done].
      by destruct (log_value f style h b).
  - destruct (Hlist fs IH Hok) as [f0 Hf0].
    exists (S f0). intros [|f] Hf; [lia|].
    destruct (Hf0 f) as [Hw Hl]; [lia|]. split.
    + intros m Hm. simpl. unfold Message_write_tuple.
      rewrite marshall_take, firstn_all by done. by apply Hw.
    + simpl. by destruct (mapM _ fs).
Qed.

(** X15. [setRawData] (lines 176-183) accepts a null payload together with a
    helper.  Of the operations of [VariantHelper], only [copy] tests the
    payload pointer (line 87); [serialize] and [print] (lines 93-96 and
    101-104) cast and dereference it as it is, and [printData] (lines
    195-199) only tests the helper.  So a variant with a helper and no
    payload stops every write and every display that reaches it, wherever
    it sits: in a vector, a struct, a dict entry, a pair or a tuple, or in
    the payload of another variant, at any depth.  No write of such a value
    to a valid message and no display of it returns normally, in any store
    and with any fuel; in a well-formed store, where the walk ends, both
    are undefined behaviour once the fuel is enough, whereas the copy
    constructor returns.  And a copy that returns, in any store, holds no
    such variant at any depth. *)
Theorem helper_without_payload (f : nat) (style : LogStyle)
    (h : heap) (v : value) :
  lacks_payload h v ->
  (forall m m', Message_bool m = true -> write f h m v <> Ok m')
  /\ (forall s, log_value f style h v <> Ok s)
  /\ (forall rank n, heap_okb rank h = true -> value_okb rank n h v = true ->
      exists f0, forall g, (f0 <= g)%nat ->
        (forall m, Message_bool m = true -> write g h m v = Undefined)
        /\ log_value g style h v = Undefined
        /\ exists h' v', copy_value g h v = Ok (h', v'))
  /\ (forall h' v', copy_value f h v = Ok (h', v') ->
        ~ lacks_payload h' v').
Proof.
  intros Hl. split; [by apply lacks_payload_not_written|].
  split; [by apply lacks_payload_not_displayed|]. split.
  - intros rank n Hh Hok.
    destruct (values_return rank h style Hh n v Hok) as [f1 Hf1].
    destruct (value_copyable rank h Hh n v Hok) as [f2 Hf2].
    exists (Nat.max f1 f2). intros g Hg.
    destruct (Hf1 g) as [Hw Hd]; [lia|]. split; [|split].
    + intros m Hm.
      pose proof (lacks_payload_not_written h g v Hl m) as Hno.
      specialize (Hw m Hm). specialize (Hno).
      destruct (write g h m v) as [m'| |]; [|done|done].
      by destruct (Hno m' Hm).
    + pose proof (lacks_payload_not_displayed h style g v Hl) as Hno.
      destruct (log_value g style h v) as [s| |]; [|done|done].
      by destruct (Hno s).
    + apply (Hf2 g); [lia|done].
  - intros h' v'. apply copy_lacks_nothing.
Qed.

(** A struct of an int32 value and a variant whose payload is a vector of
    one variant, which [setRawData] has given the helper of uint32 and a
    null payload.  Writing and displaying the struct are undefined; its
    copy holds a uint32 object where the payload was missing. *)
Lemma helper_without_payload_witness :
  let u := TBasic KUInt32 in
  let style := mkLogStyle (fun _ => "?") (fun _ => "[]") (fun _ => "()") in
  let empty := Variant_setRawData Variant_default None (Some u) in
  let h := [VArray TVariant [VVariant empty]] in
  let v := VStruct [VBasic (BInt32 1);
                    VVariant (mkVariant "av" (Some 0%nat)
                                (Some (TArray TVariant)))] in
  let h' := h ++ [VBasic (BUInt32 0);
                  VArray TVariant
                    [VVariant (mkVariant "u" (Some 1%nat) (Some u))]] in
  let v' := VStruct [VBasic (BInt32 1);
                     VVariant (mkVariant "av" (Some 2%nat)
                                 (Some (TArray TVariant)))] in
  lacks_payload h v
  /\ write 4 h Message_new v = Undefined
  /\ log_value 4 style h v = Undefined
  /\ copy_value 4 h v = Ok (h', v')
  /\ ~ lacks_payload h' v'
  /\ (forall m m', Message_bool m = true -> write 4 h m v <> Ok m')
  /\ (forall s, log_value 4 style h v <> Ok s)
  /\ (exists f0, forall g, (f0 <= g)%nat ->
        (forall m, Message_bool m = true -> write g h m v = Undefined)
        /\ log_value g style h v = Undefined
        /\ exists h1 v1, copy_value g h v = Ok (h1, v1)).
Proof.
  intros u style empty h v h' v'.
  assert (Hl : lacks_payload h v).
  { apply (lacks_struct_field h _
             (VVariant (mkVariant "av" (Some 0%nat) (Some (TArray TVariant)))));
      [apply list_elem_of_further, list_elem_of_here|].
    apply (lacks_behind h _ (TArray TVariant) 0%nat
             (VArray TVariant [VVariant empty]));
      [reflexivity|reflexivity|reflexivity|].
    apply (lacks_element h _ _ (VVariant empty)); [apply list_elem_of_here|].
    by apply (lacks_here h _ u). }
  destruct (helper_without_payload 4 style h v Hl)
    as (Hw & Hd & Hu & Hc).
  split; [exact Hl|]. split; [reflexivity|]. split; [reflexivity|].
  split; [reflexivity|]. split; [by apply Hc|]. split; [exact Hw|].
  split; [exact Hd|]. apply (Hu (fun a => a) 1%nat); reflexivity.
Defined.
